(** * s2list: singly linked first/last lists with base-pointers

    A shallow embedding of [src/s2list.go] (package [s2list]) and the
    properties of its three types: [List_node], [List_base], [List_iter].

    Go pointers are indices into three arenas (one per struct type); the
    nil pointer is [None].  Every method is a function in a small state
    monad over the arenas.  Go code returns its errors as values, so an
    error is part of a method's result, not an effect of the monad. *)

From Stdlib Require Import ZArith Lia Ascii String.
From stdpp Require Import base option list strings relations.

Open Scope string_scope.

(** ** Errors *)

(** Modelled from the spec: the package [github.com/drauk/elist] is an
    external collaborator, "an error-reporting utility that constructs
    labeled error values and allows wrapping an existing error with
    additional context".  [elist_New] is [elist.New], [elist_Push] is
    [elist.Push]; the labels are the string literals of the source. *)
Inductive error : Type :=
  | elist_New (msg : string)
  | elist_Push (e : error) (msg : string).

(** The error taxonomy of the specification. *)
Inductive err_kind : Type :=
  | NilReceiver
  | AlreadyOwned
  | NotOwner
  | CorruptState
  | UnboundIterator.

Global Instance err_kind_eq_dec : EqDecision err_kind.
Proof. solve_decision. Defined.

(** The label the error was created with, below any pushed context. *)
Fixpoint root_msg (e : error) : string :=
  match e with
  | elist_New msg => msg
  | elist_Push e' _ => root_msg e'
  end.

(** Every label of the source reads ["Type::Method: condition"]; the
    condition is what follows the first colon that a space follows. *)
Fixpoint condition (s : string) : string :=
  match s with
  | EmptyString => EmptyString
  | String c rest =>
      match rest with
      | String c' rest' =>
          if (Ascii.eqb c ":"%char && Ascii.eqb c' " "%char)%bool then rest'
          else condition rest
      | EmptyString => EmptyString
      end
  end.

(** Which failed check of the source belongs to which kind of error. *)
Definition kind_table : list (string * err_kind) :=
  [ ("p == nil", NilReceiver);
    ("pnode.base != nil", AlreadyOwned);
    ("q.base != p", NotOwner);
    ("p.first != p.last == nil", CorruptState);
    ("q == nil", CorruptState);
    ("pnode == nil", CorruptState);
    ("p.current.base == nil", CorruptState);
    ("p.current.base != p.base", CorruptState);
    ("p.base == nil", UnboundIterator) ].

Fixpoint assoc (k : string) (t : list (string * err_kind)) : option err_kind :=
  match t with
  | [] => None
  | (k', v) :: t' => if String.eqb k k' then Some v else assoc k t'
  end.

Definition kind_of (e : error) : option err_kind :=
  assoc (condition (root_msg e)) kind_table.

(** An [error] result fails with kind [k]. *)
Definition fails_with (k : err_kind) (E : option error) : Prop :=
  exists e, E = Some e /\ kind_of e = Some k.

(** ** Machine integers *)

(** Go's [int] on a 64-bit platform: addition wraps around. *)
Definition int_wrap (z : Z) : Z := ((z + 2 ^ 63) mod 2 ^ 64 - 2 ^ 63)%Z.
Definition int_add (a b : Z) : Z := int_wrap (a + b).

(** ** Data model *)

Section Model.

(** [V] is the dynamic content of the [interface{}] payload; the nil
    interface value is [None]. *)
Context {V : Type}.

(** Pointers: an index into the arena of the pointed-to type. *)
Definition node_ptr := option nat.
Definition base_ptr := option nat.
Definition iter_ptr := option nat.

Record List_node : Type := mk_node {
  n_next : node_ptr;     (* next *List_node *)
  n_base : base_ptr;     (* base *List_base *)
  n_value : option V     (* value interface{} *)
}.

Record List_base : Type := mk_base {
  b_first : node_ptr;    (* first *List_node *)
  b_last : node_ptr      (* last  *List_node *)
}.

Record List_iter : Type := mk_iter {
  i_base : base_ptr;     (* base    *List_base *)
  i_current : node_ptr   (* current *List_node *)
}.

Record heap : Type := mk_heap {
  nodes : list List_node;
  bases : list List_base;
  iters : list List_iter
}.

Definition empty_heap : heap := mk_heap [] [] [].

(** Field assignments. *)
Definition set_next (x : node_ptr) (nd : List_node) : List_node :=
  mk_node x (n_base nd) (n_value nd).
Definition set_base (x : base_ptr) (nd : List_node) : List_node :=
  mk_node (n_next nd) x (n_value nd).
Definition set_value (v : option V) (nd : List_node) : List_node :=
  mk_node (n_next nd) (n_base nd) v.
Definition set_first (x : node_ptr) (B : List_base) : List_base :=
  mk_base x (b_last B).
Definition set_last (x : node_ptr) (B : List_base) : List_base :=
  mk_base (b_first B) x.
Definition set_ibase (x : base_ptr) (it : List_iter) : List_iter :=
  mk_iter x (i_current it).
Definition set_current (x : node_ptr) (it : List_iter) : List_iter :=
  mk_iter (i_base it) x.

(** ** The monad *)

(** A call returns a value and the new heap, or panics (a dereference of
    nil or of an address outside the arena), or is still running when the
    fuel of one of its loops is used up. *)
Inductive outcome (A : Type) : Type :=
  | Return (a : A) (h : heap)
  | Panic
  | OutOfFuel.
Global Arguments Return {A} a h.
Global Arguments Panic {A}.
Global Arguments OutOfFuel {A}.

Definition M (A : Type) : Type := heap -> outcome A.

Global Instance M_ret : MRet M := fun A a h => Return a h.
Global Instance M_bind : MBind M := fun A B f m h =>
  match m h with
  | Return a h' => f a h'
  | Panic => Panic
  | OutOfFuel => OutOfFuel
  end.

Definition panic {A} : M A := fun _ => Panic.
Definition out_of_fuel {A} : M A := fun _ => OutOfFuel.

(** The heap at this point, for an observer; no method uses it. *)
Definition snapshot : M heap := fun h => Return h h.

Definition load_node (n : nat) : M List_node := fun h =>
  match nodes h !! n with Some nd => Return nd h | None => Panic end.
Definition load_base (b : nat) : M List_base := fun h =>
  match bases h !! b with Some B => Return B h | None => Panic end.
Definition load_iter (i : nat) : M List_iter := fun h =>
  match iters h !! i with Some it => Return it h | None => Panic end.

(** [p.field = ...]: the arena changes at one address. *)
Definition upd_node (n : nat) (f : List_node -> List_node) (h : heap) : heap :=
  mk_heap (alter f n (nodes h)) (bases h) (iters h).
Definition upd_base (b : nat) (f : List_base -> List_base) (h : heap) : heap :=
  mk_heap (nodes h) (alter f b (bases h)) (iters h).
Definition upd_iter (i : nat) (f : List_iter -> List_iter) (h : heap) : heap :=
  mk_heap (nodes h) (bases h) (alter f i (iters h)).

Definition store_node (n : nat) (f : List_node -> List_node) : M unit := fun h =>
  match nodes h !! n with
  | Some _ => Return tt (upd_node n f h)
  | None => Panic
  end.
Definition store_base (b : nat) (f : List_base -> List_base) : M unit := fun h =>
  match bases h !! b with
  | Some _ => Return tt (upd_base b f h)
  | None => Panic
  end.
Definition store_iter (i : nat) (f : List_iter -> List_iter) : M unit := fun h =>
  match iters h !! i with
  | Some _ => Return tt (upd_iter i f h)
  | None => Panic
  end.

(** [p.field] for a pointer [p] that may be nil. *)
Definition deref_node (p : node_ptr) : M List_node :=
  match p with Some n => load_node n | None => panic end.

(** [new(List_node)], [new(List_base)], [new(List_iter)]: a zero value at
    a fresh address. *)
Definition new_node : M node_ptr := fun h =>
  Return (Some (length (nodes h)))
         (mk_heap (nodes h ++ [mk_node None None None]) (bases h) (iters h)).
Definition new_base : M base_ptr := fun h =>
  Return (Some (length (bases h)))
         (mk_heap (nodes h) (bases h ++ [mk_base None None]) (iters h)).
Definition new_iter : M iter_ptr := fun h =>
  Return (Some (length (iters h)))
         (mk_heap (nodes h) (bases h) (iters h ++ [mk_iter None None])).

(** ** List_node *)

Definition GetNext (p : node_ptr) : M (node_ptr * option error) :=
  match p with
  | None => mret (None, Some (elist_New "List_node::GetNext: p == nil"))
  | Some n => nd ← load_node n; mret (n_next nd, None)
  end.

Definition unlink (p : node_ptr) : M (option error) :=
  match p with
  | None => mret (Some (elist_New "List_node::unlink: p == nil"))
  | Some n =>
      store_node n (set_next None);;
      store_node n (set_base None);;
      mret None
  end.

Definition SetValue (p : node_ptr) (v : option V) : M (option error) :=
  match p with
  | None => mret (Some (elist_New "List_node::SetValue: p == nil"))
  | Some n => store_node n (set_value v);; mret None
  end.

Definition GetValue (p : node_ptr) : M (option V * option error) :=
  match p with
  | None => mret (None, Some (elist_New "List_node::GetValue: p == nil"))
  | Some n => nd ← load_node n; mret (n_value nd, None)
  end.

(** ** List_base *)

Definition Empty (p : base_ptr) : M bool :=
  match p with
  | None => mret true
  | Some b =>
      B ← load_base b;
      if decide (b_first B = None) then mret true else mret false
  end.

Definition GetFirst (p : base_ptr) : M node_ptr :=
  match p with
  | None => mret None
  | Some b => B ← load_base b; mret (b_first B)
  end.

(** [for q := p.first; q != nil; q = q.next { n += 1 }] *)
Fixpoint Length_loop (fuel : nat) (q : node_ptr) (n : Z) : M Z :=
  match q with
  | None => mret n
  | Some a =>
      match fuel with
      | O => out_of_fuel
      | S fuel' =>
          nd ← load_node a;
          Length_loop fuel' (n_next nd) (int_add n 1)
      end
  end.

Definition Length (fuel : nat) (p : base_ptr) : M Z :=
  match p with
  | None => mret 0%Z
  | Some b =>
      B ← load_base b;
      if decide (b_first B ≠ None ∧ b_last B ≠ None)
      then Length_loop fuel (b_first B) 0%Z
      else mret 0%Z
  end.

(** The loop of [ValidLength]; the counters are (n_nil, n_wrong, n_total). *)
Fixpoint ValidLength_loop (fuel : nat) (p : base_ptr) (q : node_ptr)
    (c : Z * Z * Z) : M (Z * Z * Z) :=
  match q with
  | None => mret c
  | Some a =>
      match fuel with
      | O => out_of_fuel
      | S fuel' =>
          let '(n_nil, n_wrong, n_total) := c in
          let n_total := int_add n_total 1 in
          nd ← load_node a;
          let c' :=
            if decide (n_base nd = None) then (int_add n_nil 1, n_wrong, n_total)
            else if decide (n_base nd ≠ p) then (n_nil, int_add n_wrong 1, n_total)
            else (n_nil, n_wrong, n_total) in
          ValidLength_loop fuel' p (n_next nd) c'
      end
  end.

Definition ValidLength (fuel : nat) (p : base_ptr) : M (Z * Z * Z) :=
  match p with
  | None => mret (0, 0, 0)%Z
  | Some b =>
      B ← load_base b;
      if decide (b_first B = None ∨ b_last B = None)
      then mret (0, 0, 0)%Z
      else ValidLength_loop fuel p (b_first B) (0, 0, 0)%Z
  end.

Definition Append (p : base_ptr) (pnode : node_ptr) : M (option error) :=
  match p with
  | None => mret (Some (elist_New "List_base::Append: p == nil"))
  | Some b =>
      match pnode with
      | None => mret None
      | Some n =>
          nd ← load_node n;
          if decide (n_base nd ≠ None)
          then mret (Some (elist_New "List_base::Append: pnode.base != nil"))
          else
            store_node n (set_base p);;
            store_node n (set_next None);;
            B ← load_base b;
            match b_last B with
            | Some l => store_node l (set_next pnode)
            | None => store_base b (set_first pnode)
            end;;
            store_base b (set_last pnode);;
            mret None
      end
  end.

Definition AppendValue (p : base_ptr) (v : option V) : M (option error) :=
  match p with
  | None => mret (Some (elist_New "List_base::AppendValue: p == nil"))
  | Some _ =>
      pnode ← new_node;
      E ← SetValue pnode v;
      match E with
      | Some e =>
          mret (Some (elist_Push e "List_base::AppendValue: pnode.SetValue(v)"))
      | None =>
          E ← Append p pnode;
          match E with
          | Some e =>
              mret (Some (elist_Push e "List_base::AppendValue: p.Append(pnode)"))
          | None => mret None
          end
      end
  end.

Definition Prepend (p : base_ptr) (pnode : node_ptr) : M (option error) :=
  match p with
  | None => mret (Some (elist_New "List_base::Prepend: p == nil"))
  | Some b =>
      match pnode with
      | None => mret None
      | Some n =>
          nd ← load_node n;
          if decide (n_base nd ≠ None)
          then mret (Some (elist_New "List_base::Prepend: pnode.base != nil"))
          else
            store_node n (set_base p);;
            B ← load_base b;
            store_node n (set_next (b_first B));;
            store_base b (set_first pnode);;
            B ← load_base b;
            (if decide (b_last B = None)
             then store_base b (set_last pnode)
             else mret tt);;
            mret None
      end
  end.

Definition PrependValue (p : base_ptr) (v : option V) : M (option error) :=
  match p with
  | None => mret (Some (elist_New "List_base::PrependValue: p == nil"))
  | Some _ =>
      pnode ← new_node;
      E ← SetValue pnode v;
      match E with
      | Some e =>
          mret (Some (elist_Push e "List_base::PrependValue: pnode.SetValue(v)"))
      | None =>
          E ← Prepend p pnode;
          match E with
          | Some e =>
              mret (Some (elist_Push e "List_base::PrependValue: p.Prepend(pnode)"))
          | None => mret None
          end
      end
  end.

Definition Popfirst (p : base_ptr) : M (node_ptr * option error) :=
  match p with
  | None => mret (None, Some (elist_New "List_base::Popfirst: p == nil"))
  | Some b =>
      B ← load_base b;
      if decide (b_first B = None) then mret (None, None)
      else if decide (b_last B = None)
      then mret (None, Some (elist_New "List_base::Popfirst: p.first != p.last == nil"))
      else
        (if decide (b_last B = b_first B)
         then store_base b (set_last None)
         else mret tt);;
        B ← load_base b;
        let pnode := b_first B in
        nd ← deref_node pnode;
        store_base b (set_first (n_next nd));;
        unlink pnode;;
        mret (pnode, None)
  end.

(** [for q = p.first; q != nil; q = q.next { if q.next == p.last { break } }]
    returns the value of [q] after the loop. *)
Fixpoint Poplast_scan (fuel : nat) (b : nat) (q : node_ptr) : M node_ptr :=
  match q with
  | None => mret None
  | Some a =>
      match fuel with
      | O => out_of_fuel
      | S fuel' =>
          nd ← load_node a;
          B ← load_base b;
          if decide (n_next nd = b_last B) then mret q
          else Poplast_scan fuel' b (n_next nd)
      end
  end.

Definition Poplast (fuel : nat) (p : base_ptr) : M (node_ptr * option error) :=
  match p with
  | None => mret (None, Some (elist_New "List_base::Poplast: p == nil"))
  | Some b =>
      B ← load_base b;
      if decide (b_first B = None) then mret (None, None)
      else if decide (b_last B = None)
      then mret (None, Some (elist_New "List_base::Poplast: p.first != p.last == nil"))
      else if decide (b_last B = b_first B)
      then
        let pnode := b_first B in
        store_base b (set_first None);;
        store_base b (set_last None);;
        unlink pnode;;
        mret (pnode, None)
      else
        q ← Poplast_scan fuel b (b_first B);
        match q with
        | None => mret (None, Some (elist_New "List_base::Poplast: q == nil"))
        | Some a =>
            B ← load_base b;
            let pnode := b_last B in
            store_node a (set_next None);;
            store_base b (set_last q);;
            unlink pnode;;
            mret (pnode, None)
        end
  end.

(** [for pnode := p.first; pnode != nil; pnode = pnode.next {
       if pnode == q { return true, nil } }] *)
Fixpoint Found_scan (fuel : nat) (pnode q : node_ptr) : M bool :=
  match pnode with
  | None => mret false
  | Some a =>
      match fuel with
      | O => out_of_fuel
      | S fuel' =>
          if decide (pnode = q) then mret true
          else nd ← load_node a; Found_scan fuel' (n_next nd) q
      end
  end.

Definition Found (fuel : nat) (p : base_ptr) (q : node_ptr) : M (bool * option error) :=
  match p with
  | None => mret (false, Some (elist_New "List_base::Found: p == nil"))
  | Some b =>
      match q with
      | None => mret (false, None)
      | Some n =>
          B ← load_base b;
          if decide (b_first B = None) then mret (false, None)
          else if decide (b_last B = None)
          then mret (false, Some (elist_New "List_base::Found: p.first != p.last == nil"))
          else
            nd ← load_node n;
            if decide (n_base nd ≠ p)
            then mret (false, Some (elist_New "List_base::Found: q.base != p"))
            else
              r ← Found_scan fuel (b_first B) q;
              mret (r, None)
      end
  end.

(** [for pnode = p.first; pnode != nil; pnode = pnode.next {
       if pnode.next == q { break } }] returns [pnode] after the loop. *)
Fixpoint Remove_scan (fuel : nat) (pnode q : node_ptr) : M node_ptr :=
  match pnode with
  | None => mret None
  | Some a =>
      match fuel with
      | O => out_of_fuel
      | S fuel' =>
          nd ← load_node a;
          if decide (n_next nd = q) then mret pnode
          else Remove_scan fuel' (n_next nd) q
      end
  end.

Definition Remove (fuel : nat) (p : base_ptr) (q : node_ptr) : M (node_ptr * option error) :=
  match p with
  | None => mret (None, Some (elist_New "List_base::Remove: p == nil"))
  | Some b =>
      match q with
      | None => mret (None, None)
      | Some n =>
          B ← load_base b;
          if decide (b_first B = None) then mret (None, None)
          else if decide (b_last B = None)
          then mret (None, Some (elist_New "List_base::Remove: p.first != p.last == nil"))
          else
            nd ← load_node n;
            if decide (n_base nd ≠ p)
            then mret (None, Some (elist_New "List_base::Remove: q.base != p"))
            else if decide (b_first B = q)
            then
              (if decide (b_last B = b_first B)
               then store_base b (set_last None)
               else mret tt);;
              nd ← load_node n;
              store_base b (set_first (n_next nd));;
              unlink q;;
              mret (q, None)
            else
              pnode ← Remove_scan fuel (b_first B) q;
              match pnode with
              | None => mret (None, Some (elist_New "List_base::Remove: pnode == nil"))
              | Some a =>
                  nd ← load_node n;
                  store_node a (set_next (n_next nd));;
                  B ← load_base b;
                  (if decide (b_last B = q)
                   then store_base b (set_last pnode)
                   else mret tt);;
                  unlink q;;
                  mret (q, None)
              end
      end
  end.

(** [for p.first != nil { ... }], the loop of [Clear]. *)
Fixpoint Clear_loop (fuel : nat) (b : nat) : M unit :=
  B ← load_base b;
  if decide (b_first B = None) then mret tt
  else
    match fuel with
    | O => out_of_fuel
    | S fuel' =>
        (if decide (b_last B = b_first B)
         then store_base b (set_last None)
         else mret tt);;
        B ← load_base b;
        let pnode := b_first B in
        nd ← deref_node pnode;
        store_base b (set_first (n_next nd));;
        unlink pnode;;
        Clear_loop fuel' b
    end.

Definition Clear (fuel : nat) (p : base_ptr) : M (option error) :=
  match p with
  | None => mret (Some (elist_New "List_base::Clear: p == nil"))
  | Some b =>
      B ← load_base b;
      if decide (b_first B = None) then mret None
      else if decide (b_last B = None)
      then mret (Some (elist_New "List_base::Clear: p.first != p.last == nil"))
      else Clear_loop fuel b;; mret None
  end.

(** ** List_iter *)

Definition Init (p : iter_ptr) (b : base_ptr) : M (option error) :=
  match p with
  | None => mret (Some (elist_New "List_base::Init: p == nil"))
  | Some i =>
      store_iter i (set_ibase b);;
      store_iter i (set_current None);;
      mret None
  end.

Definition Restart (p : iter_ptr) : M (option error) :=
  match p with
  | None => mret (Some (elist_New "List_base::Restart: p == nil"))
  | Some i => store_iter i (set_current None);; mret None
  end.

Definition ItemCount (fuel : nat) (p : iter_ptr) : M Z :=
  match p with
  | None => mret 0%Z
  | Some i =>
      it ← load_iter i;
      if decide (i_base it = None) then mret 0%Z
      else Length fuel (i_base it)
  end.

Definition ItemCountValid (fuel : nat) (p : iter_ptr) : M (Z * Z * Z) :=
  match p with
  | None => mret (0, 0, 0)%Z
  | Some i =>
      it ← load_iter i;
      if decide (i_base it = None) then mret (0, 0, 0)%Z
      else ValidLength fuel (i_base it)
  end.

Definition Next (p : iter_ptr) : M (node_ptr * option error) :=
  match p with
  | None => mret (None, Some (elist_New "List_base::Next: p == nil"))
  | Some i =>
      it ← load_iter i;
      match i_base it with
      | None => mret (None, Some (elist_New "List_base::Next: p.base == nil"))
      | Some b =>
          match i_current it with
          | None =>
              B ← load_base b;
              store_iter i (set_current (b_first B));;
              it ← load_iter i;
              match i_current it with
              | None => mret (None, None)
              | Some c =>
                  nd ← load_node c;
                  if decide (n_base nd = None)
                  then mret (None, Some (elist_New "List_base::Next: p.current.base == nil"))
                  else if decide (n_base nd ≠ i_base it)
                  then mret (None, Some (elist_New "List_base::Next: p.current.base != p.base"))
                  else mret (i_current it, None)
              end
          | Some c =>
              nd ← load_node c;
              if decide (n_base nd = None)
              then mret (None, Some (elist_New "List_base::Next: p.current.base == nil"))
              else if decide (n_base nd ≠ i_base it)
              then mret (None, Some (elist_New "List_base::Next: p.current.base != p.base"))
              else if decide (n_next nd = None)
              then mret (None, None)
              else
                store_iter i (set_current (n_next nd));;
                it ← load_iter i;
                mret (i_current it, None)
          end
      end
  end.

(** ** The container's public contract as data *)

Inductive call : Type :=
  | CEmpty (p : base_ptr)
  | CGetFirst (p : base_ptr)
  | CLength (p : base_ptr)
  | CValidLength (p : base_ptr)
  | CAppend (p : base_ptr) (pnode : node_ptr)
  | CAppendValue (p : base_ptr) (v : option V)
  | CPrepend (p : base_ptr) (pnode : node_ptr)
  | CPrependValue (p : base_ptr) (v : option V)
  | CPopfirst (p : base_ptr)
  | CPoplast (p : base_ptr)
  | CFound (p : base_ptr) (q : node_ptr)
  | CRemove (p : base_ptr) (q : node_ptr)
  | CClear (p : base_ptr).

(** What a call hands back, by the result type of the method. *)
Inductive retval : Type :=
  | RBool (r : bool)
  | RNode (n : node_ptr)
  | RInt (z : Z)
  | RInt3 (c : Z * Z * Z)
  | RErr (E : option error)
  | RNodeErr (r : node_ptr * option error)
  | RBoolErr (r : bool * option error).

Definition exec (fuel : nat) (c : call) : M retval :=
  match c with
  | CEmpty p => r ← Empty p; mret (RBool r)
  | CGetFirst p => r ← GetFirst p; mret (RNode r)
  | CLength p => r ← Length fuel p; mret (RInt r)
  | CValidLength p => r ← ValidLength fuel p; mret (RInt3 r)
  | CAppend p pnode => r ← Append p pnode; mret (RErr r)
  | CAppendValue p v => r ← AppendValue p v; mret (RErr r)
  | CPrepend p pnode => r ← Prepend p pnode; mret (RErr r)
  | CPrependValue p v => r ← PrependValue p v; mret (RErr r)
  | CPopfirst p => r ← Popfirst p; mret (RNodeErr r)
  | CPoplast p => r ← Poplast fuel p; mret (RNodeErr r)
  | CFound p q => r ← Found fuel p q; mret (RBoolErr r)
  | CRemove p q => r ← Remove fuel p q; mret (RNodeErr r)
  | CClear p => r ← Clear fuel p; mret (RErr r)
  end.

Definition receiver (c : call) : base_ptr :=
  match c with
  | CEmpty p | CGetFirst p | CLength p | CValidLength p | CAppend p _
  | CAppendValue p _ | CPrepend p _ | CPrependValue p _ | CPopfirst p
  | CPoplast p | CFound p _ | CRemove p _ | CClear p => p
  end.

(** The [error] result of a call; a method whose result type has no
    [error] cannot report one. *)
Definition failure (r : retval) : option error :=
  match r with
  | RErr E => E
  | RNodeErr r => r.2
  | RBoolErr r => r.2
  | RBool _ | RNode _ | RInt _ | RInt3 _ => None
  end.

(** ** Client loops *)

(** A full traversal: call [Next] until it hands back nil or an error,
    collecting the nodes delivered. *)
Fixpoint traverse (fuel : nat) (p : iter_ptr) : M (list node_ptr * option error) :=
  match fuel with
  | O => out_of_fuel
  | S fuel' =>
      r ← Next p;
      match r.2 with
      | Some e => mret ([], Some e)
      | None =>
          match r.1 with
          | None => mret ([], None)
          | Some _ =>
              rest ← traverse fuel' p;
              mret (r.1 :: rest.1, rest.2)
          end
      end
  end.

(** The payloads of a sequence of nodes, read with [GetValue]. *)
Fixpoint payloads (l : list node_ptr) : M (list (option V)) :=
  match l with
  | [] => mret []
  | q :: l' =>
      r ← GetValue q;
      vs ← payloads l';
      mret (r.1 :: vs)
  end.

(** [k] calls of [Next] in a row, with all their results. *)
Fixpoint Next_times (k : nat) (p : iter_ptr) : M (list (node_ptr * option error)) :=
  match k with
  | O => mret []
  | S k' =>
      r ← Next p;
      rs ← Next_times k' p;
      mret (r :: rs)
  end.

End Model.

Global Arguments List_node : clear implicits.
Global Arguments heap : clear implicits.
Global Arguments outcome : clear implicits.
Global Arguments M : clear implicits.
Global Arguments call : clear implicits.

(** ** Scenarios of the specification *)

(** Container C; append values "a", "b"; then [Found] and [Remove] of a
    freshly constructed node that was never inserted; the results of the
    two calls and the heaps before and after them. *)
Definition scenario_free_node (fuel : nat)
  : M string ((bool * option error) * (node_ptr * option error) * heap string * heap string) :=
  C ← new_base;
  AppendValue C (Some "a");;
  AppendValue C (Some "b");;
  q ← new_node;
  before ← snapshot;
  r1 ← Found fuel C q;
  r2 ← Remove fuel C q;
  after ← snapshot;
  mret (r1, r2, before, after).

(** Append 1, 2, 3 to a fresh container, traverse it with a bound
    iterator, restart, traverse again; the payloads of both passes. A
    traversal of three nodes is four calls of [Next]. *)
Definition scenario_round_trip (fuel : nat)
  : M Z ((list (option Z) * option error) * (list (option Z) * option error)) :=
  C ← new_base;
  AppendValue C (Some 1%Z);;
  AppendValue C (Some 2%Z);;
  AppendValue C (Some 3%Z);;
  it ← new_iter;
  Init it C;;
  t1 ← traverse (4 + fuel) it;
  v1 ← payloads t1.1;
  Restart it;;
  t2 ← traverse (4 + fuel) it;
  v2 ← payloads t2.1;
  mret ((v1, t1.2), (v2, t2.2)).

Close Scope string_scope.

(** ** Shape of the heap *)

Section Shape.
Context {V : Type}.
Implicit Types (h : heap V) (ns : list (List_node V)).

(** [lseg ns x l y]: following [next] from [x] visits exactly the nodes
    [l], in this order, and ends with the pointer [y]. *)
Fixpoint lseg ns (x : node_ptr) (l : list nat) (y : node_ptr) : Prop :=
  match l with
  | [] => x = y
  | n :: l' => x = Some n ∧ ∃ nd, ns !! n = Some nd ∧ lseg ns (n_next nd) l' y
  end.

(** A chain ends with nil. *)
Definition chain ns (x : node_ptr) (l : list nat) : Prop := lseg ns x l None.

(** [n] is reachable by following [next] from [x]. *)
Inductive reaches ns : node_ptr → nat → Prop :=
  | reaches_here n : reaches ns (Some n) n
  | reaches_next m nd n :
      ns !! m = Some nd → reaches ns (n_next nd) n → reaches ns (Some m) n.

(** The base-pointer of the node at address [n]. *)
Definition owner h (n : nat) : base_ptr := nodes h !! n ≫= n_base.

(** The container at [b] is well formed and holds the nodes [l]: [first]
    and [last] are both nil or neither, the chain from [first] ends in
    [last], and every node of the chain points back to [b]. *)
Definition wf_base h (b : nat) (l : list nat) : Prop :=
  ∃ B, bases h !! b = Some B ∧ chain (nodes h) (b_first B) l ∧
       b_last B = last l ∧ ∀ n, n ∈ l → owner h n = Some b.

(** All containers are well formed, a node that names an owner is in that
    owner's chain, and no base-pointer dangles. *)
Definition consistent h : Prop :=
  (∀ b, b < length (bases h) →
        ∃ l, wf_base h b l ∧ ∀ n, owner h n = Some b → n ∈ l) ∧
  (∀ n b, owner h n = Some b → b < length (bases h)).

(** A pointer a caller can hold: nil, or the address of an object. *)
Definition valid_ptr {A} (arena : list A) (p : option nat) : Prop :=
  match p with
  | None => True
  | Some a => a < length arena
  end.

Definition node_arg (c : call V) : node_ptr :=
  match c with
  | CAppend _ q | CPrepend _ q | CFound _ q | CRemove _ q => q
  | _ => None
  end.

Definition valid_call h (c : call V) : Prop :=
  valid_ptr (bases h) (receiver c) ∧ valid_ptr (nodes h) (node_arg c).

(** One step of a client of the package: it creates objects and calls
    exported methods; the fields are not exported. *)
Inductive step : heap V → heap V → Prop :=
  | step_new_base h p h' :
      new_base h = Return p h' → step h h'
  | step_new_node h p h' :
      new_node h = Return p h' → step h h'
  | step_new_iter h p h' :
      new_iter h = Return p h' → step h h'
  | step_SetValue h q v E h' :
      valid_ptr (nodes h) q → SetValue q v h = Return E h' → step h h'
  | step_call h fuel c r h' :
      valid_call h c → exec fuel c h = Return r h' → step h h'
  | step_Init h p b E h' :
      valid_ptr (iters h) p → valid_ptr (bases h) b →
      Init p b h = Return E h' → step h h'
  | step_Restart h p E h' :
      valid_ptr (iters h) p → Restart p h = Return E h' → step h h'
  | step_Next h p r h' :
      valid_ptr (iters h) p → Next p h = Return r h' → step h h'.

Definition reachable h : Prop := rtc step empty_heap h.

End Shape.

(** ** Heaps after a call *)

Section Effects.
Context {V : Type}.
Implicit Types (h : heap V) (l : list nat).

(** The heap after the head [a] of container [b] was popped: the body
    shared by [Popfirst] and by the loop of [Clear]. *)
Definition popped (b : nat) (B : List_base) (a : nat) (nd : List_node V) h : heap V :=
  upd_node a (set_base None) (upd_node a (set_next None)
    (upd_base b (set_first (n_next nd))
       (if decide (b_last B = b_first B) then upd_base b (set_last None) h else h))).

(** [h'] is [h] after every node of [l] was unlinked and container [b]
    was reset to empty. *)
Definition cleared h (b : nat) l (h' : heap V) : Prop :=
  bases h' !! b = Some (mk_base None None) ∧
  (∀ b', b' ≠ b → bases h' !! b' = bases h !! b') ∧
  length (bases h') = length (bases h) ∧
  (∀ m, m ∈ l → nodes h' !! m = set_base None <$> (set_next None <$> nodes h !! m)) ∧
  (∀ m, m ∉ l → nodes h' !! m = nodes h !! m) ∧
  iters h' = iters h.

(** The heap after [Append] linked the free node [n] behind the tail
    [t] of container [b], or made it the only node. *)
Definition appended (b : nat) (t : node_ptr) (n : nat) h : heap V :=
  upd_base b (set_last (Some n))
    (match t with
     | Some t => upd_node t (set_next (Some n))
     | None => upd_base b (set_first (Some n))
     end (upd_node n (set_next None) (upd_node n (set_base (Some b)) h))).

(** The heap after [Prepend] linked the free node [n] before the head of
    container [b]. *)
Definition prepended (b : nat) (B : List_base) (n : nat) h : heap V :=
  (if decide (b_last B = None) then upd_base b (set_last (Some n)) else id)
    (upd_base b (set_first (Some n))
       (upd_node n (set_next (b_first B)) (upd_node n (set_base (Some b)) h))).

(** The heap after [new(List_node)] and [SetValue]: one more node,
    free and carrying [v]. *)
Definition with_fresh_node (v : option V) h : heap V :=
  upd_node (length (nodes h)) (set_value v)
    (mk_heap (nodes h ++ [mk_node None None None]) (bases h) (iters h)).

(** The heap after [Poplast] took the tail [t] from behind [q]. *)
Definition poplasted (b q t : nat) h : heap V :=
  upd_node t (set_base None) (upd_node t (set_next None)
    (upd_base b (set_last (Some q)) (upd_node q (set_next None) h))).

(** The heap after [Poplast] took the only node [a]. *)
Definition popped_only (b a : nat) h : heap V :=
  upd_node a (set_base None) (upd_node a (set_next None)
    (upd_base b (set_last None) (upd_base b (set_first None) h))).

(** The heap after [Remove] spliced [n] out from behind [pr]. *)
Definition removed (b : nat) (B : List_base) (pr n : nat) (nd : List_node V) h : heap V :=
  upd_node n (set_base None) (upd_node n (set_next None)
    ((if decide (b_last B = Some n) then upd_base b (set_last (Some pr)) else id)
       (upd_node pr (set_next (n_next nd)) h))).

(** Iterator [i] is bound to container [b] and has cursor [cur]. *)
Definition iter_at h (i b : nat) (cur : node_ptr) : Prop :=
  ∃ it, iters h !! i = Some it ∧ i_base it = Some b ∧ i_current it = cur.

(** [h'] differs from [h] in the cursor of iterator [i] at most. *)
Definition cursor_moved h (i b : nat) (h' : heap V) : Prop :=
  nodes h' = nodes h ∧ bases h' = bases h ∧ ∃ cur, iter_at h' i b cur.

(** The call fails with NilReceiver and leaves the heap as it was. *)
Definition nil_receiver_failure (c : call V) (fuel : nat) (h : heap V) : Prop :=
  ∃ r, exec fuel c h = Return r h ∧ fails_with NilReceiver (failure r).

(** [h'] is [h] except for container [b] and the [next] and [base]
    fields of the nodes [touched]: payloads, other nodes, other
    containers and the iterators are what they were. *)
Definition only_changes h (b : nat) (touched : list nat) (h' : heap V) : Prop :=
  (∀ m, m ∉ touched → nodes h' !! m = nodes h !! m) ∧
  (∀ m, n_value <$> nodes h' !! m = n_value <$> nodes h !! m) ∧
  (∀ b', b' ≠ b → bases h' !! b' = bases h !! b') ∧
  iters h' = iters h.

(** The node at [n] is in no list: it has no successor and no owner. *)
Definition detached h (n : nat) : Prop :=
  ∃ nd, nodes h !! n = Some nd ∧ n_next nd = None ∧ n_base nd = None.

(** Every other well-formed container holds what it held. *)
Definition others_kept h (b : nat) (h' : heap V) : Prop :=
  ∀ b' l', b' ≠ b → wf_base h b' l' → wf_base h' b' l'.

(** The nodes of [l] that name no owner, and those that name another
    owner than [b]. *)
Definition count_nil h l : nat :=
  length (filter (λ m, owner h m = None) l).
Definition count_wrong h (b : nat) l : nat :=
  length (filter (λ m, owner h m ≠ None ∧ owner h m ≠ Some b) l).

(** The calls that only ask. *)
Definition query (c : call V) : bool :=
  match c with
  | CEmpty _ | CGetFirst _ | CLength _ | CValidLength _ | CFound _ _ => true
  | _ => false
  end.

End Effects.

(** ** Concrete heaps *)

(** A container whose [first] is nil while [last] is not. *)
Definition last_only_heap : heap Z :=
  mk_heap [mk_node None (Some 0) (Some 7%Z)] [mk_base None (Some 0)] [].

(** Container 0 holds node 0; container 1 is empty. *)
Definition two_lists_heap : heap Z :=
  mk_heap [mk_node None (Some 0) (Some 7%Z)]
          [mk_base (Some 0) (Some 0); mk_base None None] [].

(** Container 0 has a head node that names no owner; iterator 0 is bound
    to container 0 and has not started. *)
Definition corrupt_head_heap : heap Z :=
  mk_heap [mk_node None None (Some 7%Z)] [mk_base (Some 0) (Some 0)]
          [mk_iter (Some 0) None].

(** Iterator 0 stands on node 1, the last node of container 0. *)
Definition at_end_heap : heap Z :=
  mk_heap [mk_node (Some 1) (Some 0) (Some 1%Z); mk_node None (Some 0) (Some 2%Z)]
          [mk_base (Some 0) (Some 1)] [mk_iter (Some 0) (Some 1)].

(** Container 0 holds nodes 0 and 1, container 1 holds node 3,
    container 2 is empty and node 2 is free. Iterator 0 is bound to
    container 0 and unstarted, iterator 1 is unbound, iterator 2 is bound
    to container 0 and stands on node 0. *)
Definition sample_heap : heap Z :=
  mk_heap [mk_node (Some 1) (Some 0) (Some 10%Z); mk_node None (Some 0) (Some 11%Z);
           mk_node None None (Some 12%Z); mk_node None (Some 1) (Some 13%Z)]
          [mk_base (Some 0) (Some 1); mk_base (Some 3) (Some 3); mk_base None None]
          [mk_iter (Some 0) None; mk_iter None None; mk_iter (Some 0) (Some 0)].

(** A corrupted container: its chain 0, 1, 2 has a node without owner,
    a node of container 1 and one node of its own. *)
Definition mixed_owner_heap : heap Z :=
  mk_heap [mk_node (Some 1) None None; mk_node (Some 2) (Some 1) None;
           mk_node None (Some 0) None]
          [mk_base (Some 0) (Some 2); mk_base None None] [].

(** A container whose [first] is set while [last] is nil. *)
Definition first_only_heap : heap Z :=
  mk_heap [mk_node None (Some 0) (Some 7%Z)] [mk_base (Some 0) None] [].

(** * Properties *)

(** ** Running the monad *)

Section Run.
Context {V : Type}.
Implicit Types (h : heap V).

Lemma bind_Return {A B} (m : M V A) (k : A → M V B) h a h1 :
  m h = Return a h1 → (m ≫= k) h = k a h1.
Proof. intros Hm. unfold mbind, M_bind. by rewrite Hm. Qed.

Lemma load_node_Return h n nd :
  nodes h !! n = Some nd → load_node n h = Return nd h.
Proof. intros Hn. unfold load_node. by rewrite Hn. Qed.

Lemma load_base_Return h b B :
  bases h !! b = Some B → load_base b h = Return B h.
Proof. intros Hb. unfold load_base. by rewrite Hb. Qed.

Lemma load_iter_Return h i it :
  iters h !! i = Some it → load_iter i h = Return it h.
Proof. intros Hi. unfold load_iter. by rewrite Hi. Qed.

Lemma store_node_Return h n f nd :
  nodes h !! n = Some nd → store_node n f h = Return tt (upd_node n f h).
Proof. intros Hn. unfold store_node. by rewrite Hn. Qed.

Lemma store_base_Return h b f B :
  bases h !! b = Some B → store_base b f h = Return tt (upd_base b f h).
Proof. intros Hb. unfold store_base. by rewrite Hb. Qed.

Lemma store_iter_Return h i f it :
  iters h !! i = Some it → store_iter i f h = Return tt (upd_iter i f h).
Proof. intros Hi. unfold store_iter. by rewrite Hi. Qed.

End Run.

(** ** Popfirst on a container without a head *)

Section Popfirst_nil.
Context {V : Type}.

(** Whatever [last] is, a nil [first] makes [Popfirst] hand back
    (nil, nil) and leave the heap alone. *)
Lemma Popfirst_first_nil (h : heap V) b B :
  bases h !! b = Some B → b_first B = None →
  Popfirst (Some b) h = Return (None, None) h.
Proof.
  intros Hb Hf. unfold Popfirst.
  rewrite (bind_Return _ _ _ _ _ (load_base_Return _ _ _ Hb)).
  by rewrite decide_True.
Qed.

(** A non-nil [first] with a nil [last] is what [Popfirst] reports. *)
Lemma Popfirst_last_nil (h : heap V) b B :
  bases h !! b = Some B → b_first B ≠ None → b_last B = None →
  ∃ e, Popfirst (Some b) h = Return (None, Some e) h ∧
       kind_of e = Some CorruptState.
Proof.
  intros Hb Hf Hl. unfold Popfirst.
  rewrite (bind_Return _ _ _ _ _ (load_base_Return _ _ _ Hb)).
  rewrite decide_False, decide_True by done. eauto.
Qed.

End Popfirst_nil.

(** C1: in the container state of [last_only_heap], where [first] is nil
    and [last] is not, [Popfirst] does not fail with CorruptState: it
    hands back (nil, nil), the answer for an empty container, with no
    error, and leaves the heap as it was. *)
Theorem Popfirst_first_nil_last_set :
  ∃ B, bases last_only_heap !! 0 = Some B ∧
       b_first B = None ∧ b_last B ≠ None ∧
       Popfirst (Some 0) last_only_heap = Return (None, None) last_only_heap ∧
       ¬ fails_with CorruptState (None : node_ptr, None : option error).2.
Proof.
  exists (mk_base None (Some 0)). repeat split; try done.
  intros (e & He & _). discriminate He.
Qed.

(** ** Calls on a nil container *)

(** C2, as stated, fails: [Empty] on a nil container hands back [true],
    and its result type has no [error] to fail with. *)
Lemma Empty_nil_no_error :
  exec 0 (CEmpty None) (empty_heap : heap Z) = Return (RBool true) empty_heap ∧
  receiver (CEmpty None : call Z) = None ∧
  ¬ fails_with NilReceiver (failure (RBool true)).
Proof.
  repeat split. intros (e & He & _). discriminate He.
Qed.

(** C2 (amended): on a nil container, the nine methods with an [error]
    result ([Append], [AppendValue], [Prepend], [PrependValue],
    [Popfirst], [Poplast], [Found], [Remove], [Clear]) fail with
    NilReceiver and change nothing; [Empty] hands back [true], [GetFirst]
    nil, [Length] 0 and [ValidLength] (0, 0, 0), none of them an error. *)
Theorem nil_receiver_results {V} (fuel : nat) (h : heap V)
    (pnode q : node_ptr) (v : option V) :
  nil_receiver_failure (CAppend None pnode) fuel h ∧
  nil_receiver_failure (CAppendValue None v) fuel h ∧
  nil_receiver_failure (CPrepend None pnode) fuel h ∧
  nil_receiver_failure (CPrependValue None v) fuel h ∧
  nil_receiver_failure (CPopfirst None) fuel h ∧
  nil_receiver_failure (CPoplast None) fuel h ∧
  nil_receiver_failure (CFound None q) fuel h ∧
  nil_receiver_failure (CRemove None q) fuel h ∧
  nil_receiver_failure (CClear None) fuel h ∧
  exec fuel (CEmpty None) h = Return (RBool true) h ∧
  exec fuel (CGetFirst None) h = Return (RNode None) h ∧
  exec fuel (CLength None) h = Return (RInt 0) h ∧
  exec fuel (CValidLength None) h = Return (RInt3 (0, 0, 0)%Z) h.
Proof.
  unfold nil_receiver_failure, fails_with.
  repeat split; try reflexivity;
    (eexists; split; [reflexivity | eexists; split; reflexivity]).
Qed.

(** ** Inserting a node that has an owner *)

(** C4: [Append] of a node whose base-pointer is set, to this container
    or to another, fails with AlreadyOwned and leaves the whole heap, so
    the target and the owner, as it was. *)
Theorem Append_owned_rejected {V} (h : heap V) (b n o : nat) :
  owner h n = Some o →
  ∃ e, Append (Some b) (Some n) h = Return (Some e) h ∧
       kind_of e = Some AlreadyOwned.
Proof.
  unfold owner. intros Ho.
  destruct (nodes h !! n) as [nd|] eqn:Hn; [simpl in Ho | done].
  unfold Append.
  rewrite (bind_Return _ _ _ _ _ (load_node_Return _ _ _ Hn)).
  rewrite decide_True by congruence. eauto.
Qed.

Lemma Append_owned_rejected_witness :
  owner two_lists_heap 0 = Some 0 ∧
  (∃ e, Append (Some 1) (Some 0) two_lists_heap = Return (Some e) two_lists_heap ∧
        kind_of e = Some AlreadyOwned) ∧
  (∃ e, Append (Some 0) (Some 0) two_lists_heap = Return (Some e) two_lists_heap ∧
        kind_of e = Some AlreadyOwned).
Proof.
  split; [reflexivity | split].
  - apply (Append_owned_rejected two_lists_heap 1 0 0). reflexivity.
  - apply (Append_owned_rejected two_lists_heap 0 0 0). reflexivity.
Defined.

(** ** Inserting nil *)

(** C9: [Append] and [Prepend] of a nil node hand back no error and leave
    the heap, so [first], [last] and the chain of the container, as it
    was. *)
Theorem insert_nil_is_noop {V} (h : heap V) (b : nat) :
  Append (Some b) None h = Return None h ∧
  Prepend (Some b) None h = Return None h.
Proof. split; reflexivity. Qed.

(** ** The iterator *)

Section Iterator.
Context {V : Type}.
Implicit Types (h : heap V).

Lemma upd_iter_lookup h i f it :
  iters h !! i = Some it → iters (upd_iter i f h) !! i = Some (f it).
Proof. intros Hi. simpl. by rewrite list_lookup_alter_eq, Hi. Qed.

(** An unstarted iterator whose container has a head that does not point
    back to the container: [Next] fails with CorruptState, and the cursor
    stays on the head it was moved to before the check. *)
Lemma Next_unstarted_bad_head h i it b B c nd :
  iters h !! i = Some it → i_base it = Some b → i_current it = None →
  bases h !! b = Some B → b_first B = Some c →
  nodes h !! c = Some nd → n_base nd ≠ Some b →
  ∃ e, Next (Some i) h = Return (None, Some e) (upd_iter i (set_current (Some c)) h) ∧
       kind_of e = Some CorruptState.
Proof.
  intros Hi Hib Hic Hb Hf Hc Ho. unfold Next.
  rewrite (bind_Return _ _ _ _ _ (load_iter_Return _ _ _ Hi)).
  rewrite Hib, Hic.
  rewrite (bind_Return _ _ _ _ _ (load_base_Return _ _ _ Hb)).
  rewrite (bind_Return _ _ _ _ _ (store_iter_Return _ _ _ _ Hi)).
  rewrite (bind_Return _ _ _ _ _
             (load_iter_Return _ _ _ (upd_iter_lookup _ _ _ _ Hi))).
  rewrite Hf. simpl.
  rewrite (bind_Return _ _ _ _ _ (load_node_Return (upd_iter _ _ h) _ _ Hc)).
  destruct (decide (n_base nd = None)); [eauto |].
  rewrite Hib, decide_True by done. eauto.
Qed.

(** An iterator that stands on a node whose base-pointer is not its
    container: [Next] fails with CorruptState and changes nothing. *)
Lemma Next_positioned_bad_owner h i it b c nd :
  iters h !! i = Some it → i_base it = Some b → i_current it = Some c →
  nodes h !! c = Some nd → n_base nd ≠ Some b →
  ∃ e, Next (Some i) h = Return (None, Some e) h ∧
       kind_of e = Some CorruptState.
Proof.
  intros Hi Hib Hic Hc Ho. unfold Next.
  rewrite (bind_Return _ _ _ _ _ (load_iter_Return _ _ _ Hi)).
  rewrite Hib, Hic.
  rewrite (bind_Return _ _ _ _ _ (load_node_Return _ _ _ Hc)).
  destruct (decide (n_base nd = None)); [eauto |].
  rewrite decide_True by done. eauto.
Qed.

(** An iterator on the last node of its container: [Next] hands back
    (nil, nil) and changes nothing. *)
Lemma Next_at_end h i it b c nd :
  iters h !! i = Some it → i_base it = Some b → i_current it = Some c →
  nodes h !! c = Some nd → n_base nd = Some b → n_next nd = None →
  Next (Some i) h = Return (None, None) h.
Proof.
  intros Hi Hib Hic Hc Ho Hn. unfold Next.
  rewrite (bind_Return _ _ _ _ _ (load_iter_Return _ _ _ Hi)).
  rewrite Hib, Hic.
  rewrite (bind_Return _ _ _ _ _ (load_node_Return _ _ _ Hc)).
  rewrite decide_False, decide_False, decide_True by congruence.
  done.
Qed.

End Iterator.

(** C8, as stated, fails: on [corrupt_head_heap] the unstarted iterator
    fails, but its cursor, nil before the call, is on node 0 after it. *)
Lemma corrupt_head_moves_cursor :
  ∃ e h',
    Next (Some 0) corrupt_head_heap = Return (None, Some e) h' ∧
    kind_of e = Some CorruptState ∧
    i_current <$> iters corrupt_head_heap !! 0 = Some None ∧
    i_current <$> iters h' !! 0 = Some (Some 0).
Proof. do 2 eexists. repeat split. Qed.

(** C8 (amended): when [Next] is called on a bound, unstarted iterator
    and the head node of the container has a nil base-pointer or one
    that is not the bound container, the call fails with CorruptState
    and the cursor is left on the head node: the iterator is positioned,
    not unstarted; nothing else changes. *)
Theorem Next_unstarted_corrupt_head {V} (h : heap V) i it b B c nd :
  iters h !! i = Some it → i_base it = Some b → i_current it = None →
  bases h !! b = Some B → b_first B = Some c →
  nodes h !! c = Some nd → n_base nd ≠ Some b →
  ∃ e h',
    Next (Some i) h = Return (None, Some e) h' ∧
    kind_of e = Some CorruptState ∧
    iters h' !! i = Some (set_current (Some c) it) ∧
    (∀ j, j ≠ i → iters h' !! j = iters h !! j) ∧
    nodes h' = nodes h ∧ bases h' = bases h.
Proof.
  intros Hi Hib Hic Hb Hf Hc Ho.
  destruct (Next_unstarted_bad_head h i it b B c nd) as (e & HN & Hk); try done.
  exists e, (upd_iter i (set_current (Some c)) h). repeat split; try done.
  - by apply upd_iter_lookup.
  - intros j Hj. simpl. by rewrite list_lookup_alter_ne.
Qed.

Lemma Next_unstarted_corrupt_head_witness :
  iters corrupt_head_heap !! 0 = Some (mk_iter (Some 0) None) ∧
  bases corrupt_head_heap !! 0 = Some (mk_base (Some 0) (Some 0)) ∧
  nodes corrupt_head_heap !! 0 = Some (mk_node None None (Some 7%Z)) ∧
  ∃ e h',
    Next (Some 0) corrupt_head_heap = Return (None, Some e) h' ∧
    kind_of e = Some CorruptState ∧
    iters h' !! 0 = Some (set_current (Some 0) (mk_iter (Some 0) None)) ∧
    (∀ j, j ≠ 0 → iters h' !! j = iters corrupt_head_heap !! j) ∧
    nodes h' = nodes corrupt_head_heap ∧ bases h' = bases corrupt_head_heap.
Proof.
  repeat (split; [reflexivity |]).
  apply (Next_unstarted_corrupt_head corrupt_head_heap 0 (mk_iter (Some 0) None)
           0 (mk_base (Some 0) (Some 0)) 0 (mk_node None None (Some 7%Z)));
    try reflexivity.
  simpl. discriminate.
Defined.

(** C10: once the iterator stands on a node that points back to the bound
    container and has no successor, every further [Next], however many,
    hands back (nil, nil) and leaves the cursor, and the whole heap, as
    it was. *)
Theorem Next_end_is_stable {V} (h : heap V) i it b c nd (k : nat) :
  iters h !! i = Some it → i_base it = Some b → i_current it = Some c →
  nodes h !! c = Some nd → n_base nd = Some b → n_next nd = None →
  Next_times k (Some i) h = Return (replicate k (None, None)) h.
Proof.
  intros Hi Hib Hic Hc Ho Hn. induction k as [|k IH]; [done |].
  simpl.
  rewrite (bind_Return _ _ _ _ _ (Next_at_end h i it b c nd Hi Hib Hic Hc Ho Hn)).
  by rewrite (bind_Return _ _ _ _ _ IH).
Qed.

Lemma Next_end_is_stable_witness :
  iters at_end_heap !! 0 = Some (mk_iter (Some 0) (Some 1)) ∧
  nodes at_end_heap !! 1 = Some (mk_node None (Some 0) (Some 2%Z)) ∧
  Next_times 5 (Some 0) at_end_heap = Return (replicate 5 (None, None)) at_end_heap.
Proof.
  repeat (split; [reflexivity |]).
  apply (Next_end_is_stable at_end_heap 0 (mk_iter (Some 0) (Some 1)) 0 1
           (mk_node None (Some 0) (Some 2%Z)) 5); reflexivity.
Defined.

(** ** Chains *)

Section Chains.
Context {V : Type}.
Implicit Types (h : heap V) (ns : list (List_node V)) (l : list nat).

(** A segment only depends on the [next] fields of its own nodes. *)
Lemma lseg_ext ns ns' l x y :
  (∀ n, n ∈ l → n_next <$> ns' !! n = n_next <$> ns !! n) →
  lseg ns x l y → lseg ns' x l y.
Proof.
  revert x. induction l as [|n l IH]; intros x Hsame; [done |].
  simpl. intros (-> & nd & Hn & Hl). split; [done |].
  pose proof (Hsame n (list_elem_of_here _ _)) as Hnn. rewrite Hn in Hnn.
  destruct (ns' !! n) as [nd'|]; [|done]. simpl in Hnn.
  exists nd'. split; [done |].
  assert (n_next nd' = n_next nd) as -> by congruence.
  apply IH; [|done]. intros m Hm. apply Hsame. by apply list_elem_of_further.
Qed.

Lemma lseg_app ns l1 l2 x z :
  lseg ns x (l1 ++ l2) z ↔ ∃ y, lseg ns x l1 y ∧ lseg ns y l2 z.
Proof.
  revert x. induction l1 as [|n l1 IH]; intros x; simpl.
  - split; [eauto | by intros (y & -> & ?)].
  - split.
    + intros (-> & nd & Hn & Hl). apply IH in Hl as (y & ? & ?). eauto 10.
    + intros (y & (-> & nd & Hn & Hl) & ?). split; [done |].
      exists nd. split; [done |]. apply IH. eauto.
Qed.

Lemma lseg_snoc ns l t x z :
  lseg ns x (l ++ [t]) z ↔
  lseg ns x l (Some t) ∧ ∃ nd, ns !! t = Some nd ∧ n_next nd = z.
Proof.
  rewrite lseg_app. simpl. split.
  - intros (y & ? & -> & nd & ? & ?). eauto.
  - intros (? & nd & ? & ?). eauto 10.
Qed.

(** Where a chain starts decides all of it. *)
Lemma chain_det ns x l1 l2 : chain ns x l1 → chain ns x l2 → l1 = l2.
Proof.
  unfold chain. revert x l2. induction l1 as [|n l1 IH]; intros x [|m l2]; simpl.
  - done.
  - intros -> (? & _). done.
  - intros (-> & _) ?. done.
  - intros (-> & nd & Hn & H1) (Hm & nd' & Hn' & H2).
    injection Hm as <-. rewrite Hn in Hn'. injection Hn' as <-.
    f_equal. eauto.
Qed.

(** A chain visits no node twice: it would never end. *)
Lemma chain_NoDup ns x l : chain ns x l → NoDup l.
Proof.
  revert x. induction l as [|n l IH]; intros x; [constructor |].
  intros Hc. pose proof Hc as (-> & nd & Hn & Hl). constructor; [|by eapply IH].
  intros Hin. apply list_elem_of_split in Hin as (l1 & l2 & ->).
  pose proof Hl as Hl'. apply lseg_app in Hl' as (y & _ & Hy).
  pose proof Hy as (-> & _).
  pose proof (chain_det _ _ _ _ Hc Hy) as Heq.
  apply (f_equal length) in Heq. simpl in Heq. rewrite length_app in Heq.
  simpl in Heq. lia.
Qed.

Lemma chain_nil ns x : chain ns x [] ↔ x = None.
Proof. done. Qed.

Lemma chain_None ns l : chain ns None l → l = [].
Proof. destruct l; [done | by intros (? & _)]. Qed.

(** What can be reached from the start of a chain is on the chain. *)
Lemma reaches_chain ns x l n : chain ns x l → reaches ns x n → n ∈ l.
Proof.
  intros Hc Hr. revert l Hc. induction Hr as [n|m nd n Hm Hr IH]; intros l Hc.
  - destruct l as [|a l]; [done |]. destruct Hc as (Ha & _).
    injection Ha as <-. apply list_elem_of_here.
  - destruct l as [|a l]; [done |]. destruct Hc as (Ha & nd' & Ha' & Hl).
    injection Ha as <-. rewrite Hm in Ha'. injection Ha' as <-.
    apply list_elem_of_further. by apply IH.
Qed.

(** The head of a chain with more than one node is not its last node. *)
Lemma chain_last_ne_head ns a l :
  chain ns (Some a) (a :: l) → l ≠ [] → last (a :: l) ≠ Some a.
Proof.
  intros Hc Hne Hlast. apply chain_NoDup in Hc.
  apply NoDup_cons in Hc as (Hnotin & _). apply Hnotin.
  destruct l as [|m l]; [done |]. rewrite last_cons_cons in Hlast.
  apply last_Some in Hlast as (l' & ->). set_solver.
Qed.

End Chains.

(** ** Popping the head *)

Section Pop.
Context {V : Type}.
Implicit Types (h : heap V) (ns : list (List_node V)) (l : list nat).

Lemma popped_base h b B a nd :
  bases h !! b = Some B →
  bases (popped b B a nd h) !! b =
    Some (mk_base (n_next nd) (if decide (b_last B = b_first B) then None else b_last B)).
Proof.
  intros Hb. unfold popped. simpl. destruct (decide (b_last B = b_first B)); simpl.
  - by rewrite !list_lookup_alter_eq, Hb.
  - by rewrite !list_lookup_alter_eq, Hb.
Qed.

Lemma popped_base_ne h b B a nd b' :
  b' ≠ b → bases (popped b B a nd h) !! b' = bases h !! b'.
Proof.
  intros Hne. unfold popped. simpl. destruct (decide (b_last B = b_first B)); simpl.
  - by rewrite !list_lookup_alter_ne.
  - by rewrite !list_lookup_alter_ne.
Qed.

Lemma popped_bases_length h b B a nd :
  length (bases (popped b B a nd h)) = length (bases h).
Proof.
  unfold popped. simpl. destruct (decide (b_last B = b_first B)); simpl.
  - by rewrite !length_alter.
  - by rewrite !length_alter.
Qed.

Lemma popped_nodes h b B a nd :
  nodes (popped b B a nd h) =
  alter (set_base None) a (alter (set_next None) a (nodes h)).
Proof. unfold popped. simpl. by destruct (decide (b_last B = b_first B)). Qed.

Lemma popped_node h b B a nd :
  nodes h !! a = Some nd →
  nodes (popped b B a nd h) !! a = Some (mk_node None None (n_value nd)).
Proof. intros Ha. by rewrite popped_nodes, !list_lookup_alter_eq, Ha. Qed.

Lemma popped_node_ne h b B a nd m :
  m ≠ a → nodes (popped b B a nd h) !! m = nodes h !! m.
Proof. intros Hne. by rewrite popped_nodes, !list_lookup_alter_ne. Qed.

Lemma popped_iters h b B a nd : iters (popped b B a nd h) = iters h.
Proof. unfold popped. simpl. by destruct (decide (b_last B = b_first B)). Qed.

Lemma unlink_Return h a nd :
  nodes h !! a = Some nd →
  unlink (Some a) h =
  Return None (upd_node a (set_base None) (upd_node a (set_next None) h)).
Proof.
  intros Ha. unfold unlink.
  rewrite (bind_Return _ _ _ _ _ (store_node_Return _ _ _ _ Ha)).
  assert (nodes (upd_node a (set_next None) h) !! a = Some (set_next None nd)) as Ha'.
  { simpl. by rewrite list_lookup_alter_eq, Ha. }
  by rewrite (bind_Return _ _ _ _ _ (store_node_Return _ _ _ _ Ha')).
Qed.

(** [if p.last == p.first { p.last = nil }; pnode := p.first;
     p.first = pnode.next; pnode.unlink()] *)
Lemma pop_body_run {A} h b B a nd (k : node_ptr → M V A) :
  bases h !! b = Some B → b_first B = Some a → nodes h !! a = Some nd →
  ((if decide (b_last B = b_first B)
    then store_base b (set_last None) else mret tt);;
   B' ← load_base b;
   nd' ← deref_node (b_first B');
   store_base b (set_first (n_next nd'));;
   unlink (b_first B');;
   k (b_first B')) h = k (Some a) (popped b B a nd h).
Proof.
  intros Hb Hf Ha. unfold popped.
  set (h1 := if decide (b_last B = b_first B)
             then upd_base b (set_last None) h else h).
  assert (((if decide (b_last B = b_first B)
            then store_base b (set_last None) else mret tt) : M V unit) h
          = Return tt h1) as H1.
  { subst h1. destruct (decide (b_last B = b_first B)); [|done].
    by apply store_base_Return with B. }
  assert (∃ B1, bases h1 !! b = Some B1 ∧ b_first B1 = Some a) as (B1 & Hb1 & Hf1).
  { subst h1. destruct (decide (b_last B = b_first B)); [|eauto].
    exists (set_last None B). simpl. by rewrite list_lookup_alter_eq, Hb. }
  assert (nodes h1 !! a = Some nd) as Ha1.
  { subst h1. by destruct (decide (b_last B = b_first B)). }
  rewrite (bind_Return _ _ _ _ _ H1).
  rewrite (bind_Return _ _ _ _ _ (load_base_Return _ _ _ Hb1)).
  rewrite Hf1. simpl.
  rewrite (bind_Return _ _ _ _ _ (load_node_Return _ _ _ Ha1)).
  rewrite (bind_Return _ _ _ _ _ (store_base_Return _ _ _ _ Hb1)).
  by rewrite (bind_Return _ _ _ _ _ (unlink_Return (upd_base _ _ h1) _ _ Ha1)).
Qed.

Lemma Popfirst_pops h b B a nd :
  bases h !! b = Some B → b_first B = Some a → b_last B ≠ None →
  nodes h !! a = Some nd →
  Popfirst (Some b) h = Return (Some a, None) (popped b B a nd h).
Proof.
  intros Hb Hf Hl Ha. unfold Popfirst.
  rewrite (bind_Return _ _ _ _ _ (load_base_Return _ _ _ Hb)).
  rewrite decide_False, decide_False by congruence.
  exact (pop_body_run h b B a nd (λ p, mret (p, None)) Hb Hf Ha).
Qed.

Lemma Clear_loop_unfold fuel b :
  Clear_loop (V:=V) fuel b =
  (B ← load_base b;
   if decide (b_first B = None) then mret tt
   else
     match fuel with
     | O => out_of_fuel
     | S fuel' =>
         (if decide (b_last B = b_first B)
          then store_base b (set_last None)
          else mret tt);;
         B ← load_base b;
         let pnode := b_first B in
         nd ← deref_node pnode;
         store_base b (set_first (n_next nd));;
         unlink pnode;;
         Clear_loop fuel' b
     end).
Proof. by destruct fuel. Qed.

Lemma Clear_loop_done h fuel b B :
  bases h !! b = Some B → b_first B = None →
  Clear_loop fuel b h = Return tt h.
Proof.
  intros Hb Hf. rewrite Clear_loop_unfold.
  rewrite (bind_Return _ _ _ _ _ (load_base_Return _ _ _ Hb)).
  by rewrite decide_True.
Qed.

Lemma Clear_loop_stops h b B a :
  bases h !! b = Some B → b_first B = Some a →
  Clear_loop 0 b h = OutOfFuel.
Proof.
  intros Hb Hf. rewrite Clear_loop_unfold.
  rewrite (bind_Return _ _ _ _ _ (load_base_Return _ _ _ Hb)).
  by rewrite decide_False by congruence.
Qed.

Lemma Clear_loop_step h fuel b B a nd :
  bases h !! b = Some B → b_first B = Some a → nodes h !! a = Some nd →
  Clear_loop (S fuel) b h = Clear_loop fuel b (popped b B a nd h).
Proof.
  intros Hb Hf Ha. rewrite Clear_loop_unfold.
  rewrite (bind_Return _ _ _ _ _ (load_base_Return _ _ _ Hb)).
  rewrite decide_False by congruence.
  exact (pop_body_run h b B a nd (λ _, Clear_loop fuel b) Hb Hf Ha).
Qed.

(** The loop of [Clear] on a chain of [length l] nodes that ends in
    [last]: with fuel for every node it empties the container, with less
    it is still running. *)
Lemma Clear_loop_chain l : ∀ h fuel b B,
  bases h !! b = Some B → chain (nodes h) (b_first B) l → b_last B = last l →
  (length l ≤ fuel → ∃ h', Clear_loop fuel b h = Return tt h' ∧ cleared h b l h') ∧
  (fuel < length l → Clear_loop fuel b h = OutOfFuel).
Proof.
  induction l as [|a l IH]; intros h fuel b B Hb Hc Hl.
  - apply chain_nil in Hc. simpl in Hl. split; [|simpl; lia].
    intros _. exists h. split; [by eapply Clear_loop_done |].
    unfold cleared. repeat split; try done.
    + rewrite Hb. destruct B; simpl in *; congruence.
    + intros m Hm. by apply not_elem_of_nil in Hm.
  - pose proof Hc as (Hf & nd & Ha & Hc').
    pose proof (chain_NoDup _ _ _ Hc) as Hnd.
    apply NoDup_cons in Hnd as (Hnotin & _).
    destruct fuel as [|fuel].
    { split; [simpl; lia |]. intros _. by eapply Clear_loop_stops. }
    rewrite (Clear_loop_step h fuel b B a nd Hb Hf Ha).
    set (h1 := popped b B a nd h).
    assert (last l = if decide (b_last B = b_first B) then None else b_last B) as Hl1.
    { destruct l as [|m l].
      - rewrite decide_True; [done |]. by rewrite Hl, Hf.
      - rewrite decide_False.
        + by rewrite Hl, last_cons_cons.
        + rewrite Hl, Hf. rewrite Hf in Hc. by apply (chain_last_ne_head (nodes h)). }
    destruct (IH h1 fuel b _ (popped_base h b B a nd Hb)) as [IHok IHout].
    + apply lseg_ext with (nodes h); [|exact Hc'].
      intros m Hm. subst h1. rewrite popped_node_ne; [done |]. by intros ->.
    + done.
    + split.
      * intros Hfuel. simpl in Hfuel.
        destruct IHok as (h' & Hrun & Hb' & Hbne & Hlen & Hin & Hout & Hit); [lia |].
        exists h'. split; [done |]. unfold cleared. repeat split.
        -- done.
        -- intros b' Hb'ne. rewrite Hbne by done. by apply popped_base_ne.
        -- rewrite Hlen. apply popped_bases_length.
        -- intros m Hm. apply elem_of_cons in Hm as [-> | Hm].
           ++ rewrite Hout by done. subst h1. rewrite popped_nodes.
              by rewrite !list_lookup_alter_eq.
           ++ rewrite Hin by done. subst h1. rewrite popped_node_ne; [done |].
              by intros ->.
        -- intros m Hm. apply not_elem_of_cons in Hm as (Hma & Hm).
           rewrite Hout by done. by apply popped_node_ne.
        -- rewrite Hit. apply popped_iters.
      * intros Hfuel. simpl in Hfuel. apply IHout. lia.
Qed.

End Pop.

(** ** Clear *)

(** C7: on a well-formed container of [length l] nodes, [Clear], given
    fuel for every node, hands back no error, sets the base-pointer of
    every one of the nodes to nil and leaves [first] and [last] nil; a
    second [Clear] on the emptied container hands back no error and
    changes nothing. *)
Theorem Clear_detaches_all {V} (h : heap V) (b : nat) (l : list nat) (fuel : nat) :
  wf_base h b l → length l ≤ fuel →
  ∃ h', Clear fuel (Some b) h = Return None h' ∧
        (∀ n, n ∈ l → n_base <$> nodes h' !! n = Some None) ∧
        bases h' !! b = Some (mk_base None None) ∧
        ∀ fuel', Clear fuel' (Some b) h' = Return None h'.
Proof.
  intros (B & Hb & Hc & Hl & Hown) Hfuel.
  assert (∀ h' : heap V, bases h' !! b = Some (mk_base None None) →
          ∀ fuel', Clear fuel' (Some b) h' = Return None h') as Hagain.
  { intros h' Hb' fuel'. unfold Clear.
    rewrite (bind_Return _ _ _ _ _ (load_base_Return _ _ _ Hb')).
    by rewrite decide_True. }
  unfold Clear.
  rewrite (bind_Return _ _ _ _ _ (load_base_Return _ _ _ Hb)).
  destruct (decide (b_first B = None)) as [Hf | Hf].
  - rewrite Hf in Hc. apply chain_None in Hc as ->.
    assert (bases h !! b = Some (mk_base None None)) as Hb'.
    { rewrite Hb. destruct B; simpl in *; congruence. }
    exists h. repeat split; [|done | by apply Hagain].
    intros n Hn. by apply not_elem_of_nil in Hn.
  - destruct l as [|a l]; [done |].
    rewrite decide_False.
    2:{ rewrite Hl. intros Hnone. by apply last_None in Hnone. }
    destruct (Clear_loop_chain (a :: l) h fuel b B Hb Hc Hl) as [Hok _].
    destruct (Hok Hfuel) as (h' & Hrun & Hb' & _ & _ & Hin & _ & _).
    exists h'. rewrite (bind_Return _ _ _ _ _ Hrun).
    repeat split; [|done | by apply Hagain].
    intros n Hn. rewrite (Hin n Hn).
    specialize (Hown n Hn). unfold owner in Hown.
    by destruct (nodes h !! n).
Qed.

Lemma Clear_detaches_all_witness :
  wf_base at_end_heap 0 [0; 1] ∧
  ∃ h', Clear 2 (Some 0) at_end_heap = Return None h' ∧
        (∀ n, n ∈ [0; 1] → n_base <$> nodes h' !! n = Some None) ∧
        bases h' !! 0 = Some (mk_base None None) ∧
        ∀ fuel', Clear fuel' (Some 0) h' = Return None h'.
Proof.
  assert (wf_base at_end_heap 0 [0; 1]) as Hwf.
  { exists (mk_base (Some 0) (Some 1)). repeat split.
    - simpl. eauto 10.
    - intros n Hn. apply elem_of_cons in Hn as [-> | Hn]; [reflexivity |].
      apply list_elem_of_singleton in Hn as ->. reflexivity. }
  split; [exact Hwf |].
  apply (Clear_detaches_all at_end_heap 0 [0; 1] 2 Hwf). simpl. lia.
Defined.

(** ** Consistency is preserved *)

Section Preservation.
Context {V : Type}.
Implicit Types (h : heap V) (ns : list (List_node V)) (l : list nat).

Lemma owner_Some h n b :
  owner h n = Some b ↔ ∃ nd, nodes h !! n = Some nd ∧ n_base nd = Some b.
Proof.
  unfold owner. destruct (nodes h !! n) as [nd|]; simpl.
  - split; [eauto | by intros (? & [= <-] & ?)].
  - split; [done | by intros (? & ? & _)].
Qed.

Lemma consistent_empty : consistent (empty_heap : heap V).
Proof.
  split.
  - intros b Hb. simpl in Hb. lia.
  - intros n b Ho. by apply owner_Some in Ho as (? & ? & _).
Qed.

(** The chain predicate and the owners only look at these two fields. *)
Lemma owner_ext h h' n :
  nodes h' !! n = nodes h !! n → owner h' n = owner h n.
Proof. unfold owner. by intros ->. Qed.

(** One container [b] gets the new chain [l']; nodes that were neither
    in the old chain of [b] nor are in the new one are untouched; nodes
    that join were free, nodes that leave become free. *)
Lemma consistent_update h h' b B' l' :
  consistent h → b < length (bases h) →
  length (bases h') = length (bases h) →
  (∀ b', b' ≠ b → bases h' !! b' = bases h !! b') →
  bases h' !! b = Some B' →
  chain (nodes h') (b_first B') l' →
  b_last B' = last l' →
  (∀ m, m ∈ l' ↔ owner h' m = Some b) →
  (∀ m, owner h m ≠ Some b → m ∉ l' → nodes h' !! m = nodes h !! m) →
  (∀ m, m ∈ l' → owner h m = Some b ∨ owner h m = None) →
  (∀ m, owner h m = Some b → m ∉ l' → owner h' m = None) →
  consistent h'.
Proof.
  intros [Hwf Hdang] Hb Hlen Hbases HB' Hchain Hlast Hown Hframe Hjoin Hleave.
  assert (∀ m b', b' ≠ b → owner h m = Some b' → nodes h' !! m = nodes h !! m)
    as Hother.
  { intros m b' Hne Hm. apply Hframe; [congruence |].
    intros Hin. destruct (Hjoin m Hin); congruence. }
  assert (∀ m b', b' ≠ b → owner h' m = Some b' → nodes h' !! m = nodes h !! m)
    as Hother'.
  { intros m b' Hne Hm. apply Hframe.
    - intros Hmb. destruct (decide (m ∈ l')) as [Hin | Hnin].
      + apply Hown in Hin. congruence.
      + rewrite (Hleave m Hmb Hnin) in Hm. done.
    - intros Hin. apply Hown in Hin. congruence. }
  split.
  - intros b' Hb'. rewrite Hlen in Hb'. destruct (decide (b' = b)) as [-> | Hne].
    + exists l'. split; [|by intros n; apply Hown].
      exists B'. repeat split; try done. by intros n; apply Hown.
    + destruct (Hwf b' Hb') as (l & (B & HB & Hc & Hl & Ho) & Hall).
      exists l. split.
      * exists B. rewrite Hbases by done. repeat split; try done.
        -- apply lseg_ext with (nodes h); [|done].
           intros n Hn. by rewrite (Hother n b' Hne (Ho n Hn)).
        -- intros n Hn. rewrite <- (Ho n Hn). apply owner_ext.
           by apply (Hother n b' Hne (Ho n Hn)).
      * intros n Hn. apply Hall. rewrite <- Hn. symmetry. apply owner_ext.
        by apply (Hother' n b' Hne Hn).
  - intros n b' Hn. rewrite Hlen. destruct (decide (b' = b)) as [-> | Hne]; [done |].
    apply (Hdang n b'). rewrite <- Hn. symmetry. apply owner_ext.
    by apply (Hother' n b' Hne Hn).
Qed.

(** What consistency says about one allocated container. *)
Lemma consistent_base h b B :
  consistent h → bases h !! b = Some B →
  ∃ l, chain (nodes h) (b_first B) l ∧ b_last B = last l ∧
       ∀ n, n ∈ l ↔ owner h n = Some b.
Proof.
  intros [Hwf _] Hb. apply lookup_lt_Some in Hb as Hlt.
  destruct (Hwf b Hlt) as (l & (B0 & HB0 & Hc & Hl & Ho) & Hall).
  rewrite Hb in HB0. injection HB0 as <-.
  exists l. repeat split; try done; [apply Ho | apply Hall].
Qed.

Lemma last_after_pop ns B a l :
  chain ns (b_first B) (a :: l) → b_last B = last (a :: l) →
  last l = if decide (b_last B = b_first B) then None else b_last B.
Proof.
  intros Hc Hl. pose proof Hc as (Hf & _). rewrite Hf in Hc.
  destruct l as [|m l].
  - rewrite decide_True; [done |]. by rewrite Hl, Hf.
  - rewrite decide_False; [by rewrite Hl, last_cons_cons |].
    rewrite Hl, Hf. by apply (chain_last_ne_head ns).
Qed.

Lemma popped_owner h b B a nd m :
  nodes h !! a = Some nd →
  owner (popped b B a nd h) m = if decide (m = a) then None else owner h m.
Proof.
  intros Ha. unfold owner. destruct (decide (m = a)) as [-> | Hne].
  - by rewrite (popped_node h b B a nd Ha).
  - by rewrite popped_node_ne.
Qed.

(** Popping the head keeps the heap consistent. *)
Lemma popped_consistent h b B a nd :
  consistent h → bases h !! b = Some B → b_first B = Some a →
  nodes h !! a = Some nd → consistent (popped b B a nd h).
Proof.
  intros Hcons Hb Hf Ha.
  destruct (consistent_base h b B Hcons Hb) as (l & Hc & Hl & Ho).
  destruct l as [|a' l]; [by rewrite Hf in Hc |].
  pose proof Hc as (Hfa & nd' & Ha' & Hc').
  rewrite Hf in Hfa. injection Hfa as <-.
  rewrite Ha in Ha'. injection Ha' as <-.
  pose proof (chain_NoDup _ _ _ Hc) as Hnd.
  apply NoDup_cons in Hnd as (Hnotin & _).
  assert (owner h a = Some b) as Hoa by (apply Ho, list_elem_of_here).
  apply (consistent_update h _ b
           (mk_base (n_next nd) (if decide (b_last B = b_first B) then None else b_last B)) l);
    try done.
  - by apply lookup_lt_Some in Hb.
  - apply popped_bases_length.
  - intros b' Hne. by apply popped_base_ne.
  - by apply popped_base.
  - apply lseg_ext with (nodes h); [|exact Hc'].
    intros m Hm. rewrite popped_node_ne; [done |]. by intros ->.
  - simpl. symmetry. by eapply last_after_pop.
  - intros m. rewrite (popped_owner h b B a nd m Ha).
    destruct (decide (m = a)) as [-> | Hne].
    + split; [done | discriminate].
    + rewrite <- Ho, elem_of_cons. split; [by right | by intros [? | ?]].
  - intros m Hm _. apply popped_node_ne. congruence.
  - intros m Hm. left. apply Ho. by apply list_elem_of_further.
  - intros m Hm Hnin. rewrite (popped_owner h b B a nd m Ha).
    apply Ho, elem_of_cons in Hm as [-> | Hm]; [|done].
    by rewrite decide_True.
Qed.

(** The head of a consistent container is an allocated node. *)
Lemma consistent_head h b B a :
  consistent h → bases h !! b = Some B → b_first B = Some a →
  ∃ nd, nodes h !! a = Some nd.
Proof.
  intros Hcons Hb Hf.
  destruct (consistent_base h b B Hcons Hb) as (l & Hc & _).
  rewrite Hf in Hc. destruct l as [|a' l]; [done |].
  destruct Hc as (Hfa & nd & Hn & _). injection Hfa as <-. eauto.
Qed.

Lemma Popfirst_consistent h p r h' :
  consistent h → valid_ptr (bases h) p →
  Popfirst p h = Return r h' → consistent h'.
Proof.
  intros Hcons Hp Hrun. destruct p as [b|]; [|by injection Hrun as _ <-].
  apply lookup_lt_is_Some in Hp as (B & Hb).
  destruct (b_first B) as [a|] eqn:Hf.
  2:{ rewrite (Popfirst_first_nil h b B Hb Hf) in Hrun. by injection Hrun as _ <-. }
  destruct (decide (b_last B = None)) as [Hl | Hl].
  { destruct (Popfirst_last_nil h b B Hb) as (e & He & _); [congruence | done |].
    rewrite He in Hrun. by injection Hrun as _ <-. }
  destruct (consistent_head h b B a Hcons Hb Hf) as (nd & Ha).
  rewrite (Popfirst_pops h b B a nd Hb Hf Hl Ha) in Hrun. injection Hrun as _ <-.
  by apply popped_consistent.
Qed.

Lemma Clear_loop_consistent fuel : ∀ h b h',
  consistent h → b < length (bases h) →
  Clear_loop fuel b h = Return tt h' → consistent h'.
Proof.
  induction fuel as [|fuel IH]; intros h b h' Hcons Hb Hrun;
    apply lookup_lt_is_Some in Hb as (B & Hb);
    destruct (b_first B) as [a|] eqn:Hf.
  - by rewrite (Clear_loop_stops h b B a Hb Hf) in Hrun.
  - rewrite (Clear_loop_done h 0 b B Hb Hf) in Hrun. by injection Hrun as <-.
  - destruct (consistent_head h b B a Hcons Hb Hf) as (nd & Ha).
    rewrite (Clear_loop_step h fuel b B a nd Hb Hf Ha) in Hrun.
    apply IH in Hrun; [done | by apply popped_consistent |].
    rewrite popped_bases_length. by apply lookup_lt_Some in Hb.
  - rewrite (Clear_loop_done h _ b B Hb Hf) in Hrun. by injection Hrun as <-.
Qed.

Lemma Clear_consistent fuel h p r h' :
  consistent h → valid_ptr (bases h) p →
  Clear fuel p h = Return r h' → consistent h'.
Proof.
  intros Hcons Hp Hrun. destruct p as [b|]; [|by injection Hrun as _ <-].
  pose proof Hp as Hlt. apply lookup_lt_is_Some in Hp as (B & Hb).
  unfold Clear in Hrun.
  rewrite (bind_Return _ _ _ _ _ (load_base_Return _ _ _ Hb)) in Hrun.
  destruct (decide (b_first B = None)); [by injection Hrun as _ <- |].
  destruct (decide (b_last B = None)); [by injection Hrun as _ <- |].
  unfold mbind, M_bind in Hrun.
  destruct (Clear_loop fuel b h) as [[] h1| |] eqn:Hloop; try done.
  injection Hrun as _ <-. by eapply Clear_loop_consistent.
Qed.

End Preservation.

(** ** Insertion *)

Section Insertion.
Context {V : Type}.
Implicit Types (h : heap V) (ns : list (List_node V)) (l : list nat).

Lemma elem_of_snoc_last {A} (l0 : list A) t : t ∈ l0 ++ [t].
Proof. apply elem_of_app. right. apply list_elem_of_here. Qed.

Lemma elem_of_snoc_init {A} (l0 : list A) t m : m ∈ l0 → m ∈ l0 ++ [t].
Proof. intros Hm. apply elem_of_app. by left. Qed.

Lemma alter_is_Some {A} (f : A → A) (arena : list A) i j :
  is_Some (alter f i arena !! j) ↔ is_Some (arena !! j).
Proof. rewrite !lookup_lt_is_Some. by rewrite length_alter. Qed.

Lemma Append_appends h b B n nd :
  bases h !! b = Some B → nodes h !! n = Some nd → n_base nd = None →
  (∀ t, b_last B = Some t → is_Some (nodes h !! t)) →
  Append (Some b) (Some n) h = Return None (appended b (b_last B) n h).
Proof.
  intros Hb Hn Ho Ht. unfold Append, appended.
  rewrite (bind_Return _ _ _ _ _ (load_node_Return _ _ _ Hn)).
  rewrite decide_False by (rewrite Ho; auto).
  rewrite (bind_Return _ _ _ _ _ (store_node_Return _ _ _ _ Hn)).
  assert (nodes (upd_node n (set_base (Some b)) h) !! n = Some (set_base (Some b) nd)) as Hn1.
  { simpl. by rewrite list_lookup_alter_eq, Hn. }
  rewrite (bind_Return _ _ _ _ _ (store_node_Return _ _ _ _ Hn1)).
  set (h2 := upd_node n (set_next None) (upd_node n (set_base (Some b)) h)).
  assert (bases h2 !! b = Some B) as Hb2 by done.
  rewrite (bind_Return _ _ _ _ _ (load_base_Return _ _ _ Hb2)).
  destruct (b_last B) as [t|] eqn:Hl.
  - destruct (Ht t eq_refl) as (ndt & Hndt).
    assert (is_Some (nodes h2 !! t)) as (ndt2 & Hndt2).
    { subst h2. simpl. rewrite !alter_is_Some. eauto. }
    rewrite (bind_Return _ _ _ _ _ (store_node_Return _ _ _ _ Hndt2)).
    assert (bases (upd_node t (set_next (Some n)) h2) !! b = Some B) as Hb3 by done.
    by rewrite (bind_Return _ _ _ _ _ (store_base_Return _ _ _ _ Hb3)).
  - rewrite (bind_Return _ _ _ _ _ (store_base_Return _ _ _ _ Hb2)).
    assert (bases (upd_base b (set_first (Some n)) h2) !! b = Some (set_first (Some n) B)) as Hb3.
    { simpl. by rewrite list_lookup_alter_eq, Hb. }
    by rewrite (bind_Return _ _ _ _ _ (store_base_Return _ _ _ _ Hb3)).
Qed.

Lemma appended_nodes h b t n :
  nodes (appended b t n h) =
  match t with
  | Some t => alter (set_next (Some n)) t
  | None => id
  end (alter (set_next None) n (alter (set_base (Some b)) n (nodes h))).
Proof. unfold appended. by destruct t. Qed.

Lemma appended_node_ne h b t n m :
  m ≠ n → t ≠ Some m → nodes (appended b t n h) !! m = nodes h !! m.
Proof.
  intros Hn Ht. rewrite appended_nodes. destruct t as [t|]; simpl.
  - rewrite !list_lookup_alter_ne; [done | congruence..].
  - by rewrite !list_lookup_alter_ne.
Qed.

Lemma appended_owner h b t n m :
  is_Some (nodes h !! n) →
  owner (appended b t n h) m = if decide (m = n) then Some b else owner h m.
Proof.
  intros (nd & Hn). unfold owner. rewrite appended_nodes.
  assert (∀ ns', (ns' !! m ≫= n_base) =
                 (match t with Some t => alter (set_next (Some n)) t | None => id end ns')
                   !! m ≫= n_base) as <-.
  { intros ns'. destruct t as [t|]; [|done].
    rewrite list_lookup_alter. destruct (decide (t = m)) as [-> | ?]; [|done].
    by destruct (ns' !! m). }
  destruct (decide (m = n)) as [-> | Hne].
  - by rewrite !list_lookup_alter_eq, Hn.
  - by rewrite !list_lookup_alter_ne.
Qed.

Lemma appended_base h b B t n :
  bases h !! b = Some B →
  bases (appended b t n h) !! b =
    Some (mk_base (if t is Some _ then b_first B else Some n) (Some n)).
Proof.
  intros Hb. unfold appended. destruct t; simpl.
  - by rewrite list_lookup_alter_eq, Hb.
  - by rewrite !list_lookup_alter_eq, Hb.
Qed.

Lemma appended_base_ne h b t n b' :
  b' ≠ b → bases (appended b t n h) !! b' = bases h !! b'.
Proof.
  intros Hne. unfold appended. destruct t; simpl.
  - by rewrite list_lookup_alter_ne.
  - by rewrite !list_lookup_alter_ne.
Qed.

Lemma appended_bases_length h b t n :
  length (bases (appended b t n h)) = length (bases h).
Proof. unfold appended. destruct t; simpl; by rewrite ?length_alter. Qed.

(** The chain of the container after [Append], one node longer. *)
Lemma appended_chain h b B l n nd :
  chain (nodes h) (b_first B) l → b_last B = last l → n ∉ l →
  nodes h !! n = Some nd →
  chain (nodes (appended b (b_last B) n h))
        (if b_last B is Some _ then b_first B else Some n) (l ++ [n]).
Proof.
  intros Hc Hl Hnl Hn.
  rewrite Hl. destruct (last l) as [t|] eqn:Hlast.
  + apply last_Some in Hlast as (l0 & ->).
    pose proof (chain_NoDup _ _ _ Hc) as Hnd.
    apply NoDup_app in Hnd as (_ & Hdisj & _).
    apply lseg_snoc in Hc as (Hseg & ndt & Hndt & Hnext).
    assert (t ≠ n) as Htn. { intros ->. apply Hnl, elem_of_snoc_last. }
    unfold chain. rewrite !lseg_snoc. repeat split.
    * apply lseg_ext with (nodes h); [|done]. intros m Hm.
      rewrite appended_node_ne; [done | |].
      -- intros ->. by apply Hnl, elem_of_snoc_init.
      -- intros [= ->]. apply (Hdisj m Hm), list_elem_of_here.
    * exists (set_next (Some n) ndt). split; [|done].
      rewrite appended_nodes. rewrite list_lookup_alter_eq.
      by rewrite !list_lookup_alter_ne, Hndt by done.
    * exists (set_next None (set_base (Some b) nd)). split; [|done].
      rewrite appended_nodes. rewrite list_lookup_alter_ne by done.
      by rewrite !list_lookup_alter_eq, Hn.
  + apply last_None in Hlast as ->. unfold chain. cbn [app lseg].
    split; [done |].
    exists (set_next None (set_base (Some b) nd)). split; [|done].
    rewrite appended_nodes. unfold id. by rewrite !list_lookup_alter_eq, Hn.
Qed.

(** Appending a free node keeps the heap consistent. *)
Lemma appended_consistent h b B n nd :
  consistent h → bases h !! b = Some B → nodes h !! n = Some nd →
  n_base nd = None → consistent (appended b (b_last B) n h).
Proof.
  intros Hcons Hb Hn Hfree.
  destruct (consistent_base h b B Hcons Hb) as (l & Hc & Hl & Ho).
  assert (owner h n = None) as Hon by (unfold owner; by rewrite Hn).
  assert (n ∉ l) as Hnl by (rewrite Ho; congruence).
  assert (is_Some (nodes h !! n)) as HnS by eauto.
  apply (consistent_update h _ b
           (mk_base (if b_last B is Some _ then b_first B else Some n) (Some n))
           (l ++ [n])).
  - done.
  - by apply lookup_lt_Some in Hb.
  - apply appended_bases_length.
  - intros b' Hne. by apply appended_base_ne.
  - by apply appended_base.
  - by apply (appended_chain h b B l n nd).
  - by rewrite last_snoc.
  - intros m. rewrite (appended_owner h b _ n m HnS), elem_of_app, list_elem_of_singleton.
    destruct (decide (m = n)) as [-> | Hne].
    + split; [done | by right].
    + rewrite <- Ho. split; [by intros [? | ?] | by left].
  - intros m Hm Hnin. apply not_elem_of_app in Hnin as (Hml & Hmn).
    apply appended_node_ne.
    + intros ->. apply Hmn. by apply list_elem_of_singleton.
    + rewrite Hl. intros Hlast. apply Hml.
      apply last_Some in Hlast as (l0 & ->). apply elem_of_snoc_last.
  - intros m Hm. apply elem_of_app in Hm as [Hm | Hm].
    + left. by apply Ho.
    + apply list_elem_of_singleton in Hm as ->. by right.
  - intros m Hm Hnin. exfalso. apply Hnin, elem_of_app. left. by apply Ho.
Qed.

Lemma Append_rejects h b n nd :
  nodes h !! n = Some nd → n_base nd ≠ None →
  ∃ e, Append (Some b) (Some n) h = Return (Some e) h.
Proof.
  intros Hn Ho. unfold Append.
  rewrite (bind_Return _ _ _ _ _ (load_node_Return _ _ _ Hn)).
  rewrite decide_True by done. eauto.
Qed.

(** The tail of a consistent container is an allocated node. *)
Lemma consistent_tail h b B t :
  consistent h → bases h !! b = Some B → b_last B = Some t →
  is_Some (nodes h !! t).
Proof.
  intros Hcons Hb Hl.
  destruct (consistent_base h b B Hcons Hb) as (l & _ & Hlast & Ho).
  rewrite Hl in Hlast. symmetry in Hlast. apply last_Some in Hlast as (l0 & ->).
  destruct (proj1 (owner_Some h t b)) as (nd & Hnd & _); [|eauto].
  apply Ho, elem_of_snoc_last.
Qed.

Lemma Append_consistent h p pnode r h' :
  consistent h → valid_ptr (bases h) p → valid_ptr (nodes h) pnode →
  Append p pnode h = Return r h' → consistent h'.
Proof.
  intros Hcons Hp Hq Hrun. destruct p as [b|]; [|by injection Hrun as _ <-].
  destruct pnode as [n|]; [|by injection Hrun as _ <-].
  apply lookup_lt_is_Some in Hp as (B & Hb).
  apply lookup_lt_is_Some in Hq as (nd & Hn).
  destruct (decide (n_base nd = None)) as [Hfree | Howned].
  - rewrite (Append_appends h b B n nd Hb Hn Hfree) in Hrun.
    + injection Hrun as _ <-. by eapply appended_consistent.
    + intros t Ht. by eapply consistent_tail.
  - destruct (Append_rejects h b n nd Hn Howned) as (e & He).
    rewrite He in Hrun. by injection Hrun as _ <-.
Qed.

Lemma Prepend_prepends h b B n nd :
  bases h !! b = Some B → nodes h !! n = Some nd → n_base nd = None →
  Prepend (Some b) (Some n) h = Return None (prepended b B n h).
Proof.
  intros Hb Hn Ho. unfold Prepend, prepended.
  rewrite (bind_Return _ _ _ _ _ (load_node_Return _ _ _ Hn)).
  rewrite decide_False by (rewrite Ho; auto).
  rewrite (bind_Return _ _ _ _ _ (store_node_Return _ _ _ _ Hn)).
  set (h1 := upd_node n (set_base (Some b)) h).
  assert (bases h1 !! b = Some B) as Hb1 by done.
  rewrite (bind_Return _ _ _ _ _ (load_base_Return _ _ _ Hb1)).
  assert (nodes h1 !! n = Some (set_base (Some b) nd)) as Hn1.
  { subst h1. simpl. by rewrite list_lookup_alter_eq, Hn. }
  rewrite (bind_Return _ _ _ _ _ (store_node_Return _ _ _ _ Hn1)).
  set (h2 := upd_node n (set_next (b_first B)) h1).
  assert (bases h2 !! b = Some B) as Hb2 by done.
  rewrite (bind_Return _ _ _ _ _ (store_base_Return _ _ _ _ Hb2)).
  set (h3 := upd_base b (set_first (Some n)) h2).
  assert (bases h3 !! b = Some (set_first (Some n) B)) as Hb3.
  { subst h3. simpl. by rewrite list_lookup_alter_eq, Hb. }
  rewrite (bind_Return _ _ _ _ _ (load_base_Return _ _ _ Hb3)).
  cbn [b_last set_first].
  destruct (decide (b_last B = None)); [|done].
  by rewrite (bind_Return _ _ _ _ _ (store_base_Return _ _ _ _ Hb3)).
Qed.

Lemma prepended_nodes h b B n :
  nodes (prepended b B n h) =
  alter (set_next (b_first B)) n (alter (set_base (Some b)) n (nodes h)).
Proof. unfold prepended. by destruct (decide (b_last B = None)). Qed.

Lemma prepended_base h b B n :
  bases h !! b = Some B →
  bases (prepended b B n h) !! b =
    Some (mk_base (Some n) (if decide (b_last B = None) then Some n else b_last B)).
Proof.
  intros Hb. unfold prepended. destruct (decide (b_last B = None)); simpl.
  - by rewrite !list_lookup_alter_eq, Hb.
  - by rewrite list_lookup_alter_eq, Hb.
Qed.

Lemma prepended_base_ne h b B n b' :
  b' ≠ b → bases (prepended b B n h) !! b' = bases h !! b'.
Proof.
  intros Hne. unfold prepended. destruct (decide (b_last B = None)); simpl.
  - by rewrite !list_lookup_alter_ne.
  - by rewrite list_lookup_alter_ne.
Qed.

Lemma prepended_bases_length h b B n :
  length (bases (prepended b B n h)) = length (bases h).
Proof.
  unfold prepended. destruct (decide (b_last B = None)); simpl;
    by rewrite ?length_alter.
Qed.

(** Prepending a free node keeps the heap consistent. *)
Lemma prepended_consistent h b B n nd :
  consistent h → bases h !! b = Some B → nodes h !! n = Some nd →
  n_base nd = None → consistent (prepended b B n h).
Proof.
  intros Hcons Hb Hn Hfree.
  destruct (consistent_base h b B Hcons Hb) as (l & Hc & Hl & Ho).
  assert (owner h n = None) as Hon by (unfold owner; by rewrite Hn).
  assert (n ∉ l) as Hnl by (rewrite Ho; congruence).
  assert (∀ m, m ≠ n → nodes (prepended b B n h) !! m = nodes h !! m) as Hne.
  { intros m Hm. by rewrite prepended_nodes, !list_lookup_alter_ne. }
  assert (nodes (prepended b B n h) !! n =
          Some (mk_node (b_first B) (Some b) (n_value nd))) as Hn'.
  { by rewrite prepended_nodes, !list_lookup_alter_eq, Hn. }
  apply (consistent_update h _ b
           (mk_base (Some n) (if decide (b_last B = None) then Some n else b_last B))
           (n :: l)).
  - done.
  - by apply lookup_lt_Some in Hb.
  - apply prepended_bases_length.
  - intros b' Hb'. by apply prepended_base_ne.
  - by apply prepended_base.
  - split; [done |]. eexists. split; [exact Hn' |].
    apply lseg_ext with (nodes h); [|exact Hc].
    intros m Hm. rewrite Hne; [done |]. by intros ->.
  - cbn [b_last]. rewrite Hl. destruct l as [|a l]; [done |].
    rewrite decide_False; [by rewrite last_cons_cons |].
    intros Hnone. by apply last_None in Hnone.
  - intros m. rewrite elem_of_cons. destruct (decide (m = n)) as [-> | Hmn].
    + unfold owner. rewrite Hn'. split; [done | by left].
    + rewrite (owner_ext h _ m (Hne m Hmn)), <- Ho.
      split; [by intros [? | ?] | by right].
  - intros m Hm Hnin. apply not_elem_of_cons in Hnin as (Hmn & _). by apply Hne.
  - intros m Hm. apply elem_of_cons in Hm as [-> | Hm]; [by right |].
    left. by apply Ho.
  - intros m Hm Hnin. exfalso. apply Hnin, list_elem_of_further. by apply Ho.
Qed.

Lemma Prepend_rejects h b n nd :
  nodes h !! n = Some nd → n_base nd ≠ None →
  ∃ e, Prepend (Some b) (Some n) h = Return (Some e) h.
Proof.
  intros Hn Ho. unfold Prepend.
  rewrite (bind_Return _ _ _ _ _ (load_node_Return _ _ _ Hn)).
  rewrite decide_True by done. eauto.
Qed.

Lemma Prepend_consistent h p pnode r h' :
  consistent h → valid_ptr (bases h) p → valid_ptr (nodes h) pnode →
  Prepend p pnode h = Return r h' → consistent h'.
Proof.
  intros Hcons Hp Hq Hrun. destruct p as [b|]; [|by injection Hrun as _ <-].
  destruct pnode as [n|]; [|by injection Hrun as _ <-].
  apply lookup_lt_is_Some in Hp as (B & Hb).
  apply lookup_lt_is_Some in Hq as (nd & Hn).
  destruct (decide (n_base nd = None)) as [Hfree | Howned].
  - rewrite (Prepend_prepends h b B n nd Hb Hn Hfree) in Hrun.
    injection Hrun as _ <-. by eapply prepended_consistent.
  - destruct (Prepend_rejects h b n nd Hn Howned) as (e & He).
    rewrite He in Hrun. by injection Hrun as _ <-.
Qed.

End Insertion.

(** ** Allocation, payloads and the convenience wrappers *)

Section Allocation.
Context {V : Type}.
Implicit Types (h : heap V) (ns : list (List_node V)) (l : list nat).

(** Consistency only reads [bases] and the [next] and [base] fields of
    allocated nodes. *)
Lemma consistent_frame h h' :
  consistent h → bases h' = bases h →
  (∀ m, owner h' m = owner h m) →
  (∀ m, is_Some (nodes h !! m) →
        n_next <$> nodes h' !! m = n_next <$> nodes h !! m) →
  consistent h'.
Proof.
  intros [Hwf Hdang] Hbases Hown Hnext. split.
  - intros b Hb. rewrite Hbases in Hb.
    destruct (Hwf b Hb) as (l & (B & HB & Hc & Hl & Ho) & Hall).
    exists l. split.
    + exists B. rewrite Hbases. repeat split; try done.
      * apply lseg_ext with (nodes h); [|done]. intros m Hm. apply Hnext.
        destruct (proj1 (owner_Some h m b) (Ho m Hm)) as (nd & -> & _). eauto.
      * intros n Hn. rewrite Hown. by apply Ho.
    + intros n Hn. apply Hall. by rewrite <- Hown.
  - intros n b Hn. rewrite Hbases. apply (Hdang n b). by rewrite <- Hown.
Qed.

Lemma new_node_consistent h p h' :
  consistent h → new_node h = Return p h' → consistent h'.
Proof.
  intros Hcons [= _ <-]. apply (consistent_frame h); [done..| |].
  - intros m. unfold owner. simpl.
    destruct (decide (m < length (nodes h))) as [Hlt | Hge].
    + by rewrite lookup_app_l.
    + rewrite lookup_app_r by lia. rewrite (lookup_ge_None_2 (nodes h)) by lia.
      by destruct (m - length (nodes h)) as [|k].
  - intros m Hm. apply lookup_lt_is_Some in Hm. simpl. by rewrite lookup_app_l.
Qed.

Lemma new_base_consistent h p h' :
  consistent h → new_base h = Return p h' → consistent h'.
Proof.
  intros [Hwf Hdang] [= _ <-]. split; simpl.
  - intros b Hb. rewrite length_app in Hb. simpl in Hb.
    destruct (decide (b < length (bases h))) as [Hlt | Hge].
    + destruct (Hwf b Hlt) as (l & (B & HB & Hc & Hl & Ho) & Hall).
      exists l. split; [|done]. exists B. simpl. by rewrite lookup_app_l.
    + assert (b = length (bases h)) as -> by lia.
      exists []. split.
      * exists (mk_base None None). simpl. repeat split.
        -- by rewrite lookup_app_r, Nat.sub_diag.
        -- intros n Hn. by apply not_elem_of_nil in Hn.
      * intros n Hn. apply (Hdang n) in Hn. lia.
  - intros n b Hn. rewrite length_app. apply (Hdang n) in Hn. lia.
Qed.

Lemma SetValue_consistent h q v E h' :
  consistent h → SetValue q v h = Return E h' → consistent h'.
Proof.
  intros Hcons Hrun. destruct q as [n|]; [|by injection Hrun as _ <-].
  unfold SetValue, store_node, mbind, M_bind in Hrun.
  destruct (nodes h !! n) as [nd|] eqn:Hn; [|done].
  injection Hrun as _ <-. apply (consistent_frame h); [done..| |].
  - intros m. unfold owner. simpl. rewrite list_lookup_alter.
    destruct (decide (n = m)) as [-> | ?]; [|done]. by rewrite Hn.
  - intros m _. simpl. rewrite list_lookup_alter.
    destruct (decide (n = m)) as [-> | ?]; [|done]. by rewrite Hn.
Qed.

Lemma fresh_node_run {A} h v (k : node_ptr → option error → M V A) :
  (pnode ← new_node; E ← SetValue pnode v; k pnode E) h
  = k (Some (length (nodes h))) None (with_fresh_node v h).
Proof.
  assert (new_node h = Return (Some (length (nodes h)))
            (mk_heap (nodes h ++ [mk_node None None None]) (bases h) (iters h)))
    as Hnew by done.
  rewrite (bind_Return _ _ _ _ _ Hnew).
  assert (SetValue (Some (length (nodes h))) v
            (mk_heap (nodes h ++ [mk_node None None None]) (bases h) (iters h))
          = Return None (with_fresh_node v h)) as Hset.
  { unfold SetValue, store_node, mbind, M_bind. simpl.
    by rewrite lookup_app_r, Nat.sub_diag. }
  by rewrite (bind_Return _ _ _ _ _ Hset).
Qed.

Lemma fresh_node_lookup h v :
  nodes (with_fresh_node v h) !! length (nodes h) = Some (mk_node None None v).
Proof.
  unfold with_fresh_node. simpl. rewrite list_lookup_alter_eq.
  by rewrite lookup_app_r, Nat.sub_diag.
Qed.

Lemma fresh_node_consistent h v :
  consistent h → consistent (with_fresh_node v h).
Proof.
  intros Hcons.
  apply (SetValue_consistent
           (mk_heap (nodes h ++ [mk_node None None None]) (bases h) (iters h))
           (Some (length (nodes h))) v None).
  - by apply (new_node_consistent h (Some (length (nodes h)))).
  - unfold SetValue, store_node, mbind, M_bind. simpl.
    by rewrite lookup_app_r, Nat.sub_diag.
Qed.

Lemma AppendValue_consistent h p v r h' :
  consistent h → valid_ptr (bases h) p →
  AppendValue p v h = Return r h' → consistent h'.
Proof.
  intros Hcons Hp Hrun. destruct p as [b|]; [|by injection Hrun as _ <-].
  unfold AppendValue in Hrun. rewrite fresh_node_run in Hrun.
  unfold mbind, M_bind in Hrun.
  destruct (Append (Some b) (Some (length (nodes h))) (with_fresh_node v h))
    as [E h2| |] eqn:HA; [|done..].
  assert (consistent h2) as Hcons2.
  { apply (Append_consistent _ _ _ _ _ (fresh_node_consistent h v Hcons)) in HA;
      [done | done |].
    simpl. eapply lookup_lt_Some, fresh_node_lookup. }
  destruct E; by injection Hrun as _ <-.
Qed.

Lemma PrependValue_consistent h p v r h' :
  consistent h → valid_ptr (bases h) p →
  PrependValue p v h = Return r h' → consistent h'.
Proof.
  intros Hcons Hp Hrun. destruct p as [b|]; [|by injection Hrun as _ <-].
  unfold PrependValue in Hrun. rewrite fresh_node_run in Hrun.
  unfold mbind, M_bind in Hrun.
  destruct (Prepend (Some b) (Some (length (nodes h))) (with_fresh_node v h))
    as [E h2| |] eqn:HA; [|done..].
  assert (consistent h2) as Hcons2.
  { apply (Prepend_consistent _ _ _ _ _ (fresh_node_consistent h v Hcons)) in HA;
      [done | done |].
    simpl. eapply lookup_lt_Some, fresh_node_lookup. }
  destruct E; by injection Hrun as _ <-.
Qed.

End Allocation.

(** ** Calls that leave the nodes and the containers alone *)

Section ReadOnly.
Context {V : Type}.
Implicit Types (h : heap V) (ns : list (List_node V)) (l : list nat).

(** Case analysis on everything a run inspects. *)
Ltac run_cases H :=
  repeat match type of H with
         | context [match ?arena !! ?i with _ => _ end] =>
             destruct (arena !! i) eqn:?; simpl in H; try discriminate H
         | context [decide ?P] =>
             destruct (decide P); simpl in H; try discriminate H
         | context [match ?x with _ => _ end] =>
             is_var x; destruct x eqn:?; simpl in H; try discriminate H
         | context [match ?f ?x with _ => _ end] =>
             is_var x; destruct (f x) eqn:?; simpl in H; try discriminate H
         end.

Lemma Empty_pure h p r h' : Empty p h = Return r h' → h' = h.
Proof.
  destruct p as [b|]; [|by intros [= _ <-]].
  unfold Empty, load_base, mbind, M_bind. intros H. run_cases H;
    by injection H as _ <-.
Qed.

Lemma GetFirst_pure h p r h' : GetFirst p h = Return r h' → h' = h.
Proof.
  destruct p as [b|]; [|by intros [= _ <-]].
  unfold GetFirst, load_base, mbind, M_bind. intros H. run_cases H;
    by injection H as _ <-.
Qed.

Lemma Length_loop_pure fuel : ∀ q n h r h',
  Length_loop fuel q n h = Return r h' → h' = h.
Proof.
  induction fuel as [|fuel IH]; intros [a|] n h r h'; simpl;
    try by intros [= _ <-].
  unfold load_node, mbind, M_bind. intros H.
  destruct (nodes h !! a); [|done]. by apply IH in H.
Qed.

Lemma Length_pure fuel h p r h' : Length fuel p h = Return r h' → h' = h.
Proof.
  destruct p as [b|]; [|by intros [= _ <-]].
  unfold Length, load_base, mbind, M_bind. intros H.
  destruct (bases h !! b); [|done].
  destruct (decide _); [by apply Length_loop_pure in H | by injection H as _ <-].
Qed.

Lemma ValidLength_loop_pure fuel : ∀ p q c h r h',
  ValidLength_loop fuel p q c h = Return r h' → h' = h.
Proof.
  induction fuel as [|fuel IH]; intros p [a|] [[c1 c2] c3] h r h'; simpl;
    try by intros [= _ <-].
  unfold load_node, mbind, M_bind. intros H.
  destruct (nodes h !! a); [|done]. by apply IH in H.
Qed.

Lemma ValidLength_pure fuel h p r h' :
  ValidLength fuel p h = Return r h' → h' = h.
Proof.
  destruct p as [b|]; [|by intros [= _ <-]].
  unfold ValidLength, load_base, mbind, M_bind. intros H.
  destruct (bases h !! b); [|done].
  destruct (decide _); [by injection H as _ <- | by apply ValidLength_loop_pure in H].
Qed.

Lemma Found_scan_pure fuel : ∀ pnode q h r h',
  Found_scan fuel pnode q h = Return r h' → h' = h.
Proof.
  induction fuel as [|fuel IH]; intros [a|] q h r h'; simpl;
    try by intros [= _ <-].
  destruct (decide _); [by intros [= _ <-] |].
  unfold load_node, mbind, M_bind. intros H.
  destruct (nodes h !! a); [|done]. by apply IH in H.
Qed.

Lemma Found_pure fuel h p q r h' : Found fuel p q h = Return r h' → h' = h.
Proof.
  destruct p as [b|]; [|by intros [= _ <-]].
  destruct q as [n|]; [|by intros [= _ <-]].
  unfold Found, load_base, load_node, mbind, M_bind. intros H.
  destruct (bases h !! b); [|done].
  destruct (decide _); [by injection H as _ <- |].
  destruct (decide _); [by injection H as _ <- |].
  destruct (nodes h !! n); [|done].
  destruct (decide _); [by injection H as _ <- |].
  destruct (Found_scan fuel _ _ h) as [r' h1| |] eqn:Hscan; [|done..].
  apply Found_scan_pure in Hscan as ->. by injection H as _ <-.
Qed.

(** The iterator only writes to iterators. *)
Lemma Init_same h p b E h' :
  Init p b h = Return E h' → nodes h' = nodes h ∧ bases h' = bases h.
Proof.
  destruct p as [i|]; [|by intros [= _ <-]].
  unfold Init, store_iter, mbind, M_bind. intros H. run_cases H.
  by injection H as _ <-.
Qed.

Lemma Restart_same h p E h' :
  Restart p h = Return E h' → nodes h' = nodes h ∧ bases h' = bases h.
Proof.
  destruct p as [i|]; [|by intros [= _ <-]].
  unfold Restart, store_iter, mbind, M_bind. intros H. run_cases H.
  by injection H as _ <-.
Qed.

Lemma Next_same h p r h' :
  Next p h = Return r h' → nodes h' = nodes h ∧ bases h' = bases h.
Proof.
  destruct p as [i|]; [|by intros [= _ <-]].
  unfold Next, load_iter, store_iter, load_base, load_node, mbind, M_bind.
  intros H. run_cases H; by injection H as _ <-.
Qed.

Lemma consistent_same h h' :
  nodes h' = nodes h → bases h' = bases h → consistent h → consistent h'.
Proof.
  intros Hn Hb Hcons. apply (consistent_frame h); try done.
  - intros m. unfold owner. by rewrite Hn.
  - intros m _. by rewrite Hn.
Qed.

End ReadOnly.

(** ** Removal from the tail *)

Section Poplast.
Context {V : Type}.
Implicit Types (h : heap V) (ns : list (List_node V)) (l : list nat).

(** Inside a segment every [next] points to the node that follows. *)
Lemma lseg_next_in ns l x y m nd :
  lseg ns x l (Some y) → m ∈ l → ns !! m = Some nd →
  ∃ z, n_next nd = Some z ∧ z ∈ l ++ [y].
Proof.
  revert x. induction l as [|a l IH]; intros x Hseg Hm Hnd.
  - by apply not_elem_of_nil in Hm.
  - destruct Hseg as (-> & nda & Ha & Hseg).
    apply elem_of_cons in Hm as [-> | Hm].
    + rewrite Hnd in Ha. injection Ha as <-.
      destruct l as [|a' l].
      * simpl in Hseg. exists y. split; [done |].
        apply list_elem_of_further, list_elem_of_here.
      * destruct Hseg as (Hnext & _). exists a'. split; [done |].
        apply list_elem_of_further, list_elem_of_here.
    + destruct (IH _ Hseg Hm Hnd) as (z & Hz & Hin).
      exists z. split; [done |]. by apply list_elem_of_further.
Qed.

(** In a chain only the predecessor of a node points to it. *)
Lemma chain_pred_unique ns x l0 q t l2 m nd :
  chain ns x (l0 ++ q :: t :: l2) → m ∈ l0 → ns !! m = Some nd →
  n_next nd ≠ Some t.
Proof.
  intros Hc Hm Hnd Hnext.
  pose proof (chain_NoDup _ _ _ Hc) as Hdup.
  change (l0 ++ q :: t :: l2) with (l0 ++ [q] ++ t :: l2) in Hc, Hdup.
  rewrite app_assoc in Hc, Hdup.
  apply lseg_app in Hc as (y & Hseg & Ht). pose proof Ht as (-> & _).
  apply lseg_snoc in Hseg as (Hseg & _).
  destruct (lseg_next_in _ _ _ _ _ _ Hseg Hm Hnd) as (z & Hz & Hin).
  rewrite Hz in Hnext. injection Hnext as ->.
  apply NoDup_app in Hdup as (_ & Hdisj & _).
  apply (Hdisj t Hin), list_elem_of_here.
Qed.

Lemma Poplast_scan_finds lpre : ∀ x h fuel b B qq ndq,
  bases h !! b = Some B → lseg (nodes h) x lpre (Some qq) →
  (∀ m nd, m ∈ lpre → nodes h !! m = Some nd → n_next nd ≠ b_last B) →
  nodes h !! qq = Some ndq → n_next ndq = b_last B →
  (length lpre < fuel → Poplast_scan fuel b x h = Return (Some qq) h) ∧
  (fuel ≤ length lpre → Poplast_scan fuel b x h = OutOfFuel).
Proof.
  induction lpre as [|m lpre IH]; intros x h fuel b B qq ndq Hb Hseg Hpre Hq Hnext.
  - simpl in Hseg. subst x. destruct fuel as [|fuel]; simpl.
    + split; [lia | done].
    + split; [|lia]. intros _.
      rewrite (bind_Return _ _ _ _ _ (load_node_Return _ _ _ Hq)).
      rewrite (bind_Return _ _ _ _ _ (load_base_Return _ _ _ Hb)).
      by rewrite decide_True.
  - destruct Hseg as (-> & nd & Hm & Hseg). destruct fuel as [|fuel]; simpl.
    + split; [lia | done].
    + rewrite (bind_Return _ _ _ _ _ (load_node_Return _ _ _ Hm)).
      rewrite (bind_Return _ _ _ _ _ (load_base_Return _ _ _ Hb)).
      rewrite decide_False by (apply (Hpre m); [apply list_elem_of_here | done]).
      destruct (IH (n_next nd) h fuel b B qq ndq) as [IHok IHout]; try done.
      { intros m' nd' Hm'. apply Hpre. by apply list_elem_of_further. }
      split; intros ?; [apply IHok | apply IHout]; lia.
Qed.

Lemma Poplast_only h fuel b B a nd :
  bases h !! b = Some B → b_first B = Some a → b_last B = Some a →
  nodes h !! a = Some nd →
  Poplast fuel (Some b) h = Return (Some a, None) (popped_only b a h).
Proof.
  intros Hb Hf Hl Ha. unfold Poplast, popped_only.
  rewrite (bind_Return _ _ _ _ _ (load_base_Return _ _ _ Hb)).
  rewrite decide_False, decide_False, decide_True by congruence.
  rewrite (bind_Return _ _ _ _ _ (store_base_Return _ _ _ _ Hb)).
  assert (bases (upd_base b (set_first None) h) !! b = Some (set_first None B)) as Hb1.
  { simpl. by rewrite list_lookup_alter_eq, Hb. }
  rewrite (bind_Return _ _ _ _ _ (store_base_Return _ _ _ _ Hb1)).
  rewrite Hf.
  by rewrite (bind_Return _ _ _ _ _
    (unlink_Return (upd_base _ _ (upd_base _ _ h)) _ _ Ha)).
Qed.

Lemma Poplast_tail h fuel b B lpre q ndq t ndt :
  bases h !! b = Some B → b_first B ≠ None → b_last B = Some t →
  b_first B ≠ Some t →
  lseg (nodes h) (b_first B) lpre (Some q) →
  (∀ m nd, m ∈ lpre → nodes h !! m = Some nd → n_next nd ≠ Some t) →
  nodes h !! q = Some ndq → n_next ndq = Some t →
  nodes h !! t = Some ndt → q ≠ t →
  (length lpre < fuel →
   Poplast fuel (Some b) h = Return (Some t, None) (poplasted b q t h)) ∧
  (fuel ≤ length lpre → Poplast fuel (Some b) h = OutOfFuel).
Proof.
  intros Hb Hf Hl Hft Hseg Hpre Hq Hnext Ht Hqt. unfold Poplast, poplasted.
  rewrite (bind_Return _ _ _ _ _ (load_base_Return _ _ _ Hb)).
  rewrite decide_False, decide_False, decide_False by congruence.
  destruct (Poplast_scan_finds lpre (b_first B) h fuel b B q ndq) as [Hok Hout];
    try done; try congruence.
  { intros m nd Hm Hnd. rewrite Hl. by eapply Hpre. }
  split; intros Hfuel.
  - rewrite (bind_Return _ _ _ _ _ (Hok Hfuel)).
    rewrite (bind_Return _ _ _ _ _ (load_base_Return _ _ _ Hb)).
    rewrite (bind_Return _ _ _ _ _ (store_node_Return _ _ _ _ Hq)).
    assert (bases (upd_node q (set_next None) h) !! b = Some B) as Hb1 by done.
    rewrite (bind_Return _ _ _ _ _ (store_base_Return _ _ _ _ Hb1)).
    rewrite Hl.
    assert (nodes (upd_base b (set_last (Some q)) (upd_node q (set_next None) h)) !! t
            = Some ndt) as Ht1.
    { simpl. by rewrite list_lookup_alter_ne. }
    by rewrite (bind_Return _ _ _ _ _ (unlink_Return _ _ _ Ht1)).
  - unfold mbind, M_bind. by rewrite (Hout Hfuel).
Qed.

Lemma popped_only_consistent h b B a nd :
  consistent h → bases h !! b = Some B → b_first B = Some a →
  b_last B = Some a → nodes h !! a = Some nd →
  consistent (popped_only b a h).
Proof.
  intros Hcons Hb Hf Hl Ha.
  destruct (consistent_base h b B Hcons Hb) as (l & Hc & Hlast & Ho).
  assert (l = [a]) as ->.
  { destruct l as [|a' l]; [by rewrite Hf in Hc |].
    pose proof Hc as (Hfa & _). rewrite Hf in Hfa. injection Hfa as <-.
    destruct l as [|m l]; [done |]. exfalso.
    rewrite Hf in Hc. apply (chain_last_ne_head (nodes h) a (m :: l)); try done.
    by rewrite <- Hlast. }
  assert (∀ m, owner (popped_only b a h) m = if decide (m = a) then None else owner h m)
    as Hown.
  { intros m. unfold owner, popped_only. simpl.
    destruct (decide (m = a)) as [-> | Hne].
    - by rewrite !list_lookup_alter_eq, Ha.
    - by rewrite !list_lookup_alter_ne. }
  apply (consistent_update h _ b (mk_base None None) []); try done.
  - by apply lookup_lt_Some in Hb.
  - unfold popped_only. simpl. by rewrite !length_alter.
  - intros b' Hne. unfold popped_only. simpl. by rewrite !list_lookup_alter_ne.
  - unfold popped_only. simpl. by rewrite !list_lookup_alter_eq, Hb.
  - intros m. rewrite Hown. split; [by intros ?%not_elem_of_nil |].
    destruct (decide (m = a)) as [-> | Hne]; [done |].
    rewrite <- Ho, list_elem_of_singleton. done.
  - intros m Hm _. unfold popped_only. simpl.
    rewrite !list_lookup_alter_ne; [done | |]; intros ->; apply Hm, Ho, list_elem_of_here.
  - intros m ?%not_elem_of_nil. done.
  - intros m Hm _. rewrite Hown. apply Ho, list_elem_of_singleton in Hm as ->.
    by rewrite decide_True.
Qed.

Lemma poplasted_consistent h b B l0 q t :
  consistent h → bases h !! b = Some B →
  chain (nodes h) (b_first B) (l0 ++ [q; t]) → b_last B = Some t →
  (∀ n, n ∈ l0 ++ [q; t] ↔ owner h n = Some b) →
  consistent (poplasted b q t h).
Proof.
  intros Hcons Hb Hc Hl Ho.
  pose proof (chain_NoDup _ _ _ Hc) as Hdup.
  change (l0 ++ [q; t]) with (l0 ++ [q] ++ [t]) in Hc, Hdup, Ho.
  rewrite app_assoc in Hc, Hdup, Ho.
  apply NoDup_app in Hdup as (Hdup & Hdisj & _).
  assert (t ∉ l0 ++ [q]) as Htnot.
  { intros Hin. apply (Hdisj t Hin), list_elem_of_here. }
  assert (q ≠ t) as Hqt. { intros ->. apply Htnot, elem_of_snoc_last. }
  apply lseg_snoc in Hc as (Hc & ndt & Ht & _).
  apply lseg_snoc in Hc as (Hseg & ndq & Hq & Hnext).
  apply NoDup_app in Hdup as (_ & Hdisj0 & _).
  assert (∀ m, m ≠ q → m ≠ t → nodes (poplasted b q t h) !! m = nodes h !! m) as Hne.
  { intros m Hmq Hmt. unfold poplasted. simpl. by rewrite !list_lookup_alter_ne. }
  assert (∀ m, owner (poplasted b q t h) m = if decide (m = t) then None else owner h m)
    as Hown.
  { intros m. unfold owner, poplasted. simpl.
    destruct (decide (m = t)) as [-> | Hmt].
    - rewrite !list_lookup_alter_eq. rewrite list_lookup_alter_ne by done.
      by rewrite Ht.
    - rewrite !list_lookup_alter_ne by done. rewrite list_lookup_alter.
      destruct (decide (q = m)) as [-> | ?]; [|done]. by rewrite Hq. }
  apply (consistent_update h _ b (mk_base (b_first B) (Some q)) (l0 ++ [q])); try done.
  - by apply lookup_lt_Some in Hb.
  - unfold poplasted. simpl. by rewrite !length_alter.
  - intros b' Hb'. unfold poplasted. simpl. by rewrite !list_lookup_alter_ne.
  - unfold poplasted. simpl. by rewrite !list_lookup_alter_eq, Hb.
  - unfold chain. apply lseg_snoc. split.
    + apply lseg_ext with (nodes h); [|done]. intros m Hm. rewrite Hne; [done | |].
      * intros ->. apply (Hdisj0 q Hm), list_elem_of_here.
      * intros ->. by apply Htnot, elem_of_snoc_init.
    + exists (set_next None ndq). split; [|done]. unfold poplasted. simpl.
      rewrite !list_lookup_alter_ne by done.
      by rewrite list_lookup_alter_eq, Hq.
  - by rewrite last_snoc.
  - intros m. rewrite Hown. destruct (decide (m = t)) as [-> | Hmt].
    + split; [done | discriminate].
    + rewrite <- Ho. split; [apply elem_of_snoc_init |].
      intros Hin. apply elem_of_app in Hin as [? | Hin]; [done |].
      by apply list_elem_of_singleton in Hin.
  - intros m Hm Hnin. apply Hne.
    + intros ->. apply Hnin, elem_of_snoc_last.
    + intros ->. apply Hm, Ho, elem_of_snoc_last.
  - intros m Hm. left. by apply Ho, elem_of_snoc_init.
  - intros m Hm Hnin. rewrite Hown. apply Ho, elem_of_app in Hm as [Hm | Hm]; [done |].
    apply list_elem_of_singleton in Hm as ->. by rewrite decide_True.
Qed.

Lemma Poplast_consistent fuel h p r h' :
  consistent h → valid_ptr (bases h) p →
  Poplast fuel p h = Return r h' → consistent h'.
Proof.
  intros Hcons Hp Hrun. destruct p as [b|]; [|by injection Hrun as _ <-].
  apply lookup_lt_is_Some in Hp as (B & Hb).
  destruct (consistent_base h b B Hcons Hb) as (l & Hc & Hlast & Ho).
  destruct l as [|a l].
  { apply chain_nil in Hc. unfold Poplast in Hrun.
    rewrite (bind_Return _ _ _ _ _ (load_base_Return _ _ _ Hb)) in Hrun.
    rewrite decide_True in Hrun by done. by injection Hrun as _ <-. }
  pose proof Hc as (Hf & nd & Ha & _).
  destruct l as [|a' l _] using rev_ind.
  { rewrite (Poplast_only h fuel b B a nd) in Hrun; try done.
    injection Hrun as _ <-. by eapply popped_only_consistent. }
  assert (∃ l0 q, a :: l = l0 ++ [q]) as (l0 & q & Hsplit).
  { destruct l as [|q l0 _] using rev_ind; [by exists [], a |].
    exists (a :: l0), q. done. }
  rename a' into t.
  change (a :: l ++ [t]) with ((a :: l) ++ [t]) in *. rewrite Hsplit in *.
  rewrite <- app_assoc in *. change ([q] ++ [t]) with [q; t] in *.
  rewrite last_app in Hlast. simpl in Hlast.
  pose proof (chain_NoDup _ _ _ Hc) as Hdup. pose proof Hc as Hc0.
  change (l0 ++ [q; t]) with (l0 ++ [q] ++ [t]) in Hc, Hdup.
  rewrite app_assoc in Hc, Hdup.
  apply NoDup_app in Hdup as (_ & Hdisj & _).
  apply lseg_snoc in Hc as (Hc & ndt & Ht & _).
  apply lseg_snoc in Hc as (Hseg & ndq & Hq & Hnext).
  assert (t ∉ l0 ++ [q]) as Htnot.
  { intros Hin. apply (Hdisj t Hin), list_elem_of_here. }
  destruct (Poplast_tail h fuel b B l0 q ndq t ndt) as [Hok Hout]; try done.
  - congruence.
  - rewrite Hf. intros [= ->]. apply Htnot. rewrite <- Hsplit. apply list_elem_of_here.
  - intros m ndm Hm Hndm. by eapply (chain_pred_unique _ _ l0 q t []).
  - intros ->. apply Htnot, elem_of_snoc_last.
  - destruct (decide (length l0 < fuel)) as [Hlt | Hge].
    + rewrite (Hok Hlt) in Hrun. injection Hrun as _ <-.
      by eapply poplasted_consistent.
    + rewrite Hout in Hrun by lia. done.
Qed.

End Poplast.

(** ** Removal of a given node *)

Section Remove.
Context {V : Type}.
Implicit Types (h : heap V) (ns : list (List_node V)) (l : list nat).

Lemma Remove_scan_finds lpre : ∀ x h fuel q pr ndp,
  lseg (nodes h) x lpre (Some pr) →
  (∀ m nd, m ∈ lpre → nodes h !! m = Some nd → n_next nd ≠ q) →
  nodes h !! pr = Some ndp → n_next ndp = q →
  (length lpre < fuel → Remove_scan fuel x q h = Return (Some pr) h) ∧
  (fuel ≤ length lpre → Remove_scan fuel x q h = OutOfFuel).
Proof.
  induction lpre as [|m lpre IH]; intros x h fuel q pr ndp Hseg Hpre Hp Hnext.
  - simpl in Hseg. subst x. destruct fuel as [|fuel]; simpl.
    + split; [lia | done].
    + split; [|lia]. intros _.
      rewrite (bind_Return _ _ _ _ _ (load_node_Return _ _ _ Hp)).
      by rewrite decide_True.
  - destruct Hseg as (-> & nd & Hm & Hseg). destruct fuel as [|fuel]; simpl.
    + split; [lia | done].
    + rewrite (bind_Return _ _ _ _ _ (load_node_Return _ _ _ Hm)).
      rewrite decide_False by (apply (Hpre m); [apply list_elem_of_here | done]).
      destruct (IH (n_next nd) h fuel q pr ndp) as [IHok IHout]; try done.
      { intros m' nd' Hm'. apply Hpre. by apply list_elem_of_further. }
      split; intros ?; [apply IHok | apply IHout]; lia.
Qed.

(** [Remove] of the head does what [Popfirst] does. *)
Lemma Remove_head h fuel b B n nd :
  bases h !! b = Some B → b_first B = Some n → b_last B ≠ None →
  nodes h !! n = Some nd → n_base nd = Some b →
  Remove fuel (Some b) (Some n) h = Return (Some n, None) (popped b B n nd h).
Proof.
  intros Hb Hf Hl Hn Ho. unfold Remove, popped.
  rewrite (bind_Return _ _ _ _ _ (load_base_Return _ _ _ Hb)).
  rewrite decide_False, decide_False by congruence.
  rewrite (bind_Return _ _ _ _ _ (load_node_Return _ _ _ Hn)).
  rewrite decide_False by (intros Hne; by apply Hne).
  rewrite decide_True by done.
  set (h1 := if decide (b_last B = b_first B)
             then upd_base b (set_last None) h else h).
  assert (((if decide (b_last B = b_first B)
            then store_base b (set_last None) else mret tt) : M V unit) h
          = Return tt h1) as H1.
  { subst h1. destruct (decide (b_last B = b_first B)); [|done].
    by apply store_base_Return with B. }
  assert (is_Some (bases h1 !! b)) as (B1 & Hb1).
  { subst h1. destruct (decide (b_last B = b_first B)); [|eauto].
    simpl. rewrite alter_is_Some. eauto. }
  assert (nodes h1 !! n = Some nd) as Hn1.
  { subst h1. by destruct (decide (b_last B = b_first B)). }
  rewrite (bind_Return _ _ _ _ _ H1).
  rewrite (bind_Return _ _ _ _ _ (load_node_Return _ _ _ Hn1)).
  rewrite (bind_Return _ _ _ _ _ (store_base_Return _ _ _ _ Hb1)).
  by rewrite (bind_Return _ _ _ _ _ (unlink_Return (upd_base _ _ h1) _ _ Hn1)).
Qed.

Lemma Remove_inner h fuel b B lpre pr ndp n nd :
  bases h !! b = Some B → b_first B ≠ None → b_last B ≠ None →
  b_first B ≠ Some n →
  nodes h !! n = Some nd → n_base nd = Some b →
  lseg (nodes h) (b_first B) lpre (Some pr) →
  (∀ m ndm, m ∈ lpre → nodes h !! m = Some ndm → n_next ndm ≠ Some n) →
  nodes h !! pr = Some ndp → n_next ndp = Some n → pr ≠ n →
  (length lpre < fuel →
   Remove fuel (Some b) (Some n) h = Return (Some n, None) (removed b B pr n nd h)) ∧
  (fuel ≤ length lpre → Remove fuel (Some b) (Some n) h = OutOfFuel).
Proof.
  intros Hb Hf Hl Hfn Hn Ho Hseg Hpre Hp Hnext Hpn. unfold Remove, removed.
  rewrite (bind_Return _ _ _ _ _ (load_base_Return _ _ _ Hb)).
  rewrite decide_False, decide_False by congruence.
  rewrite (bind_Return _ _ _ _ _ (load_node_Return _ _ _ Hn)).
  rewrite decide_False by (intros Hne; by apply Hne).
  rewrite decide_False by done.
  destruct (Remove_scan_finds lpre (b_first B) h fuel (Some n) pr ndp) as [Hok Hout];
    try done.
  split; intros Hfuel.
  - rewrite (bind_Return _ _ _ _ _ (Hok Hfuel)).
    rewrite (bind_Return _ _ _ _ _ (load_node_Return _ _ _ Hn)).
    rewrite (bind_Return _ _ _ _ _ (store_node_Return _ _ _ _ Hp)).
    set (h1 := upd_node pr (set_next (n_next nd)) h).
    assert (bases h1 !! b = Some B) as Hb1 by done.
    rewrite (bind_Return _ _ _ _ _ (load_base_Return _ _ _ Hb1)).
    set (h2 := (if decide (b_last B = Some n)
                then upd_base b (set_last (Some pr)) else id) h1).
    assert (((if decide (b_last B = Some n)
              then store_base b (set_last (Some pr)) else mret tt) : M V unit) h1
            = Return tt h2) as H2.
    { subst h2. destruct (decide (b_last B = Some n)); [|done].
      by apply store_base_Return with B. }
    assert (nodes h2 !! n = Some nd) as Hn2.
    { subst h2 h1. destruct (decide (b_last B = Some n)); simpl;
        by rewrite list_lookup_alter_ne. }
    rewrite (bind_Return _ _ _ _ _ H2).
    by rewrite (bind_Return _ _ _ _ _ (unlink_Return _ _ _ Hn2)).
  - unfold mbind, M_bind. by rewrite (Hout Hfuel).
Qed.

Lemma removed_consistent h b B l1 pr n l2 nd :
  consistent h → bases h !! b = Some B →
  chain (nodes h) (b_first B) ((l1 ++ [pr]) ++ n :: l2) →
  b_last B = last ((l1 ++ [pr]) ++ n :: l2) →
  (∀ m, m ∈ (l1 ++ [pr]) ++ n :: l2 ↔ owner h m = Some b) →
  nodes h !! n = Some nd →
  consistent (removed b B pr n nd h).
Proof.
  intros Hcons Hb Hc Hl Ho Hn.
  pose proof (chain_NoDup _ _ _ Hc) as Hdup.
  apply NoDup_app in Hdup as (Hdup1 & Hdisj & Hdup2).
  apply NoDup_cons in Hdup2 as (Hnl2 & _).
  apply NoDup_app in Hdup1 as (_ & Hdisj1 & _).
  assert (pr ≠ n) as Hpn.
  { intros ->. apply (Hdisj n); [apply elem_of_snoc_last | apply list_elem_of_here]. }
  apply lseg_app in Hc as (y & Hpre & Hn2). pose proof Hn2 as (-> & nd' & Hn' & Hc2).
  rewrite Hn in Hn'. injection Hn' as <-.
  apply lseg_snoc in Hpre as (Hseg & ndp & Hp & Hnext).
  assert (∀ m, m ≠ pr → m ≠ n → nodes (removed b B pr n nd h) !! m = nodes h !! m)
    as Hne.
  { intros m Hmp Hmn. unfold removed. simpl.
    rewrite !list_lookup_alter_ne by done.
    destruct (decide (b_last B = Some n)); simpl; by rewrite list_lookup_alter_ne. }
  assert (nodes (removed b B pr n nd h) !! pr = Some (set_next (n_next nd) ndp)) as Hp'.
  { unfold removed. simpl. rewrite !list_lookup_alter_ne by done.
    destruct (decide (b_last B = Some n)); simpl; by rewrite list_lookup_alter_eq, Hp. }
  assert (∀ m, owner (removed b B pr n nd h) m = if decide (m = n) then None else owner h m)
    as Hown.
  { intros m. unfold owner. destruct (decide (m = n)) as [-> | Hmn].
    - unfold removed. simpl. rewrite !list_lookup_alter_eq.
      destruct (decide (b_last B = Some n)); simpl;
        rewrite list_lookup_alter_ne by done; by rewrite Hn.
    - destruct (decide (m = pr)) as [-> | Hmp].
      + by rewrite Hp', Hp.
      + by rewrite Hne. }
  apply (consistent_update h _ b
           (mk_base (b_first B) (if decide (b_last B = Some n) then Some pr else b_last B))
           ((l1 ++ [pr]) ++ l2)); try done.
  - by apply lookup_lt_Some in Hb.
  - unfold removed. simpl. destruct (decide (b_last B = Some n)); simpl;
      by rewrite ?length_alter.
  - intros b' Hb'. unfold removed. simpl.
    destruct (decide (b_last B = Some n)); simpl; [|done].
    by rewrite list_lookup_alter_ne.
  - unfold removed. simpl. destruct (decide (b_last B = Some n)); simpl.
    + by rewrite list_lookup_alter_eq, Hb.
    + rewrite Hb. by destruct B.
  - unfold chain. apply lseg_app. exists (n_next nd). split.
    + apply lseg_snoc. split; [|eauto].
      apply lseg_ext with (nodes h); [|done]. intros m Hm. rewrite Hne; [done | |].
      * intros ->. apply (Hdisj1 pr Hm), list_elem_of_here.
      * intros ->. apply (Hdisj n); [by apply elem_of_snoc_init | apply list_elem_of_here].
    + apply lseg_ext with (nodes h); [|done]. intros m Hm. rewrite Hne; [done | |].
      * intros ->. apply (Hdisj pr); [apply elem_of_snoc_last | by apply list_elem_of_further].
      * by intros ->.
  - cbn [b_last]. rewrite Hl. destruct l2 as [|m l2 _] using rev_ind.
    + rewrite app_nil_r, last_snoc.
      change ((l1 ++ [pr]) ++ [n]) with ((l1 ++ [pr]) ++ [n]).
      by rewrite last_snoc, decide_True.
    + rewrite app_assoc, last_snoc.
      change (n :: l2 ++ [m]) with ((n :: l2) ++ [m]).
      rewrite app_assoc, last_snoc. rewrite decide_False; [done |].
      intros [= ->]. apply Hnl2, elem_of_snoc_last.
  - intros m. rewrite Hown. destruct (decide (m = n)) as [-> | Hmn].
    + split; [|discriminate]. intros Hin. exfalso.
      apply elem_of_app in Hin as [Hin | Hin]; [|done].
      apply (Hdisj n Hin), list_elem_of_here.
    + rewrite <- Ho, !elem_of_app, !elem_of_cons. tauto.
  - intros m Hm Hnin. apply Hne.
    + intros ->. apply Hnin, elem_of_app. left. apply elem_of_snoc_last.
    + intros ->. apply Hm, Ho, elem_of_app. right. apply list_elem_of_here.
  - intros m Hm. left. apply Ho. apply elem_of_app in Hm as [Hm | Hm].
    + apply elem_of_app. by left.
    + apply elem_of_app. right. by apply list_elem_of_further.
  - intros m Hm Hnin. rewrite Hown. destruct (decide (m = n)); [done |]. exfalso.
    apply Hnin. apply Ho in Hm. rewrite !elem_of_app, !elem_of_cons in Hm.
    rewrite !elem_of_app, !elem_of_cons. tauto.
Qed.

Lemma Remove_consistent fuel h p q r h' :
  consistent h → valid_ptr (bases h) p → valid_ptr (nodes h) q →
  Remove fuel p q h = Return r h' → consistent h'.
Proof.
  intros Hcons Hp Hq Hrun. destruct p as [b|]; [|by injection Hrun as _ <-].
  destruct q as [n|]; [|by injection Hrun as _ <-].
  apply lookup_lt_is_Some in Hp as (B & Hb).
  apply lookup_lt_is_Some in Hq as (nd & Hn).
  destruct (decide (b_first B = None ∨ b_last B = None ∨ n_base nd ≠ Some b))
    as [Hsame | Hgo].
  { unfold Remove in Hrun.
    rewrite (bind_Return _ _ _ _ _ (load_base_Return _ _ _ Hb)) in Hrun.
    destruct (decide (b_first B = None)); [by injection Hrun as _ <- |].
    destruct (decide (b_last B = None)); [by injection Hrun as _ <- |].
    rewrite (bind_Return _ _ _ _ _ (load_node_Return _ _ _ Hn)) in Hrun.
    rewrite decide_True in Hrun by tauto. by injection Hrun as _ <-. }
  assert (b_first B ≠ None ∧ b_last B ≠ None ∧ n_base nd = Some b)
    as (Hf & Hl & Hown).
  { repeat split.
    - tauto.
    - tauto.
    - destruct (decide (n_base nd = Some b)); tauto. }
  destruct (decide (b_first B = Some n)) as [Hhead | Hnothead].
  { rewrite (Remove_head h fuel b B n nd) in Hrun by done.
    injection Hrun as _ <-. by apply popped_consistent. }
  destruct (consistent_base h b B Hcons Hb) as (l & Hc & Hlast & Ho).
  assert (n ∈ l) as Hin. { apply Ho, owner_Some. eauto. }
  apply list_elem_of_split in Hin as (la & l2 & ->).
  destruct la as [|pr l1 _] using rev_ind.
  { destruct Hc as (Hfn & _). done. }
  pose proof Hc as Hc0.
  apply lseg_app in Hc as (y & Hpre & Hn2). pose proof Hn2 as (-> & _).
  apply lseg_snoc in Hpre as (Hseg & ndp & Hp & Hnext).
  destruct (Remove_inner h fuel b B l1 pr ndp n nd) as [Hok Hout]; try done.
  - intros m ndm Hm Hndm.
    apply (chain_pred_unique (nodes h) (b_first B) l1 pr n l2 m ndm); try done.
    by rewrite <- app_assoc in Hc0.
  - intros ->. apply chain_NoDup, NoDup_app in Hc0 as (_ & Hdisj & _).
    apply (Hdisj n); [apply elem_of_snoc_last | apply list_elem_of_here].
  - destruct (decide (length l1 < fuel)) as [Hlt | Hge].
    + rewrite (Hok Hlt) in Hrun. injection Hrun as _ <-.
      by eapply removed_consistent.
    + rewrite Hout in Hrun by lia. done.
Qed.

End Remove.

(** ** Every reachable heap is consistent *)

Section Reachable.
Context {V : Type}.
Implicit Types (h : heap V) (ns : list (List_node V)) (l : list nat).

Lemma exec_consistent fuel h c r h' :
  consistent h → valid_call h c → exec fuel c h = Return r h' → consistent h'.
Proof.
  intros Hcons [Hp Hq] Hrun.
  destruct c; simpl in Hp, Hq; unfold exec, mbind, M_bind in Hrun.
  - destruct (Empty p h) as [x h1| |] eqn:Hop; [|done..].
    apply Empty_pure in Hop as ->. by injection Hrun as _ <-.
  - destruct (GetFirst p h) as [x h1| |] eqn:Hop; [|done..].
    apply GetFirst_pure in Hop as ->. by injection Hrun as _ <-.
  - destruct (Length fuel p h) as [x h1| |] eqn:Hop; [|done..].
    apply Length_pure in Hop as ->. by injection Hrun as _ <-.
  - destruct (ValidLength fuel p h) as [x h1| |] eqn:Hop; [|done..].
    apply ValidLength_pure in Hop as ->. by injection Hrun as _ <-.
  - destruct (Append p pnode h) as [x h1| |] eqn:Hop; [|done..].
    injection Hrun as _ <-. by eapply Append_consistent.
  - destruct (AppendValue p v h) as [x h1| |] eqn:Hop; [|done..].
    injection Hrun as _ <-. by eapply AppendValue_consistent.
  - destruct (Prepend p pnode h) as [x h1| |] eqn:Hop; [|done..].
    injection Hrun as _ <-. by eapply Prepend_consistent.
  - destruct (PrependValue p v h) as [x h1| |] eqn:Hop; [|done..].
    injection Hrun as _ <-. by eapply PrependValue_consistent.
  - destruct (Popfirst p h) as [x h1| |] eqn:Hop; [|done..].
    injection Hrun as _ <-. by eapply Popfirst_consistent.
  - destruct (Poplast fuel p h) as [x h1| |] eqn:Hop; [|done..].
    injection Hrun as _ <-. by eapply Poplast_consistent.
  - destruct (Found fuel p q h) as [x h1| |] eqn:Hop; [|done..].
    apply Found_pure in Hop as ->. by injection Hrun as _ <-.
  - destruct (Remove fuel p q h) as [x h1| |] eqn:Hop; [|done..].
    injection Hrun as _ <-. by eapply Remove_consistent.
  - destruct (Clear fuel p h) as [x h1| |] eqn:Hop; [|done..].
    injection Hrun as _ <-. by eapply Clear_consistent.
Qed.

Lemma step_consistent h h' : step h h' → consistent h → consistent h'.
Proof.
  intros Hstep Hcons. destruct Hstep as
    [h p h' Hrun | h p h' Hrun | h p h' Hrun | h q v E h' Hq Hrun
    | h fuel c r h' Hc Hrun | h p b E h' Hp Hb Hrun | h p E h' Hp Hrun
    | h p r h' Hp Hrun].
  - by eapply new_base_consistent.
  - by eapply new_node_consistent.
  - injection Hrun as _ <-. by apply (consistent_same h).
  - by eapply SetValue_consistent.
  - by eapply exec_consistent.
  - apply Init_same in Hrun as [? ?]. by apply (consistent_same h).
  - apply Restart_same in Hrun as [? ?]. by apply (consistent_same h).
  - apply Next_same in Hrun as [? ?]. by apply (consistent_same h).
Qed.

Lemma reachable_consistent h : reachable h → consistent h.
Proof.
  unfold reachable. intros Hr.
  apply (rtc_ind_r (R:=step) (λ h, consistent h) empty_heap); [| |exact Hr].
  - apply consistent_empty.
  - intros h1 h2 _ Hstep IH. by eapply step_consistent.
Qed.

End Reachable.

(** C5: in every heap a client can reach from the empty heap by creating
    objects and calling the exported methods, [Append], [AppendValue],
    [Prepend], [PrependValue], [Popfirst], [Poplast], [Remove] and
    [Clear] among them, every node reachable by following [next] from
    the [first] of a container has that container as its base-pointer. *)
Theorem reachable_nodes_owned {V} (h : heap V) (b : nat) (B : List_base) (n : nat) :
  reachable h → bases h !! b = Some B →
  reaches (nodes h) (b_first B) n → owner h n = Some b.
Proof.
  intros Hr Hb Hn. apply reachable_consistent in Hr.
  destruct (consistent_base h b B Hr Hb) as (l & Hc & _ & Ho).
  apply Ho. by eapply reaches_chain.
Qed.

Lemma reachable_nodes_owned_witness :
  reachable two_lists_heap ∧
  bases two_lists_heap !! 0 = Some (mk_base (Some 0) (Some 0)) ∧
  reaches (nodes two_lists_heap) (Some 0) 0 ∧
  owner two_lists_heap 0 = Some 0.
Proof.
  assert (reachable two_lists_heap) as Hr.
  { unfold reachable.
    eapply rtc_l; [by eapply step_new_base |].
    eapply rtc_l; [by eapply step_new_base |].
    eapply rtc_l; [|apply rtc_refl].
    apply (step_call _ 0 (CAppendValue (Some 0) (Some 7%Z)) (RErr None)).
    - split; simpl; [lia | done].
    - reflexivity. }
  assert (reaches (nodes two_lists_heap) (Some 0) 0) as Hn by constructor.
  split; [exact Hr |]. split; [reflexivity |]. split; [exact Hn |].
  apply (reachable_nodes_owned two_lists_heap 0 (mk_base (Some 0) (Some 0)) 0 Hr);
    [reflexivity | exact Hn].
Defined.

(** ** One well-formed container in any heap *)

Section Local.
Context {V : Type}.
Implicit Types (h : heap V) (ns : list (List_node V)) (l : list nat).

Lemma wf_base_frame h h' b l :
  wf_base h b l → bases h' !! b = bases h !! b →
  (∀ m, m ∈ l → nodes h' !! m = nodes h !! m) → wf_base h' b l.
Proof.
  intros (B & Hb & Hc & Hl & Ho) Hbases Hnodes.
  exists B. rewrite Hbases. repeat split; try done.
  - apply lseg_ext with (nodes h); [|done]. intros m Hm. by rewrite Hnodes.
  - intros m Hm. rewrite <- (Ho m Hm). apply owner_ext. by apply Hnodes.
Qed.

Lemma wf_base_allocated h b l m : wf_base h b l → m ∈ l → m < length (nodes h).
Proof.
  intros (B & _ & _ & _ & Ho) Hm.
  destruct (proj1 (owner_Some h m b) (Ho m Hm)) as (nd & Hnd & _).
  by apply lookup_lt_Some in Hnd.
Qed.

Lemma wf_base_empty h p h' :
  new_base h = Return p h' →
  p = Some (length (bases h)) ∧ wf_base h' (length (bases h)) [] ∧
  nodes h' = nodes h ∧ iters h' = iters h.
Proof.
  intros [= <- <-]. repeat split.
  exists (mk_base None None). simpl. repeat split.
  - by rewrite lookup_app_r, Nat.sub_diag.
  - intros n Hn. by apply not_elem_of_nil in Hn.
Qed.

(** Assignments to [next] and [base] keep the payload. *)
Lemma appended_value h b t n m :
  n_value <$> nodes (appended b t n h) !! m = n_value <$> nodes h !! m.
Proof.
  rewrite appended_nodes.
  assert (∀ (f : List_node V → List_node V) i ns,
            (∀ nd, n_value (f nd) = n_value nd) →
            n_value <$> alter f i ns !! m = n_value <$> ns !! m) as Hkeep.
  { intros f i ns Hf. rewrite list_lookup_alter.
    destruct (decide (i = m)) as [-> | ?]; [|done].
    destruct (ns !! m); simpl; [by rewrite Hf | done]. }
  destruct t as [t|]; unfold id; by rewrite !Hkeep.
Qed.

(** [AppendValue] on a well-formed container, anywhere in any heap: the
    new node is at the end of the arena and at the end of the chain. *)
Lemma AppendValue_wf h b l v :
  wf_base h b l →
  ∃ h', AppendValue (Some b) v h = Return None h' ∧
        wf_base h' b (l ++ [length (nodes h)]) ∧
        n_value <$> nodes h' !! length (nodes h) = Some v ∧
        (∀ m, m < length (nodes h) →
              n_value <$> nodes h' !! m = n_value <$> nodes h !! m) ∧
        length (nodes h') = S (length (nodes h)) ∧
        iters h' = iters h.
Proof.
  intros Hwf. set (n := length (nodes h)). set (h1 := with_fresh_node v h).
  assert (∀ m, m < n → nodes h1 !! m = nodes h !! m) as Hold.
  { intros m Hm. subst h1. unfold with_fresh_node. simpl.
    rewrite list_lookup_alter_ne by (subst n; lia). by rewrite lookup_app_l. }
  assert (wf_base h1 b l) as Hwf1.
  { apply (wf_base_frame h); [done | done |].
    intros m Hm. apply Hold. by eapply wf_base_allocated. }
  assert (n ∉ l) as Hnl.
  { intros Hin. apply (wf_base_allocated h b l n Hwf) in Hin. subst n. lia. }
  pose proof (fresh_node_lookup h v) as Hn. fold n h1 in Hn.
  destruct Hwf1 as (B & Hb & Hc & Hl & Ho).
  assert (Append (Some b) (Some n) h1 = Return None (appended b (b_last B) n h1))
    as Happ.
  { apply (Append_appends h1 b B n _ Hb Hn); [done |].
    intros t Ht. rewrite Hl in Ht.
    apply last_Some in Ht as (l0 & ->).
    destruct (proj1 (owner_Some h1 t b)) as (nd & -> & _); [|eauto].
    apply Ho, elem_of_snoc_last. }
  exists (appended b (b_last B) n h1). repeat split.
  - unfold AppendValue. rewrite fresh_node_run. fold n h1.
    by rewrite (bind_Return _ _ _ _ _ Happ).
  - eexists. split; [by apply appended_base |]. repeat split.
    + by apply (appended_chain h1 b B l n _ Hc Hl Hnl Hn).
    + by rewrite last_snoc.
    + intros m Hm. rewrite appended_owner by eauto.
      destruct (decide (m = n)); [done |].
      apply elem_of_app in Hm as [Hm | Hm]; [by apply Ho |].
      by apply list_elem_of_singleton in Hm.
  - by rewrite appended_value, Hn.
  - intros m Hm. by rewrite appended_value, Hold.
  - rewrite appended_nodes. subst h1. unfold with_fresh_node. simpl.
    destruct (b_last B); unfold id; rewrite !length_alter, length_app; simpl; lia.
  - unfold appended. by destruct (b_last B).
Qed.

Lemma iter_at_moved h i b cur cur' :
  iter_at h i b cur → iter_at (upd_iter i (set_current cur') h) i b cur'.
Proof.
  intros (it & Hi & Hb & _). exists (set_current cur' it).
  split; [|done]. simpl. by rewrite list_lookup_alter_eq, Hi.
Qed.

Lemma Next_first h i b B a nd :
  iter_at h i b None → bases h !! b = Some B → b_first B = Some a →
  nodes h !! a = Some nd → n_base nd = Some b →
  Next (Some i) h = Return (Some a, None) (upd_iter i (set_current (Some a)) h).
Proof.
  intros (it & Hi & Hib & Hic) Hb Hf Ha Ho. unfold Next.
  rewrite (bind_Return _ _ _ _ _ (load_iter_Return _ _ _ Hi)).
  rewrite Hib, Hic.
  rewrite (bind_Return _ _ _ _ _ (load_base_Return _ _ _ Hb)).
  rewrite (bind_Return _ _ _ _ _ (store_iter_Return _ _ _ _ Hi)).
  rewrite (bind_Return _ _ _ _ _
             (load_iter_Return _ _ _ (upd_iter_lookup _ _ _ _ Hi))).
  rewrite Hf. simpl.
  rewrite (bind_Return _ _ _ _ _ (load_node_Return (upd_iter _ _ h) _ _ Ha)).
  rewrite Hib.
  by rewrite decide_False, decide_False by (rewrite Ho; auto).
Qed.

Lemma Next_empty h i b B :
  iter_at h i b None → bases h !! b = Some B → b_first B = None →
  Next (Some i) h = Return (None, None) (upd_iter i (set_current None) h).
Proof.
  intros (it & Hi & Hib & Hic) Hb Hf. unfold Next.
  rewrite (bind_Return _ _ _ _ _ (load_iter_Return _ _ _ Hi)).
  rewrite Hib, Hic.
  rewrite (bind_Return _ _ _ _ _ (load_base_Return _ _ _ Hb)).
  rewrite (bind_Return _ _ _ _ _ (store_iter_Return _ _ _ _ Hi)).
  rewrite (bind_Return _ _ _ _ _
             (load_iter_Return _ _ _ (upd_iter_lookup _ _ _ _ Hi))).
  by rewrite Hf.
Qed.

Lemma Next_advance h i b c nd c' :
  iter_at h i b (Some c) → nodes h !! c = Some nd → n_base nd = Some b →
  n_next nd = Some c' →
  Next (Some i) h = Return (Some c', None) (upd_iter i (set_current (Some c')) h).
Proof.
  intros (it & Hi & Hib & Hic) Hc Ho Hn. unfold Next.
  rewrite (bind_Return _ _ _ _ _ (load_iter_Return _ _ _ Hi)).
  rewrite Hib, Hic.
  rewrite (bind_Return _ _ _ _ _ (load_node_Return _ _ _ Hc)).
  rewrite decide_False, decide_False, decide_False by (rewrite ?Ho, ?Hn; auto).
  rewrite (bind_Return _ _ _ _ _ (store_iter_Return _ _ _ _ Hi)).
  rewrite (bind_Return _ _ _ _ _
             (load_iter_Return _ _ _ (upd_iter_lookup _ _ _ _ Hi))).
  by rewrite Hn.
Qed.

Lemma traverse_positioned l2 : ∀ h i b c fuel,
  iter_at h i b (Some c) → chain (nodes h) (Some c) (c :: l2) →
  (∀ m, m ∈ c :: l2 → owner h m = Some b) → length l2 < fuel →
  ∃ h', traverse fuel (Some i) h = Return (Some <$> l2, None) h' ∧
        cursor_moved h i b h'.
Proof.
  induction l2 as [|c' l2 IH]; intros h i b c fuel Hit Hc Ho Hfuel;
    (destruct fuel as [|fuel]; [simpl in Hfuel; lia |]);
    destruct Hc as (_ & nd & Hnd & Hc);
    pose proof (Ho c (list_elem_of_here _ _)) as Hoc;
    apply owner_Some in Hoc as (nd' & Hnd' & Hoc);
    rewrite Hnd in Hnd'; injection Hnd' as <-.
  - simpl in Hc. destruct Hit as (it & Hi & Hib & Hic).
    exists h. split; [|by repeat split; exists (Some c), it].
    simpl. by rewrite (bind_Return _ _ _ _ _ (Next_at_end h i it b c nd Hi Hib Hic Hnd Hoc Hc)).
  - pose proof Hc as (Hnext & _).
    set (h1 := upd_iter i (set_current (Some c')) h).
    destruct (IH h1 i b c' fuel) as (h' & Hrun & Hn & Hb & cur & Hcur).
    + by apply (iter_at_moved h i b (Some c)).
    + rewrite <- Hnext. exact Hc.
    + intros m Hm. apply (Ho m). by apply list_elem_of_further.
    + simpl in Hfuel. lia.
    + exists h'. split; [|by repeat split; eauto].
      cbn [traverse].
      rewrite (bind_Return _ _ _ _ _ (Next_advance h i b c nd c' Hit Hnd Hoc Hnext)).
      cbn [fst snd]. fold h1. by rewrite (bind_Return _ _ _ _ _ Hrun).
Qed.

Lemma traverse_unstarted h i b l fuel :
  wf_base h b l → iter_at h i b None → length l < fuel →
  ∃ h', traverse fuel (Some i) h = Return (Some <$> l, None) h' ∧
        cursor_moved h i b h'.
Proof.
  intros (B & Hb & Hc & _ & Ho) Hit Hfuel.
  destruct fuel as [|fuel]; [lia |].
  destruct l as [|a l].
  - apply chain_nil in Hc. exists (upd_iter i (set_current None) h). split.
    + simpl. by rewrite (bind_Return _ _ _ _ _ (Next_empty h i b B Hit Hb Hc)).
    + repeat split. exists None. by apply (iter_at_moved h i b None).
  - pose proof Hc as (Hf & nd & Hnd & _).
    pose proof (Ho a (list_elem_of_here _ _)) as Hoa.
    apply owner_Some in Hoa as (nd' & Hnd' & Hoa).
    rewrite Hnd in Hnd'. injection Hnd' as <-.
    set (h1 := upd_iter i (set_current (Some a)) h).
    destruct (traverse_positioned l h1 i b a fuel) as (h' & Hrun & Hn & Hbs & cur & Hcur).
    + by apply (iter_at_moved h i b None).
    + by rewrite Hf in Hc.
    + done.
    + simpl in Hfuel. lia.
    + exists h'. split; [|by repeat split; eauto].
      cbn [traverse].
      rewrite (bind_Return _ _ _ _ _ (Next_first h i b B a nd Hit Hb Hf Hnd Hoa)).
      cbn [fst snd]. fold h1. by rewrite (bind_Return _ _ _ _ _ Hrun).
Qed.

Lemma Restart_unstarts h i b cur :
  iter_at h i b cur →
  Restart (Some i) h = Return None (upd_iter i (set_current None) h) ∧
  iter_at (upd_iter i (set_current None) h) i b None.
Proof.
  intros Hit. split; [|by eapply iter_at_moved].
  destruct Hit as (it & Hi & _). unfold Restart.
  by rewrite (bind_Return _ _ _ _ _ (store_iter_Return _ _ _ _ Hi)).
Qed.

Lemma GetValue_Return h m nd :
  nodes h !! m = Some nd → GetValue (Some m) h = Return (n_value nd, None) h.
Proof.
  intros Hm. unfold GetValue.
  by rewrite (bind_Return _ _ _ _ _ (load_node_Return _ _ _ Hm)).
Qed.

Lemma payloads_read l : ∀ h vs,
  Forall2 (λ m v, n_value <$> nodes h !! m = Some v) l vs →
  payloads (Some <$> l) h = Return vs h.
Proof.
  induction l as [|m l IH]; intros h vs Hvs.
  - by apply Forall2_nil_inv_l in Hvs as ->.
  - apply Forall2_cons_inv_l in Hvs as (v & vs' & Hv & Hvs & ->).
    destruct (nodes h !! m) as [nd|] eqn:Hm; [|done].
    injection Hv as <-.
    change (payloads (V:=V) (Some <$> m :: l))
      with (r ← GetValue (V:=V) (Some m);
            vs ← payloads (Some <$> l); mret (r.1 :: vs)).
    rewrite (bind_Return _ _ _ _ _ (GetValue_Return h m nd Hm)).
    by rewrite (bind_Return _ _ _ _ _ (IH h vs' Hvs)).
Qed.

End Local.

(** ** Calls on a consistent heap return *)

Section Progress.
Context {V : Type}.
Implicit Types (h : heap V) (ns : list (List_node V)) (l : list nat).

(** A chain is no longer than the arena. *)
Lemma chain_length ns x l : chain ns x l → length l ≤ length ns.
Proof.
  intros Hc. pose proof (chain_NoDup _ _ _ Hc) as Hdup.
  assert (∀ m, m ∈ l → m ∈ seq 0 (length ns)) as Hin.
  { intros m Hm. apply elem_of_seq. split; [lia |]. simpl.
    apply list_elem_of_split in Hm as (l1 & l2 & ->).
    apply lseg_app in Hc as (y & _ & _ & nd & Hnd & _).
    by apply lookup_lt_Some in Hnd. }
  pose proof (submseteq_length _ _ (NoDup_submseteq _ _ Hdup Hin)) as Hle.
  by rewrite length_seq in Hle.
Qed.

Lemma Length_loop_chain l : ∀ h fuel x n,
  chain (nodes h) x l → length l ≤ fuel →
  ∃ r, Length_loop fuel x n h = Return r h.
Proof.
  induction l as [|a l IH]; intros h fuel x n Hc Hfuel.
  - apply chain_nil in Hc as ->. exists n. by destruct fuel.
  - destruct Hc as (-> & nd & Hnd & Hc).
    destruct fuel as [|fuel]; [simpl in Hfuel; lia |]. simpl.
    rewrite (bind_Return _ _ _ _ _ (load_node_Return _ _ _ Hnd)).
    apply IH; [done | simpl in Hfuel; lia].
Qed.

Lemma ValidLength_loop_chain l : ∀ h fuel p x c,
  chain (nodes h) x l → length l ≤ fuel →
  ∃ r, ValidLength_loop fuel p x c h = Return r h.
Proof.
  induction l as [|a l IH]; intros h fuel p x [[c1 c2] c3] Hc Hfuel.
  - apply chain_nil in Hc as ->. eexists. by destruct fuel.
  - destruct Hc as (-> & nd & Hnd & Hc).
    destruct fuel as [|fuel]; [simpl in Hfuel; lia |]. simpl.
    rewrite (bind_Return _ _ _ _ _ (load_node_Return _ _ _ Hnd)).
    apply IH; [done | simpl in Hfuel; lia].
Qed.

Lemma Found_scan_chain l : ∀ h fuel x q,
  chain (nodes h) x l → length l ≤ fuel →
  ∃ r, Found_scan fuel x q h = Return r h.
Proof.
  induction l as [|a l IH]; intros h fuel x q Hc Hfuel.
  - apply chain_nil in Hc as ->. exists false. by destruct fuel.
  - destruct Hc as (-> & nd & Hnd & Hc).
    destruct fuel as [|fuel]; [simpl in Hfuel; lia |]. simpl.
    case_decide; [by exists true |].
    rewrite (bind_Return _ _ _ _ _ (load_node_Return _ _ _ Hnd)).
    apply IH; [done | simpl in Hfuel; lia].
Qed.

(** On a consistent heap a call with valid pointers and fuel for every
    node neither panics nor runs out of fuel. *)
Lemma exec_returns fuel h c :
  consistent h → valid_call h c → length (nodes h) ≤ fuel →
  ∃ r h', exec fuel c h = Return r h'.
Proof.
  intros Hcons [Hp Hq] Hfuel.
  assert (∀ b B, receiver c = Some b → bases h !! b = Some B →
            ∃ l, chain (nodes h) (b_first B) l ∧ b_last B = last l ∧
                 (∀ n, n ∈ l ↔ owner h n = Some b) ∧ length l ≤ fuel) as Hbase.
  { intros b B _ Hb. destruct (consistent_base h b B Hcons Hb) as (l & Hc & Hl & Ho).
    exists l. repeat split; try done; try apply Ho.
    pose proof (chain_length _ _ _ Hc). lia. }
  assert (∀ {A} (m : M V A) (f : A → retval),
            (∃ a h', m h = Return a h') →
            ∃ r h'', (x ← m; mret (f x)) h = Return r h'') as Hret.
  { intros A m f (a & h' & Hm). rewrite (bind_Return _ _ _ _ _ Hm).
    by eexists _, _. }
  destruct c; simpl in Hp, Hq, Hbase; unfold exec;
    (destruct p as [b|]; [|by eexists _, _]);
    apply lookup_lt_is_Some in Hp as (B & Hb);
    destruct (Hbase b B eq_refl Hb) as (l & Hc & Hl & Ho & Hlen).
  - (* Empty *)
    apply Hret. unfold Empty.
    rewrite (bind_Return _ _ _ _ _ (load_base_Return _ _ _ Hb)).
    destruct (decide _); by eexists _, _.
  - (* GetFirst *)
    apply Hret. unfold GetFirst.
    rewrite (bind_Return _ _ _ _ _ (load_base_Return _ _ _ Hb)). by eexists _, _.
  - (* Length *)
    destruct (Length_loop_chain l h fuel (b_first B) 0%Z Hc Hlen) as (r & Hr).
    apply Hret. unfold Length.
    rewrite (bind_Return _ _ _ _ _ (load_base_Return _ _ _ Hb)).
    destruct (decide _); [rewrite Hr |]; by eexists _, _.
  - (* ValidLength *)
    destruct (ValidLength_loop_chain l h fuel (Some b) (b_first B) (0, 0, 0)%Z Hc Hlen)
      as (r & Hr).
    apply Hret. unfold ValidLength.
    rewrite (bind_Return _ _ _ _ _ (load_base_Return _ _ _ Hb)).
    destruct (decide _); [|rewrite Hr]; by eexists _, _.
  - (* Append *)
    destruct pnode as [n|]; [|by eexists _, _].
    apply lookup_lt_is_Some in Hq as (nd & Hn).
    destruct (decide (n_base nd = None)) as [Hfree | Howned].
    + apply Hret. eexists _, _. apply (Append_appends h b B n nd Hb Hn Hfree).
      intros t Ht. by eapply consistent_tail.
    + destruct (Append_rejects h b n nd Hn Howned) as (e & He).
      apply Hret. by eexists _, _.
  - (* AppendValue *)
    destruct (AppendValue_wf h b l v) as (h' & Hrun & _).
    { exists B. repeat split; try done. by intros n; apply Ho. }
    apply Hret. by eexists _, _.
  - (* Prepend *)
    destruct pnode as [n|]; [|by eexists _, _].
    apply lookup_lt_is_Some in Hq as (nd & Hn).
    destruct (decide (n_base nd = None)) as [Hfree | Howned].
    + apply Hret. eexists _, _. by apply (Prepend_prepends h b B n nd).
    + destruct (Prepend_rejects h b n nd Hn Howned) as (e & He).
      apply Hret. by eexists _, _.
  - (* PrependValue *)
    apply Hret. unfold PrependValue. rewrite fresh_node_run.
    rewrite (bind_Return _ _ _ _ _
      (Prepend_prepends (with_fresh_node v h) b B _ _ Hb (fresh_node_lookup h v) eq_refl)).
    by eexists _, _.
  - (* Popfirst *)
    destruct (b_first B) as [a|] eqn:Hf.
    2:{ apply Hret. eexists _, _. by apply (Popfirst_first_nil h b B). }
    destruct (consistent_head h b B a Hcons Hb Hf) as (nd & Ha).
    apply Hret. eexists _, _. apply (Popfirst_pops h b B a nd Hb Hf); [|done].
    destruct l; [done |]. rewrite Hl. intros Hnone. by apply last_None in Hnone.
  - (* Poplast *)
    destruct l as [|a l].
    { apply chain_nil in Hc. apply Hret. unfold Poplast.
      rewrite (bind_Return _ _ _ _ _ (load_base_Return _ _ _ Hb)).
      rewrite decide_True by done. by eexists _, _. }
    pose proof Hc as (Hf & nd & Ha & _).
    destruct l as [|t l _] using rev_ind.
    { apply Hret. eexists _, _. by apply (Poplast_only h fuel b B a nd). }
    assert (∃ l0 q, a :: l = l0 ++ [q]) as (l0 & q & Hsplit).
    { destruct l as [|q l0 _] using rev_ind; [by exists [], a |].
      exists (a :: l0), q. done. }
    change (a :: l ++ [t]) with ((a :: l) ++ [t]) in *. rewrite Hsplit in *.
    rewrite last_snoc in Hl.
    pose proof (chain_NoDup _ _ _ Hc) as Hdup. pose proof Hc as Hc0.
    apply NoDup_app in Hdup as (_ & Hdisj & _).
    apply lseg_snoc in Hc as (Hc & ndt & Ht & _).
    apply lseg_snoc in Hc as (Hseg & ndq & Hq' & Hnext).
    assert (t ∉ l0 ++ [q]) as Htnot.
    { intros Hin. apply (Hdisj t Hin), list_elem_of_here. }
    destruct (Poplast_tail h fuel b B l0 q ndq t ndt) as [Hok _]; try done.
    + congruence.
    + rewrite Hf. intros [= ->]. apply Htnot. rewrite <- Hsplit.
      apply list_elem_of_here.
    + intros m ndm Hm Hndm.
      apply (chain_pred_unique (nodes h) (b_first B) l0 q t [] m ndm); try done.
      by rewrite <- app_assoc in Hc0.
    + intros ->. apply Htnot, elem_of_snoc_last.
    + apply Hret. eexists _, _. apply Hok.
      rewrite !length_app in Hlen. simpl in Hlen. lia.
  - (* Found *)
    destruct q as [n|]; [|by eexists _, _].
    apply lookup_lt_is_Some in Hq as (nd & Hn).
    destruct (Found_scan_chain l h fuel (b_first B) (Some n) Hc Hlen) as (r & Hr).
    apply Hret. unfold Found.
    rewrite (bind_Return _ _ _ _ _ (load_base_Return _ _ _ Hb)).
    destruct (decide _); [by eexists _, _ |].
    destruct (decide _); [by eexists _, _ |].
    rewrite (bind_Return _ _ _ _ _ (load_node_Return _ _ _ Hn)).
    destruct (decide _); [by eexists _, _ |].
    rewrite (bind_Return _ _ _ _ _ Hr). by eexists _, _.
  - (* Remove *)
    destruct q as [n|]; [|by eexists _, _].
    apply lookup_lt_is_Some in Hq as (nd & Hn).
    destruct (decide (b_first B = None ∨ b_last B = None ∨ n_base nd ≠ Some b))
      as [Hsame | Hgo].
    { apply Hret. unfold Remove.
      rewrite (bind_Return _ _ _ _ _ (load_base_Return _ _ _ Hb)).
      destruct (decide (b_first B = None)); [by eexists _, _ |].
      destruct (decide (b_last B = None)); [by eexists _, _ |].
      rewrite (bind_Return _ _ _ _ _ (load_node_Return _ _ _ Hn)).
      rewrite decide_True by tauto. by eexists _, _. }
    assert (b_first B ≠ None ∧ b_last B ≠ None ∧ n_base nd = Some b)
      as (Hf & Hlast & Hown).
    { repeat split; [tauto | tauto |].
      destruct (decide (n_base nd = Some b)); tauto. }
    destruct (decide (b_first B = Some n)) as [Hhead | Hnothead].
    { apply Hret. eexists _, _. by apply (Remove_head h fuel b B n nd). }
    assert (n ∈ l) as Hin. { apply Ho, owner_Some. eauto. }
    apply list_elem_of_split in Hin as (la & l2 & ->).
    destruct la as [|pr l1 _] using rev_ind.
    { destruct Hc as (Hfn & _). done. }
    pose proof Hc as Hc0.
    apply lseg_app in Hc as (y & Hpre & Hn2). pose proof Hn2 as (-> & _).
    apply lseg_snoc in Hpre as (Hseg & ndp & Hp' & Hnext).
    destruct (Remove_inner h fuel b B l1 pr ndp n nd) as [Hok _]; try done.
    + intros m ndm Hm Hndm.
      apply (chain_pred_unique (nodes h) (b_first B) l1 pr n l2 m ndm); try done.
      by rewrite <- app_assoc in Hc0.
    + intros ->. apply chain_NoDup, NoDup_app in Hc0 as (_ & Hdisj & _).
      apply (Hdisj n); [apply elem_of_snoc_last | apply list_elem_of_here].
    + apply Hret. eexists _, _. apply Hok.
      rewrite !length_app in Hlen. simpl in Hlen. lia.
  - (* Clear *)
    destruct (Clear_loop_chain l h fuel b B Hb Hc Hl) as [Hok _].
    destruct (Hok Hlen) as (h' & Hrun & _).
    apply Hret. unfold Clear.
    rewrite (bind_Return _ _ _ _ _ (load_base_Return _ _ _ Hb)).
    destruct (decide _); [by eexists _, _ |].
    destruct (decide _); [by eexists _, _ |].
    rewrite (bind_Return _ _ _ _ _ Hrun). by eexists _, _.
Qed.

(** So it is for every heap a client can reach. *)
Lemma reachable_exec_returns fuel h c :
  reachable h → valid_call h c → length (nodes h) ≤ fuel →
  ∃ r h', exec fuel c h = Return r h'.
Proof. intros Hr. apply exec_returns. by apply reachable_consistent. Qed.

End Progress.

(** ** The scenarios in any heap *)

Section LocalScenarios.
Context {V : Type}.
Implicit Types (h : heap V) (l : list nat).

Lemma Init_binds h i it b :
  iters h !! i = Some it →
  Init (Some i) (Some b) h
    = Return None (upd_iter i (set_current None) (upd_iter i (set_ibase (Some b)) h)) ∧
  iter_at (upd_iter i (set_current None) (upd_iter i (set_ibase (Some b)) h)) i b None.
Proof.
  intros Hi.
  assert (iters (upd_iter i (set_ibase (Some b)) h) !! i = Some (set_ibase (Some b) it))
    as Hi1 by by apply upd_iter_lookup.
  split.
  - unfold Init.
    rewrite (bind_Return _ _ _ _ _ (store_iter_Return _ _ _ _ Hi)).
    by rewrite (bind_Return _ _ _ _ _ (store_iter_Return _ _ _ _ Hi1)).
  - eexists. split; [by apply upd_iter_lookup |]. done.
Qed.

(** A full traversal, [Restart], and a second full traversal of a
    well-formed container deliver its chain twice. *)
Lemma traverse_twice h i b l fuel :
  wf_base h b l → iter_at h i b None → length l < fuel →
  ∃ h1 h2 h3,
    traverse fuel (Some i) h = Return (Some <$> l, None) h1 ∧
    Restart (Some i) h1 = Return None h2 ∧
    traverse fuel (Some i) h2 = Return (Some <$> l, None) h3 ∧
    nodes h1 = nodes h ∧ nodes h2 = nodes h ∧ nodes h3 = nodes h.
Proof.
  intros Hwf Hit Hfuel.
  destruct (traverse_unstarted h i b l fuel Hwf Hit Hfuel)
    as (h1 & Hrun1 & Hn1 & Hb1 & cur & Hcur).
  destruct (Restart_unstarts h1 i b cur Hcur) as (Hre & Hit2).
  set (h2 := upd_iter i (set_current None) h1) in *.
  assert (wf_base h2 b l) as Hwf2.
  { apply (wf_base_frame h); [done | by simpl; rewrite Hb1 |].
    intros m _. simpl. by rewrite Hn1. }
  destruct (traverse_unstarted h2 i b l fuel Hwf2 Hit2 Hfuel)
    as (h3 & Hrun3 & Hn3 & _).
  exists h1, h2, h3. repeat split; try done. by rewrite Hn3.
Qed.

End LocalScenarios.

(** C6: in any heap, after appending 1, 2, 3 to a fresh container, a
    bound iterator advanced from unstarted until it hands back nil
    delivers the nodes that carry 1, 2, 3 in this order, without an
    error; after [Restart] a second traversal delivers the same
    sequence. Any fuel from four calls of [Next] upwards will do. *)
Theorem round_trip (fuel : nat) (h : heap Z) :
  ∃ h', scenario_round_trip fuel h =
        Return (([Some 1; Some 2; Some 3]%Z, None),
                ([Some 1; Some 2; Some 3]%Z, None)) h'.
Proof.
  set (b := length (bases h)).
  set (h0 := mk_heap (nodes h) (bases h ++ [mk_base None None]) (iters h)).
  destruct (wf_base_empty h (Some b) h0 eq_refl) as (_ & Hwf0 & _ & _).
  destruct (AppendValue_wf h0 b [] (Some 1%Z) Hwf0)
    as (h1 & Hrun1 & Hwf1 & Hv1 & _ & Hlen1 & _).
  destruct (AppendValue_wf h1 b _ (Some 2%Z) Hwf1)
    as (h2 & Hrun2 & Hwf2 & Hv2 & Hold2 & Hlen2 & _).
  destruct (AppendValue_wf h2 b _ (Some 3%Z) Hwf2)
    as (h3 & Hrun3 & Hwf3 & Hv3 & Hold3 & Hlen3 & _).
  set (n0 := length (nodes h0)) in *.
  rewrite Hlen1 in *. rewrite Hlen2 in *. simpl in Hwf3.
  set (i := length (iters h3)).
  set (h4 := mk_heap (nodes h3) (bases h3) (iters h3 ++ [mk_iter None None])).
  assert (iters h4 !! i = Some (mk_iter None None)) as Hi4.
  { subst h4 i. simpl. by rewrite lookup_app_r, Nat.sub_diag. }
  destruct (Init_binds h4 i _ b Hi4) as (Hinit & Hit5).
  set (h5 := upd_iter i (set_current None) (upd_iter i (set_ibase (Some b)) h4)) in *.
  assert (wf_base h5 b [n0; S n0; S (S n0)]) as Hwf5 by by apply (wf_base_frame h3).
  destruct (traverse_twice h5 i b _ (4 + fuel) Hwf5 Hit5)
    as (h6 & h7 & h8 & Ht1 & Hre & Ht2 & Hn6 & Hn7 & Hn8); [simpl; lia |].
  assert (Forall2 (λ m v, n_value <$> nodes h3 !! m = Some v)
            [n0; S n0; S (S n0)] [Some 1; Some 2; Some 3]%Z) as Hvals.
  { repeat constructor.
    - rewrite Hold3, Hold2, Hv1 by lia. done.
    - by rewrite Hold3, Hv2 by lia.
    - done. }
  exists h8. unfold scenario_round_trip.
  rewrite (bind_Return _ _ _ _ (h0 : heap Z) (eq_refl : new_base h = Return (Some b) h0)).
  rewrite (bind_Return _ _ _ _ _ Hrun1).
  rewrite (bind_Return _ _ _ _ _ Hrun2).
  rewrite (bind_Return _ _ _ _ _ Hrun3).
  rewrite (bind_Return _ _ _ _ (h4 : heap Z) (eq_refl : new_iter h3 = Return (Some i) h4)).
  rewrite (bind_Return _ _ _ _ _ Hinit).
  rewrite (bind_Return _ _ _ _ _ Ht1). cbn [fst snd].
  rewrite (bind_Return _ _ _ _ _ (payloads_read _ h6 _ ltac:(by rewrite Hn6))).
  rewrite (bind_Return _ _ _ _ _ Hre).
  rewrite (bind_Return _ _ _ _ _ Ht2). cbn [fst snd].
  by rewrite (bind_Return _ _ _ _ _ (payloads_read _ h8 _ ltac:(by rewrite Hn8))).
Qed.

Section NotOwner.
Context {V : Type}.
Implicit Types (h : heap V).

(** A node whose base-pointer is not this container, presented to a
    container that is not empty: [Found] and [Remove] reject it before
    they look at the chain, and change nothing. *)
Lemma Found_not_owner h fuel b B n nd :
  bases h !! b = Some B → b_first B ≠ None → b_last B ≠ None →
  nodes h !! n = Some nd → n_base nd ≠ Some b →
  Found fuel (Some b) (Some n) h
    = Return (false, Some (elist_New "List_base::Found: q.base != p"%string)) h.
Proof.
  intros Hb Hf Hl Hn Ho. unfold Found.
  rewrite (bind_Return _ _ _ _ _ (load_base_Return _ _ _ Hb)).
  rewrite decide_False, decide_False by done.
  rewrite (bind_Return _ _ _ _ _ (load_node_Return _ _ _ Hn)).
  by rewrite decide_True.
Qed.

Lemma Remove_not_owner h fuel b B n nd :
  bases h !! b = Some B → b_first B ≠ None → b_last B ≠ None →
  nodes h !! n = Some nd → n_base nd ≠ Some b →
  Remove fuel (Some b) (Some n) h
    = Return (None, Some (elist_New "List_base::Remove: q.base != p"%string)) h.
Proof.
  intros Hb Hf Hl Hn Ho. unfold Remove.
  rewrite (bind_Return _ _ _ _ _ (load_base_Return _ _ _ Hb)).
  rewrite decide_False, decide_False by done.
  rewrite (bind_Return _ _ _ _ _ (load_node_Return _ _ _ Hn)).
  by rewrite decide_True.
Qed.

End NotOwner.

(** C3, as stated, fails: in the scenario [Found] hands back false
    together with an error, and so does [Remove] with nil. *)
Lemma free_node_is_an_error :
  ∃ r1 r2 h1 h2 h',
    scenario_free_node 2 empty_heap = Return (r1, r2, h1, h2) h' ∧
    r1.2 ≠ None ∧ r2.2 ≠ None.
Proof. do 5 eexists. split; [vm_compute; reflexivity | split; discriminate]. Qed.

(** C3 (amended): in any heap and with any fuel, for a container holding
    the appended values "a" and "b", [Found] of a freshly constructed,
    never inserted node hands back false and fails with NotOwner,
    [Remove] of that node hands back nil and fails with NotOwner, and
    neither call changes the heap. *)
Theorem free_node_not_owner (fuel : nat) (h : heap string) :
  ∃ e1 e2 hq,
    scenario_free_node fuel h = Return ((false, Some e1), (None, Some e2), hq, hq) hq ∧
    kind_of e1 = Some NotOwner ∧ kind_of e2 = Some NotOwner.
Proof.
  set (b := length (bases h)).
  set (h0 := mk_heap (nodes h) (bases h ++ [mk_base None None]) (iters h)).
  destruct (wf_base_empty h (Some b) h0 eq_refl) as (_ & Hwf0 & _ & _).
  destruct (AppendValue_wf h0 b [] (Some "a"%string) Hwf0)
    as (h1 & Hrun1 & Hwf1 & _).
  destruct (AppendValue_wf h1 b _ (Some "b"%string) Hwf1)
    as (h2 & Hrun2 & (B & Hb & Hc & Hl & _) & _).
  set (q := length (nodes h2)).
  set (h3 := mk_heap (nodes h2 ++ [mk_node None None None]) (bases h2) (iters h2)).
  assert (nodes h3 !! q = Some (mk_node None None None)) as Hq.
  { subst h3 q. simpl. by rewrite lookup_app_r, Nat.sub_diag. }
  simpl in Hc, Hl.
  assert (b_first B ≠ None) as Hf.
  { destruct Hc as (Hf & _). by rewrite Hf. }
  assert (b_last B ≠ None) as Hlast by by rewrite Hl.
  exists (elist_New "List_base::Found: q.base != p"%string),
         (elist_New "List_base::Remove: q.base != p"%string), h3.
  split; [|split; reflexivity].
  unfold scenario_free_node.
  rewrite (bind_Return _ _ _ _ (h0 : heap string)
             (eq_refl : new_base h = Return (Some b) h0)).
  rewrite (bind_Return _ _ _ _ _ Hrun1).
  rewrite (bind_Return _ _ _ _ _ Hrun2).
  rewrite (bind_Return _ _ _ _ (h3 : heap string)
             (eq_refl : new_node h2 = Return (Some q) h3)).
  rewrite (bind_Return _ _ _ _ (h3 : heap string)
             (eq_refl : snapshot h3 = Return h3 h3)).
  rewrite (bind_Return _ _ _ _ _
             (Found_not_owner h3 fuel b B q _ Hb Hf Hlast Hq ltac:(done))).
  rewrite (bind_Return _ _ _ _ _
             (Remove_not_owner h3 fuel b B q _ Hb Hf Hlast Hq ltac:(done))).
  by rewrite (bind_Return _ _ _ _ (h3 : heap string)
                (eq_refl : snapshot h3 = Return h3 h3)).
Qed.

(** * Further properties of the package *)

Section Frames.
Context {V : Type}.
Implicit Types (h : heap V) (l : list nat).

Lemma only_changes_others h b touched h' :
  only_changes h b touched h' →
  (∀ m, m ∈ touched → owner h m = Some b ∨ owner h m = None) →
  others_kept h b h'.
Proof.
  intros (Hnodes & _ & Hbases & _) Htouched b' l' Hne Hwf.
  apply (wf_base_frame h); [done | by apply Hbases |].
  intros m Hm. apply Hnodes. intros Hin.
  destruct Hwf as (_ & _ & _ & _ & Ho). specialize (Ho m Hm).
  destruct (Htouched m Hin); congruence.
Qed.

(** Assignments to [next] and [base] keep the payload. *)
Lemma alter_keeps_value (f : List_node V → List_node V) i (ns : list (List_node V)) m :
  (∀ nd, n_value (f nd) = n_value nd) →
  n_value <$> alter f i ns !! m = n_value <$> ns !! m.
Proof.
  intros Hf. rewrite list_lookup_alter.
  destruct (decide (i = m)) as [-> | ?]; [|done].
  destruct (ns !! m); simpl; [by rewrite Hf | done].
Qed.

Lemma wf_base_owner h b l m : wf_base h b l → m ∈ l → owner h m = Some b.
Proof. intros (_ & _ & _ & _ & Ho). apply Ho. Qed.

Lemma wf_base_lookup h b l m :
  wf_base h b l → m ∈ l → ∃ nd, nodes h !! m = Some nd ∧ n_base nd = Some b.
Proof. intros Hwf Hm. by apply owner_Some, (wf_base_owner h b l). Qed.

Lemma wf_base_NoDup h b l : wf_base h b l → NoDup l.
Proof. intros (B & _ & Hc & _). by eapply chain_NoDup. Qed.

End Frames.

(** ** Insertion into a well-formed container *)

Section LocalInsert.
Context {V : Type}.
Implicit Types (h : heap V) (l : list nat).

Lemma Append_wf h b l n nd :
  wf_base h b l → nodes h !! n = Some nd → n_base nd = None →
  ∃ h', Append (Some b) (Some n) h = Return None h' ∧
        wf_base h' b (l ++ [n]) ∧
        only_changes h b (n :: l) h' ∧ others_kept h b h'.
Proof.
  intros Hwf Hn Hfree. pose proof Hwf as (B & Hb & Hc & Hl & Ho).
  assert (owner h n = None) as Hon by (unfold owner; by rewrite Hn).
  assert (n ∉ l) as Hnl. { intros Hin. apply Ho in Hin. congruence. }
  assert (Append (Some b) (Some n) h = Return None (appended b (b_last B) n h))
    as Happ.
  { apply (Append_appends h b B n nd Hb Hn Hfree).
    intros t Ht. rewrite Hl in Ht. apply last_Some in Ht as (l0 & ->).
    destruct (wf_base_lookup h b _ t Hwf) as (ndt & -> & _); [|eauto].
    apply elem_of_snoc_last. }
  assert (only_changes h b (n :: l) (appended b (b_last B) n h)) as Hframe.
  { repeat split.
    - intros m Hm. apply not_elem_of_cons in Hm as (Hmn & Hml).
      apply appended_node_ne; [done |]. rewrite Hl. intros Hlast. apply Hml.
      apply last_Some in Hlast as (l0 & ->). apply elem_of_snoc_last.
    - intros m. apply appended_value.
    - intros b' Hb'. by apply appended_base_ne.
    - unfold appended. by destruct (b_last B). }
  exists (appended b (b_last B) n h). repeat split; try done; try apply Hframe.
  - eexists. split; [by apply appended_base |]. repeat split.
    + by apply (appended_chain h b B l n nd).
    + by rewrite last_snoc.
    + intros m Hm. rewrite appended_owner by eauto.
      destruct (decide (m = n)); [done |].
      apply elem_of_app in Hm as [Hm | Hm]; [by apply Ho |].
      by apply list_elem_of_singleton in Hm.
  - apply (only_changes_others h b (n :: l)); [done |].
    intros m Hm. apply elem_of_cons in Hm as [-> | Hm]; [by right | left; by apply Ho].
Qed.

Lemma prepended_value h b B n m :
  n_value <$> nodes (prepended b B n h) !! m = n_value <$> nodes h !! m.
Proof. rewrite prepended_nodes. by rewrite !alter_keeps_value. Qed.

Lemma Prepend_wf h b l n nd :
  wf_base h b l → nodes h !! n = Some nd → n_base nd = None →
  ∃ h', Prepend (Some b) (Some n) h = Return None h' ∧
        wf_base h' b (n :: l) ∧
        only_changes h b [n] h' ∧ others_kept h b h'.
Proof.
  intros Hwf Hn Hfree. pose proof Hwf as (B & Hb & Hc & Hl & Ho).
  assert (owner h n = None) as Hon by (unfold owner; by rewrite Hn).
  assert (n ∉ l) as Hnl. { intros Hin. apply Ho in Hin. congruence. }
  assert (∀ m, m ≠ n → nodes (prepended b B n h) !! m = nodes h !! m) as Hne.
  { intros m Hm. by rewrite prepended_nodes, !list_lookup_alter_ne. }
  assert (nodes (prepended b B n h) !! n =
          Some (mk_node (b_first B) (Some b) (n_value nd))) as Hn'.
  { by rewrite prepended_nodes, !list_lookup_alter_eq, Hn. }
  assert (only_changes h b [n] (prepended b B n h)) as Hframe.
  { repeat split.
    - intros m Hm. apply Hne. intros ->. apply Hm, list_elem_of_here.
    - intros m. apply prepended_value.
    - intros b' Hb'. by apply prepended_base_ne.
    - unfold prepended. by destruct (decide (b_last B = None)). }
  exists (prepended b B n h). repeat split; try done; try apply Hframe.
  - by apply (Prepend_prepends h b B n nd).
  - eexists. split; [by apply prepended_base |]. repeat split.
    + eexists. split; [exact Hn' |].
      apply lseg_ext with (nodes h); [|exact Hc].
      intros m Hm. rewrite Hne; [done |]. by intros ->.
    + cbn [b_last]. rewrite Hl. destruct l as [|a l]; [done |].
      rewrite decide_False; [by rewrite last_cons_cons |].
      intros Hnone. by apply last_None in Hnone.
    + intros m Hm. apply elem_of_cons in Hm as [-> | Hm].
      * unfold owner. by rewrite Hn'.
      * rewrite (owner_ext h _ m); [by apply Ho |]. apply Hne. by intros ->.
  - apply (only_changes_others h b [n]); [done |].
    intros m Hm. apply list_elem_of_singleton in Hm as ->. by right.
Qed.

End LocalInsert.

(** ** Removal from a well-formed container *)

Section LocalRemove.
Context {V : Type}.
Implicit Types (h : heap V) (l : list nat).

(** [unlink] leaves the node detached, with the payload it had. *)
Lemma unlinked_lookup (ns : list (List_node V)) a nd :
  ns !! a = Some nd →
  alter (set_base None) a (alter (set_next None) a ns) !! a
    = Some (mk_node None None (n_value nd)).
Proof. intros Ha. by rewrite !list_lookup_alter_eq, Ha. Qed.

Lemma popped_value h b B a nd m :
  n_value <$> nodes (popped b B a nd h) !! m = n_value <$> nodes h !! m.
Proof. rewrite popped_nodes. by rewrite !alter_keeps_value. Qed.

Lemma popped_only_changes h b B a nd :
  only_changes h b [a] (popped b B a nd h).
Proof.
  repeat split.
  - intros m Hm. apply popped_node_ne. intros ->. apply Hm, list_elem_of_here.
  - intros m. apply popped_value.
  - intros b' Hb'. by apply popped_base_ne.
  - apply popped_iters.
Qed.

Lemma popped_wf h b B a nd l :
  wf_base h b (a :: l) → bases h !! b = Some B → nodes h !! a = Some nd →
  wf_base (popped b B a nd h) b l ∧ detached (popped b B a nd h) a ∧
  others_kept h b (popped b B a nd h).
Proof.
  intros Hwf Hb Ha. pose proof Hwf as (B0 & Hb0 & Hc & Hl & Ho).
  rewrite Hb in Hb0. injection Hb0 as <-.
  pose proof Hc as (Hf & nd' & Ha' & Hc').
  rewrite Ha in Ha'. injection Ha' as <-.
  pose proof (chain_NoDup _ _ _ Hc) as Hnd.
  apply NoDup_cons in Hnd as (Hnotin & _).
  repeat split.
  - eexists. split; [by apply popped_base |]. repeat split.
    + apply lseg_ext with (nodes h); [|exact Hc'].
      intros m Hm. rewrite popped_node_ne; [done |]. by intros ->.
    + simpl. symmetry. by eapply last_after_pop.
    + intros m Hm. rewrite (popped_owner h b B a nd m Ha).
      rewrite decide_False by (by intros ->). by apply Ho, list_elem_of_further.
  - eexists. split; [by apply popped_node |]. done.
  - apply (only_changes_others h b [a]); [apply popped_only_changes |].
    intros m Hm. apply list_elem_of_singleton in Hm as ->. left.
    apply Ho, list_elem_of_here.
Qed.

Lemma Popfirst_wf h b a l :
  wf_base h b (a :: l) →
  ∃ h', Popfirst (Some b) h = Return (Some a, None) h' ∧
        wf_base h' b l ∧ detached h' a ∧
        only_changes h b [a] h' ∧ others_kept h b h'.
Proof.
  intros Hwf. pose proof Hwf as (B & Hb & Hc & Hl & Ho).
  pose proof Hc as (Hf & nd & Ha & _).
  exists (popped b B a nd h).
  destruct (popped_wf h b B a nd l Hwf Hb Ha) as (? & ? & ?).
  repeat split; try done; try apply popped_only_changes.
  apply (Popfirst_pops h b B a nd Hb Hf); [|done].
  rewrite Hl. intros Hnone. by apply last_None in Hnone.
Qed.

Lemma Poplast_wf h fuel b l t :
  wf_base h b (l ++ [t]) → length l ≤ fuel →
  ∃ h', Poplast fuel (Some b) h = Return (Some t, None) h' ∧
        wf_base h' b l ∧ detached h' t ∧
        only_changes h b (l ++ [t]) h' ∧ others_kept h b h'.
Proof.
  intros Hwf Hfuel. pose proof Hwf as (B & Hb & Hc & Hl & Ho).
  rewrite last_snoc in Hl.
  pose proof (chain_NoDup _ _ _ Hc) as Hdup. pose proof Hc as Hc0.
  apply NoDup_app in Hdup as (Hdup0 & Hdisj & _).
  assert (t ∉ l) as Htl. { intros Hin. apply (Hdisj t Hin), list_elem_of_here. }
  apply lseg_snoc in Hc as (Hc & ndt & Ht & Htnext).
  assert (∀ h', only_changes h b (l ++ [t]) h' → others_kept h b h') as Hothers.
  { intros h' Hframe. apply (only_changes_others h b (l ++ [t])); [done |].
    intros m Hm. left. by apply Ho. }
  destruct l as [|q l0 _] using rev_ind.
  - simpl in Hc.
    assert (only_changes h b ([] ++ [t]) (popped_only b t h)) as Hframe.
    { repeat split.
      - intros m Hm. unfold popped_only. simpl.
        rewrite !list_lookup_alter_ne; [done | |]; intros ->; apply Hm, list_elem_of_here.
      - intros m. unfold popped_only. simpl. by rewrite !alter_keeps_value.
      - intros b' Hb'. unfold popped_only. simpl. by rewrite !list_lookup_alter_ne. }
    exists (popped_only b t h). repeat split; try apply Hframe.
    + by apply (Poplast_only h fuel b B t ndt).
    + exists (mk_base None None). repeat split.
      * unfold popped_only. simpl. by rewrite !list_lookup_alter_eq, Hb.
      * intros m Hm. by apply not_elem_of_nil in Hm.
    + eexists. split; [unfold popped_only; simpl; by apply unlinked_lookup | done].
    + by apply Hothers.
  - apply lseg_snoc in Hc as (Hseg & ndq & Hq & Hqnext).
    apply NoDup_app in Hdup0 as (_ & Hdisj0 & _).
    assert (q ≠ t) as Hqt. { intros ->. apply Htl, elem_of_snoc_last. }
    assert (b_first B ≠ Some t) as Hft.
    { intros Hft. destruct l0 as [|a l0].
      - simpl in Hseg. congruence.
      - destruct Hseg as (Hfa & _). rewrite Hft in Hfa. injection Hfa as ->.
        apply Htl. apply list_elem_of_here. }
    assert (b_first B ≠ None) as Hf.
    { intros Hf. rewrite Hf in Hc0. by apply chain_None, app_eq_nil in Hc0 as [_ ?]. }
    destruct (Poplast_tail h fuel b B l0 q ndq t ndt) as [Hok _]; try done.
    { intros m ndm Hm Hndm.
      apply (chain_pred_unique (nodes h) (b_first B) l0 q t [] m ndm); try done.
      by rewrite <- app_assoc in Hc0. }
    assert (∀ m, m ≠ q → m ≠ t → nodes (poplasted b q t h) !! m = nodes h !! m) as Hne.
    { intros m Hmq Hmt. unfold poplasted. simpl. by rewrite !list_lookup_alter_ne. }
    assert (only_changes h b ((l0 ++ [q]) ++ [t]) (poplasted b q t h)) as Hframe.
    { repeat split.
      - intros m Hm. apply Hne; intros ->; apply Hm.
        + apply elem_of_snoc_init, elem_of_snoc_last.
        + apply elem_of_snoc_last.
      - intros m. unfold poplasted. simpl. by rewrite !alter_keeps_value.
      - intros b' Hb'. unfold poplasted. simpl. by rewrite !list_lookup_alter_ne. }
    exists (poplasted b q t h). repeat split; try apply Hframe.
    + apply Hok. rewrite length_app in Hfuel. simpl in Hfuel. lia.
    + exists (mk_base (b_first B) (Some q)). repeat split.
      * unfold poplasted. simpl. by rewrite !list_lookup_alter_eq, Hb.
      * unfold chain. apply lseg_snoc. split.
        -- apply lseg_ext with (nodes h); [|done]. intros m Hm. rewrite Hne; [done | |].
           ++ intros ->. apply (Hdisj0 q Hm), list_elem_of_here.
           ++ intros ->. by apply Htl, elem_of_snoc_init.
        -- exists (set_next None ndq). split; [|done]. unfold poplasted. simpl.
           rewrite !list_lookup_alter_ne by done.
           by rewrite list_lookup_alter_eq, Hq.
      * by rewrite last_snoc.
      * intros m Hm. unfold owner, poplasted. simpl.
        rewrite !list_lookup_alter_ne by (intros ->; done).
        rewrite list_lookup_alter.
        pose proof (Ho m (elem_of_snoc_init _ t m Hm)) as Hom. unfold owner in Hom.
        destruct (decide (q = m)) as [-> | ?]; [|done]. by rewrite Hq in Hom |- *.
    + eexists. split; [unfold poplasted; simpl; apply unlinked_lookup;
                      by rewrite list_lookup_alter_ne | done].
    + by apply Hothers.
Qed.

End LocalRemove.

(** ** Removal and search of a given node *)

Section LocalRemoveNode.
Context {V : Type}.
Implicit Types (h : heap V) (l : list nat).

Lemma Remove_wf h fuel b l1 n l2 :
  wf_base h b (l1 ++ n :: l2) → length l1 ≤ fuel →
  ∃ h', Remove fuel (Some b) (Some n) h = Return (Some n, None) h' ∧
        wf_base h' b (l1 ++ l2) ∧ detached h' n ∧
        only_changes h b (l1 ++ n :: l2) h' ∧ others_kept h b h'.
Proof.
  intros Hwf Hfuel. pose proof Hwf as (B & Hb & Hc & Hl & Ho).
  destruct (wf_base_lookup h b _ n Hwf) as (nd & Hn & Hown).
  { apply elem_of_app. right. apply list_elem_of_here. }
  assert (b_last B ≠ None) as Hlast.
  { rewrite Hl. intros Hnone. by apply last_None, app_eq_nil in Hnone as [_ ?]. }
  assert (∀ h', only_changes h b (l1 ++ n :: l2) h' → others_kept h b h') as Hothers.
  { intros h' Hframe. apply (only_changes_others h b (l1 ++ n :: l2)); [done |].
    intros m Hm. left. by apply Ho. }
  destruct l1 as [|pr l1 _] using rev_ind.
  - simpl in *. pose proof Hc as (Hf & _).
    destruct (popped_wf h b B n nd l2 Hwf Hb Hn) as (? & ? & ?).
    exists (popped b B n nd h). repeat split; try done.
    + by apply (Remove_head h fuel b B n nd).
    + intros m Hm. apply popped_node_ne. intros ->. apply Hm, list_elem_of_here.
    + intros m. apply popped_value.
    + intros b' Hb'. by apply popped_base_ne.
    + apply popped_iters.
  - pose proof (chain_NoDup _ _ _ Hc) as Hdup. pose proof Hc as Hc0.
    apply NoDup_app in Hdup as (Hdup1 & Hdisj & Hdup2).
    apply NoDup_cons in Hdup2 as (Hnl2 & _).
    apply NoDup_app in Hdup1 as (_ & Hdisj1 & _).
    assert (pr ≠ n) as Hpn.
    { intros ->. apply (Hdisj n); [apply elem_of_snoc_last | apply list_elem_of_here]. }
    apply lseg_app in Hc as (y & Hpre & Hn2).
    pose proof Hn2 as (-> & nd' & Hn' & Hc2).
    rewrite Hn in Hn'. injection Hn' as <-.
    apply lseg_snoc in Hpre as (Hseg & ndp & Hp & Hnext).
    assert (b_first B ≠ Some n) as Hfn.
    { intros Hfn. destruct l1 as [|a l1].
      - simpl in Hseg. congruence.
      - destruct Hseg as (Hfa & _). rewrite Hfn in Hfa. injection Hfa as ->.
        apply (Hdisj a); [apply list_elem_of_here | apply list_elem_of_here]. }
    assert (b_first B ≠ None) as Hf.
    { intros Hf. rewrite Hf in Hc0. by apply chain_None, app_eq_nil in Hc0 as [_ ?]. }
    destruct (Remove_inner h fuel b B l1 pr ndp n nd) as [Hok _]; try done.
    { intros m ndm Hm Hndm.
      apply (chain_pred_unique (nodes h) (b_first B) l1 pr n l2 m ndm); try done.
      by rewrite <- app_assoc in Hc0. }
    assert (∀ m, m ≠ pr → m ≠ n → nodes (removed b B pr n nd h) !! m = nodes h !! m)
      as Hne.
    { intros m Hmp Hmn. unfold removed. simpl.
      rewrite !list_lookup_alter_ne by done.
      destruct (decide (b_last B = Some n)); simpl; by rewrite list_lookup_alter_ne. }
    assert (nodes (removed b B pr n nd h) !! pr = Some (set_next (n_next nd) ndp)) as Hp'.
    { unfold removed. simpl. rewrite !list_lookup_alter_ne by done.
      destruct (decide (b_last B = Some n)); simpl; by rewrite list_lookup_alter_eq, Hp. }
    assert (nodes (removed b B pr n nd h) !! n = Some (mk_node None None (n_value nd)))
      as Hn'.
    { unfold removed. simpl. apply unlinked_lookup.
      destruct (decide (b_last B = Some n)); simpl; by rewrite list_lookup_alter_ne. }
    assert (only_changes h b ((l1 ++ [pr]) ++ n :: l2) (removed b B pr n nd h)) as Hframe.
    { repeat split.
      - intros m Hm. apply Hne; intros ->; apply Hm.
        + apply elem_of_app. left. apply elem_of_snoc_last.
        + apply elem_of_app. right. apply list_elem_of_here.
      - intros m. unfold removed. simpl. rewrite !alter_keeps_value by done.
        destruct (decide (b_last B = Some n)); simpl; by rewrite alter_keeps_value.
      - intros b' Hb'. unfold removed. simpl.
        destruct (decide (b_last B = Some n)); simpl; [|done].
        by rewrite list_lookup_alter_ne.
      - unfold removed. simpl. by destruct (decide (b_last B = Some n)). }
    exists (removed b B pr n nd h). repeat split; try apply Hframe.
    + apply Hok. rewrite length_app in Hfuel. simpl in Hfuel. lia.
    + exists (mk_base (b_first B) (if decide (b_last B = Some n) then Some pr else b_last B)).
      repeat split.
      * unfold removed. simpl. destruct (decide (b_last B = Some n)); simpl.
        -- by rewrite list_lookup_alter_eq, Hb.
        -- rewrite Hb. by destruct B.
      * unfold chain. apply lseg_app. exists (n_next nd). split.
        -- apply lseg_snoc. split; [|eauto].
           apply lseg_ext with (nodes h); [|done]. intros m Hm. rewrite Hne; [done | |].
           ++ intros ->. apply (Hdisj1 pr Hm), list_elem_of_here.
           ++ intros ->. apply (Hdisj n); [by apply elem_of_snoc_init | apply list_elem_of_here].
        -- apply lseg_ext with (nodes h); [|done]. intros m Hm. rewrite Hne; [done | |].
           ++ intros ->. apply (Hdisj pr); [apply elem_of_snoc_last | by apply list_elem_of_further].
           ++ by intros ->.
      * cbn [b_last]. rewrite Hl. destruct l2 as [|m l2 _] using rev_ind.
        -- rewrite app_nil_r, last_snoc.
           by rewrite last_snoc, decide_True.
        -- rewrite app_assoc, last_snoc.
           change (n :: l2 ++ [m]) with ((n :: l2) ++ [m]).
           rewrite app_assoc, last_snoc. rewrite decide_False; [done |].
           intros [= ->]. apply Hnl2, elem_of_snoc_last.
      * intros m Hm.
        assert (m ≠ n) as Hmn.
        { intros ->. apply elem_of_app in Hm as [Hm | Hm]; [|done].
          apply (Hdisj n Hm), list_elem_of_here. }
        assert (owner h m = Some b) as Hom.
        { apply Ho. apply elem_of_app in Hm as [Hm | Hm].
          - apply elem_of_app. by left.
          - apply elem_of_app. right. by apply list_elem_of_further. }
        unfold owner in *. destruct (decide (m = pr)) as [-> | Hmp].
        -- rewrite Hp'. by rewrite Hp in Hom.
        -- by rewrite Hne.
    + eexists. split; [exact Hn' | done].
    + by apply Hothers.
Qed.

Lemma Found_scan_decides l : ∀ h fuel x n,
  chain (nodes h) x l → length l ≤ fuel →
  Found_scan fuel x (Some n) h = Return (bool_decide (n ∈ l)) h.
Proof.
  induction l as [|a l IH]; intros h fuel x n Hc Hfuel.
  - apply chain_nil in Hc as ->. by destruct fuel.
  - destruct Hc as (-> & nd & Hnd & Hc).
    destruct fuel as [|fuel]; [simpl in Hfuel; lia |]. simpl.
    case_decide as Han.
    + injection Han as ->. rewrite bool_decide_eq_true_2; [done |].
      apply list_elem_of_here.
    + rewrite (bind_Return _ _ _ _ _ (load_node_Return _ _ _ Hnd)).
      rewrite (IH h fuel (n_next nd) n Hc) by (simpl in Hfuel; lia).
      f_equal. apply bool_decide_ext. rewrite elem_of_cons.
      split; [by right | intros [-> | ?]; [congruence | done]].
Qed.

Lemma Found_wf h fuel b l n nd :
  wf_base h b l → l ≠ [] → nodes h !! n = Some nd → n_base nd = Some b →
  length l ≤ fuel →
  Found fuel (Some b) (Some n) h = Return (bool_decide (n ∈ l), None) h.
Proof.
  intros (B & Hb & Hc & Hl & Ho) Hne Hn Hown Hfuel. unfold Found.
  rewrite (bind_Return _ _ _ _ _ (load_base_Return _ _ _ Hb)).
  rewrite decide_False.
  2:{ intros Hf. rewrite Hf in Hc. by apply chain_None in Hc. }
  rewrite decide_False.
  2:{ rewrite Hl. intros Hnone. by apply last_None in Hnone. }
  rewrite (bind_Return _ _ _ _ _ (load_node_Return _ _ _ Hn)).
  rewrite decide_False by (intros Hx; by apply Hx).
  by rewrite (bind_Return _ _ _ _ _ (Found_scan_decides l h fuel _ n Hc Hfuel)).
Qed.

End LocalRemoveNode.

(** ** The counting loops *)

Section Counting.
Context {V : Type}.
Implicit Types (h : heap V) (l : list nat).

Lemma int_add_small (n : Z) : (0 ≤ n)%Z → (n + 1 < 2 ^ 63)%Z → int_add n 1 = (n + 1)%Z.
Proof.
  intros Hlo Hhi. unfold int_add, int_wrap.
  rewrite Z.mod_small; lia.
Qed.

Lemma Length_loop_counts l : ∀ h fuel x (n : Z),
  chain (nodes h) x l → length l ≤ fuel →
  (0 ≤ n)%Z → (n + Z.of_nat (length l) < 2 ^ 63)%Z →
  Length_loop fuel x n h = Return (n + Z.of_nat (length l))%Z h.
Proof.
  induction l as [|a l IH]; intros h fuel x n Hc Hfuel Hlo Hhi.
  - apply chain_nil in Hc as ->. simpl. rewrite Z.add_0_r. by destruct fuel.
  - destruct Hc as (-> & nd & Hnd & Hc).
    destruct fuel as [|fuel]; [simpl in Hfuel; lia |].
    cbn [Length_loop].
    rewrite (bind_Return _ _ _ _ _ (load_node_Return _ _ _ Hnd)).
    cbn [length] in Hhi, Hfuel. rewrite int_add_small by lia.
    rewrite (IH h fuel (n_next nd) (n + 1)%Z Hc) by lia.
    f_equal. cbn [length]. lia.
Qed.

Lemma count_nil_le h l : count_nil h l ≤ length l.
Proof. apply length_filter. Qed.

Lemma count_wrong_le h b l : count_wrong h b l ≤ length l.
Proof. apply length_filter. Qed.

Lemma ValidLength_loop_counts l : ∀ h fuel b x (c1 c2 c3 : Z),
  chain (nodes h) x l → length l ≤ fuel →
  (0 ≤ c1)%Z → (0 ≤ c2)%Z → (0 ≤ c3)%Z →
  (c1 + Z.of_nat (length l) < 2 ^ 63)%Z →
  (c2 + Z.of_nat (length l) < 2 ^ 63)%Z →
  (c3 + Z.of_nat (length l) < 2 ^ 63)%Z →
  ValidLength_loop fuel (Some b) x (c1, c2, c3) h
    = Return (c1 + Z.of_nat (count_nil h l),
              c2 + Z.of_nat (count_wrong h b l),
              c3 + Z.of_nat (length l))%Z h.
Proof.
  induction l as [|a l IH]; intros h fuel b x c1 c2 c3 Hc Hfuel H1 H2 H3 B1 B2 B3.
  - apply chain_nil in Hc as ->. unfold count_nil, count_wrong. simpl.
    rewrite !Z.add_0_r. by destruct fuel.
  - destruct Hc as (-> & nd & Hnd & Hc).
    destruct fuel as [|fuel]; [simpl in Hfuel; lia |].
    cbn [ValidLength_loop].
    rewrite (bind_Return _ _ _ _ _ (load_node_Return _ _ _ Hnd)).
    cbn [length] in B1, B2, B3, Hfuel.
    assert (owner h a = n_base nd) as Hoa by (unfold owner; by rewrite Hnd).
    unfold count_nil, count_wrong. rewrite !filter_cons, Hoa.
    pose proof (count_nil_le h l). pose proof (count_wrong_le h b l).
    rewrite (int_add_small c3) by lia.
    destruct (decide (n_base nd = None)) as [Hnil | Hnil].
    + rewrite (int_add_small c1) by lia.
      rewrite (IH h fuel b (n_next nd) (c1 + 1)%Z c2 (c3 + 1)%Z Hc) by lia.
      rewrite decide_False by tauto. unfold count_nil, count_wrong.
      f_equal. rewrite !pair_equal_spec. cbn [length]. lia.
    + destruct (decide (n_base nd ≠ Some b)) as [Hwrong | Hright].
      * rewrite (int_add_small c2) by lia.
        rewrite (IH h fuel b (n_next nd) c1 (c2 + 1)%Z (c3 + 1)%Z Hc) by lia.
        rewrite decide_True by tauto. unfold count_nil, count_wrong.
        f_equal. rewrite !pair_equal_spec. cbn [length]. lia.
      * rewrite (IH h fuel b (n_next nd) c1 c2 (c3 + 1)%Z Hc) by lia.
        rewrite decide_False by tauto. unfold count_nil, count_wrong.
        f_equal. rewrite !pair_equal_spec. cbn [length]. lia.
Qed.

(** Both loops count the visited nodes in the same way, wrap-around
    included. *)
Lemma loops_agree fuel : ∀ h p q (n : Z) (c1 c2 : Z) r h1 a w t h2,
  Length_loop fuel q n h = Return r h1 →
  ValidLength_loop fuel p q (c1, c2, n) h = Return (a, w, t) h2 →
  t = r.
Proof.
  induction fuel as [|fuel IH]; intros h p [x|] n c1 c2 r h1 a w t h2; simpl;
    try (intros [= <- _] [= _ _ <- _]; done); try done.
  unfold load_node, mbind, M_bind.
  destruct (nodes h !! x) as [nd|]; [|done]. intros HL HV.
  destruct (decide (n_base nd = None)); [by eapply IH |].
  destruct (decide (n_base nd ≠ p)); by eapply IH.
Qed.

End Counting.

(** ** Sample heaps *)

Lemma sample_heap_wf0 : wf_base sample_heap 0 [0; 1].
Proof.
  exists (mk_base (Some 0) (Some 1)). repeat split.
  - simpl. eauto 10.
  - intros n Hn. apply elem_of_cons in Hn as [-> | Hn]; [reflexivity |].
    apply list_elem_of_singleton in Hn as ->. reflexivity.
Qed.

Lemma sample_heap_wf1 : wf_base sample_heap 1 [3].
Proof.
  exists (mk_base (Some 3) (Some 3)). repeat split.
  - simpl. eauto 10.
  - intros n Hn. apply list_elem_of_singleton in Hn as ->. reflexivity.
Qed.

Lemma sample_heap_wf2 : wf_base sample_heap 2 [].
Proof.
  exists (mk_base None None). repeat split.
  intros n Hn. by apply not_elem_of_nil in Hn.
Qed.


Section CountingWf.
Context {V : Type}.
Implicit Types (h : heap V) (l : list nat).

Lemma Length_of_wf h fuel b l :
  wf_base h b l → length l ≤ fuel → (Z.of_nat (length l) < 2 ^ 63)%Z →
  Length fuel (Some b) h = Return (Z.of_nat (length l)) h.
Proof.
  intros (B & Hb & Hc & Hl & _) Hfuel Hfit. unfold Length.
  rewrite (bind_Return _ _ _ _ _ (load_base_Return _ _ _ Hb)).
  destruct l as [|a l].
  - apply chain_nil in Hc. rewrite decide_False; [done |]. tauto.
  - rewrite decide_True.
    + by rewrite (Length_loop_counts (a :: l) h fuel (b_first B) 0%Z Hc Hfuel).
    + split.
      * destruct Hc as (-> & _). done.
      * rewrite Hl. intros Hnone. by apply last_None in Hnone.
Qed.

Lemma ValidLength_of_chain h fuel b B l :
  bases h !! b = Some B → b_last B ≠ None →
  chain (nodes h) (b_first B) l → l ≠ [] →
  length l ≤ fuel → (Z.of_nat (length l) < 2 ^ 63)%Z →
  ValidLength fuel (Some b) h
    = Return (Z.of_nat (count_nil h l), Z.of_nat (count_wrong h b l),
              Z.of_nat (length l)) h.
Proof.
  intros Hb Hlast Hc Hne Hfuel Hfit. unfold ValidLength.
  rewrite (bind_Return _ _ _ _ _ (load_base_Return _ _ _ Hb)).
  rewrite decide_False.
  - by rewrite (ValidLength_loop_counts l h fuel b (b_first B) 0 0 0 Hc Hfuel).
  - intros [Hf | Hf]; [|done]. rewrite Hf in Hc. by apply chain_None in Hc.
Qed.

Lemma filter_none {A} (P : A → Prop) `{∀ x, Decision (P x)} (l : list A) :
  (∀ x, x ∈ l → ¬ P x) → filter P l = [].
Proof.
  induction l as [|a l IH]; intros Hno; [done |].
  rewrite filter_cons, decide_False by (apply Hno, list_elem_of_here).
  apply IH. intros x Hx. by apply Hno, list_elem_of_further.
Qed.

Lemma ValidLength_of_wf h fuel b l :
  wf_base h b l → length l ≤ fuel → (Z.of_nat (length l) < 2 ^ 63)%Z →
  ValidLength fuel (Some b) h = Return (0, 0, Z.of_nat (length l))%Z h.
Proof.
  intros Hwf Hfuel Hfit. pose proof Hwf as (B & Hb & Hc & Hl & Ho).
  destruct l as [|a l].
  - apply chain_nil in Hc. unfold ValidLength.
    rewrite (bind_Return _ _ _ _ _ (load_base_Return _ _ _ Hb)).
    rewrite decide_True; [done | by left].
  - rewrite (ValidLength_of_chain h fuel b B (a :: l)); try done.
    + unfold count_nil, count_wrong. rewrite !filter_none; [done | |].
      * intros m Hm [_ Hw]. by apply Hw, Ho.
      * intros m Hm Hnil. rewrite (Ho m Hm) in Hnil. done.
    + rewrite Hl. intros Hnone. by apply last_None in Hnone.
Qed.

End CountingWf.

(** ** Counting *)

(** X1: on a well-formed container [Length], given fuel for every node,
    hands back the number of nodes of the chain, as long as that number
    fits into an [int]; the heap is left as it was. *)
Theorem Length_counts {V} (h : heap V) (fuel b : nat) (l : list nat) :
  wf_base h b l → length l ≤ fuel → (Z.of_nat (length l) < 2 ^ 63)%Z →
  Length fuel (Some b) h = Return (Z.of_nat (length l)) h.
Proof. apply Length_of_wf. Qed.

Lemma Length_counts_witness :
  wf_base sample_heap 0 [0; 1] ∧
  Length 2 (Some 0) sample_heap = Return 2%Z sample_heap.
Proof.
  split; [exact sample_heap_wf0 |].
  apply (Length_counts sample_heap 2 0 [0; 1] sample_heap_wf0); simpl; lia.
Defined.

(** X2: [ValidLength] walks the chain from [first] whatever the nodes
    say about their owner: when [last] is not nil, it hands back the
    number of nodes of the chain without owner, the number of nodes that
    name another container, and the number of all nodes of the chain,
    and leaves the heap as it was. *)
Theorem ValidLength_counts {V} (h : heap V) (fuel b : nat) (B : List_base)
    (l : list nat) :
  bases h !! b = Some B → b_last B ≠ None →
  chain (nodes h) (b_first B) l → l ≠ [] →
  length l ≤ fuel → (Z.of_nat (length l) < 2 ^ 63)%Z →
  ValidLength fuel (Some b) h
    = Return (Z.of_nat (count_nil h l), Z.of_nat (count_wrong h b l),
              Z.of_nat (length l)) h.
Proof. apply ValidLength_of_chain. Qed.

Lemma ValidLength_counts_witness :
  bases mixed_owner_heap !! 0 = Some (mk_base (Some 0) (Some 2)) ∧
  chain (nodes mixed_owner_heap) (Some 0) [0; 1; 2] ∧
  ValidLength 3 (Some 0) mixed_owner_heap = Return (1, 1, 3)%Z mixed_owner_heap.
Proof.
  assert (chain (nodes mixed_owner_heap) (Some 0) [0; 1; 2]) as Hc.
  { unfold chain. simpl.
    repeat (split; [reflexivity |]; eexists; split; [reflexivity |]).
    reflexivity. }
  split; [reflexivity |]. split; [exact Hc |].
  apply (ValidLength_counts mixed_owner_heap 3 0 (mk_base (Some 0) (Some 2)) [0; 1; 2]);
    try done; simpl; lia.
Defined.

(** X3: on a well-formed container [ValidLength] reports no anomaly: no
    node without owner, no node of another container, and as many nodes
    as [Length] counts. *)
Theorem ValidLength_clean {V} (h : heap V) (fuel b : nat) (l : list nat) :
  wf_base h b l → length l ≤ fuel → (Z.of_nat (length l) < 2 ^ 63)%Z →
  ValidLength fuel (Some b) h = Return (0, 0, Z.of_nat (length l))%Z h ∧
  Length fuel (Some b) h = Return (Z.of_nat (length l)) h.
Proof.
  intros Hwf Hfuel Hfit. split; [by apply ValidLength_of_wf | by apply Length_of_wf].
Qed.

Lemma ValidLength_clean_witness :
  wf_base sample_heap 0 [0; 1] ∧
  ValidLength 5 (Some 0) sample_heap = Return (0, 0, 2)%Z sample_heap ∧
  Length 5 (Some 0) sample_heap = Return 2%Z sample_heap.
Proof.
  split; [exact sample_heap_wf0 |].
  apply (ValidLength_clean sample_heap 5 0 [0; 1] sample_heap_wf0); simpl; lia.
Defined.

(** X4: whatever the heap, when [Length] and [ValidLength] of the same
    container both return, the total of [ValidLength] is the result of
    [Length], and neither call changed the heap. *)
Theorem ValidLength_total_is_Length {V} (h : heap V) (fuel : nat) (p : base_ptr)
    (n a w t : Z) (h1 h2 : heap V) :
  Length fuel p h = Return n h1 →
  ValidLength fuel p h = Return (a, w, t) h2 →
  t = n ∧ h1 = h ∧ h2 = h.
Proof.
  intros HL HV. split; [|split; [by eapply Length_pure | by eapply ValidLength_pure]].
  destruct p as [b|]; [|by injection HL as <- _; injection HV as _ _ <- _].
  unfold Length, ValidLength, load_base, mbind, M_bind in HL, HV.
  destruct (bases h !! b) as [B|]; [|done].
  destruct (decide (b_first B ≠ None ∧ b_last B ≠ None)) as [[Hf Hl] | Hno].
  - rewrite decide_False in HV by tauto. by eapply loops_agree.
  - rewrite decide_True in HV.
    + by injection HL as <- _; injection HV as _ _ <- _.
    + destruct (b_first B), (b_last B);
        [exfalso; by apply Hno | by right | by left | by left].
Qed.

Lemma ValidLength_total_is_Length_witness :
  Length 3 (Some 0) mixed_owner_heap = Return 3%Z mixed_owner_heap ∧
  ValidLength 3 (Some 0) mixed_owner_heap = Return (1, 1, 3)%Z mixed_owner_heap ∧
  (3%Z = 3%Z ∧ mixed_owner_heap = mixed_owner_heap ∧ mixed_owner_heap = mixed_owner_heap).
Proof.
  split; [reflexivity |]. split; [reflexivity |].
  apply (ValidLength_total_is_Length mixed_owner_heap 3 (Some 0) 3 1 1 3
           mixed_owner_heap mixed_owner_heap); reflexivity.
Defined.

(** ** The convenience wrappers on a well-formed container *)

Section LocalValues.
Context {V : Type}.
Implicit Types (h : heap V) (l : list nat).

Lemma fresh_node_old h v m :
  m < length (nodes h) → nodes (with_fresh_node v h) !! m = nodes h !! m.
Proof.
  intros Hm. unfold with_fresh_node. simpl.
  rewrite list_lookup_alter_ne by lia. by rewrite lookup_app_l.
Qed.

Lemma fresh_node_wf h v b l : wf_base h b l → wf_base (with_fresh_node v h) b l.
Proof.
  intros Hwf. apply (wf_base_frame h); [done | done |].
  intros m Hm. apply fresh_node_old. by eapply wf_base_allocated.
Qed.

(** What the last node of a well-formed container looks like. *)
Lemma wf_base_tail_node h b l t :
  wf_base h b (l ++ [t]) →
  ∃ nd, nodes h !! t = Some nd ∧ n_next nd = None ∧ n_base nd = Some b.
Proof.
  intros Hwf. pose proof Hwf as (B & _ & Hc & _).
  apply lseg_snoc in Hc as (_ & nd & Hnd & Hnext).
  destruct (wf_base_lookup h b _ t Hwf (elem_of_snoc_last _ _)) as (nd' & Hnd' & Ho).
  rewrite Hnd in Hnd'. injection Hnd' as <-. eauto.
Qed.

Lemma AppendValue_of_wf h b l v :
  wf_base h b l →
  ∃ h', AppendValue (Some b) v h = Return None h' ∧
        wf_base h' b (l ++ [length (nodes h)]) ∧
        nodes h' !! length (nodes h) = Some (mk_node None (Some b) v) ∧
        (∀ m, m < length (nodes h) →
              n_value <$> nodes h' !! m = n_value <$> nodes h !! m) ∧
        others_kept h b h'.
Proof.
  intros Hwf. set (n := length (nodes h)).
  pose proof (fresh_node_lookup h v) as Hn. fold n in Hn.
  destruct (Append_wf (with_fresh_node v h) b l n _ (fresh_node_wf h v b l Hwf) Hn eq_refl)
    as (h' & Hrun & Hwf' & (_ & Hval & _) & Hothers).
  exists h'. repeat split; try done.
  - unfold AppendValue. rewrite fresh_node_run. fold n.
    by rewrite (bind_Return _ _ _ _ _ Hrun).
  - destruct (wf_base_tail_node h' b l n Hwf') as (nd & Hnd & Hnext & Hbase).
    pose proof (Hval n) as Hv. rewrite Hnd, Hn in Hv. simpl in Hv.
    rewrite Hnd. destruct nd; simpl in *. congruence.
  - intros m Hm. by rewrite Hval, fresh_node_old.
  - intros b' l' Hne Hwfb. by apply Hothers, fresh_node_wf.
Qed.

Lemma PrependValue_of_wf h b l v :
  wf_base h b l →
  ∃ h', PrependValue (Some b) v h = Return None h' ∧
        wf_base h' b (length (nodes h) :: l) ∧
        n_value <$> nodes h' !! length (nodes h) = Some v ∧
        (∀ m, m < length (nodes h) →
              n_value <$> nodes h' !! m = n_value <$> nodes h !! m) ∧
        others_kept h b h'.
Proof.
  intros Hwf. set (n := length (nodes h)).
  pose proof (fresh_node_lookup h v) as Hn. fold n in Hn.
  destruct (Prepend_wf (with_fresh_node v h) b l n _ (fresh_node_wf h v b l Hwf) Hn eq_refl)
    as (h' & Hrun & Hwf' & (_ & Hval & _) & Hothers).
  exists h'. repeat split; try done.
  - unfold PrependValue. rewrite fresh_node_run. fold n.
    by rewrite (bind_Return _ _ _ _ _ Hrun).
  - by rewrite Hval, Hn.
  - intros m Hm. by rewrite Hval, fresh_node_old.
  - intros b' l' Hne Hwfb. by apply Hothers, fresh_node_wf.
Qed.

End LocalValues.

(** ** Insertion *)

(** X5: [Append] of a node without owner to a well-formed container
    hands back no error and makes the node the new last node: the
    container is well formed with the old chain followed by the node.
    Only [next] and [base] of the node and of the old nodes of this
    container can have changed; payloads, other nodes, iterators and
    every other well-formed container are as before. *)
Theorem Append_links_at_tail {V} (h : heap V) (b : nat) (l : list nat) (n : nat)
    (nd : List_node V) :
  wf_base h b l → nodes h !! n = Some nd → n_base nd = None →
  ∃ h', Append (Some b) (Some n) h = Return None h' ∧
        wf_base h' b (l ++ [n]) ∧
        only_changes h b (n :: l) h' ∧ others_kept h b h'.
Proof. apply Append_wf. Qed.

Lemma Append_links_at_tail_witness :
  wf_base sample_heap 0 [0; 1] ∧
  nodes sample_heap !! 2 = Some (mk_node None None (Some 12%Z)) ∧
  ∃ h', Append (Some 0) (Some 2) sample_heap = Return None h' ∧
        wf_base h' 0 ([0; 1] ++ [2]) ∧
        only_changes sample_heap 0 (2 :: [0; 1]) h' ∧ others_kept sample_heap 0 h'.
Proof.
  split; [exact sample_heap_wf0 |]. split; [reflexivity |].
  apply (Append_links_at_tail sample_heap 0 [0; 1] 2 (mk_node None None (Some 12%Z))
           sample_heap_wf0); reflexivity.
Defined.

(** X6: [Prepend] of a node without owner to a well-formed container
    hands back no error and makes the node the new first node, before
    the old chain. Only the node itself is written to; payloads, other
    nodes, iterators and every other well-formed container are as
    before. *)
Theorem Prepend_links_at_head {V} (h : heap V) (b : nat) (l : list nat) (n : nat)
    (nd : List_node V) :
  wf_base h b l → nodes h !! n = Some nd → n_base nd = None →
  ∃ h', Prepend (Some b) (Some n) h = Return None h' ∧
        wf_base h' b (n :: l) ∧
        only_changes h b [n] h' ∧ others_kept h b h'.
Proof. apply Prepend_wf. Qed.

Lemma Prepend_links_at_head_witness :
  wf_base sample_heap 0 [0; 1] ∧
  nodes sample_heap !! 2 = Some (mk_node None None (Some 12%Z)) ∧
  ∃ h', Prepend (Some 0) (Some 2) sample_heap = Return None h' ∧
        wf_base h' 0 (2 :: [0; 1]) ∧
        only_changes sample_heap 0 [2] h' ∧ others_kept sample_heap 0 h'.
Proof.
  split; [exact sample_heap_wf0 |]. split; [reflexivity |].
  apply (Prepend_links_at_head sample_heap 0 [0; 1] 2 (mk_node None None (Some 12%Z))
           sample_heap_wf0); reflexivity.
Defined.

(** X7: [Prepend] of a node whose base-pointer is set, to this container
    or to another, fails with AlreadyOwned and leaves the heap as it
    was. *)
Theorem Prepend_owned_rejected {V} (h : heap V) (b n o : nat) :
  owner h n = Some o →
  ∃ e, Prepend (Some b) (Some n) h = Return (Some e) h ∧
       kind_of e = Some AlreadyOwned.
Proof.
  unfold owner. intros Ho.
  destruct (nodes h !! n) as [nd|] eqn:Hn; [simpl in Ho | done].
  unfold Prepend.
  rewrite (bind_Return _ _ _ _ _ (load_node_Return _ _ _ Hn)).
  rewrite decide_True by congruence. eauto.
Qed.

Lemma Prepend_owned_rejected_witness :
  owner sample_heap 3 = Some 1 ∧
  ∃ e, Prepend (Some 0) (Some 3) sample_heap = Return (Some e) sample_heap ∧
       kind_of e = Some AlreadyOwned.
Proof.
  split; [reflexivity |].
  apply (Prepend_owned_rejected sample_heap 0 3 1). reflexivity.
Defined.

(** X8: [AppendValue] on a well-formed container never fails: it
    allocates a node at the end of the arena, gives it the payload and
    links it as the new last node. The payloads of the old nodes and
    every other well-formed container are as before. *)
Theorem AppendValue_appends {V} (h : heap V) (b : nat) (l : list nat) (v : option V) :
  wf_base h b l →
  ∃ h', AppendValue (Some b) v h = Return None h' ∧
        wf_base h' b (l ++ [length (nodes h)]) ∧
        nodes h' !! length (nodes h) = Some (mk_node None (Some b) v) ∧
        (∀ m, m < length (nodes h) →
              n_value <$> nodes h' !! m = n_value <$> nodes h !! m) ∧
        others_kept h b h'.
Proof. apply AppendValue_of_wf. Qed.

Lemma AppendValue_appends_witness :
  wf_base sample_heap 0 [0; 1] ∧
  ∃ h', AppendValue (Some 0) (Some 5%Z) sample_heap = Return None h' ∧
        wf_base h' 0 ([0; 1] ++ [length (nodes sample_heap)]) ∧
        nodes h' !! length (nodes sample_heap) = Some (mk_node None (Some 0) (Some 5%Z)) ∧
        (∀ m, m < length (nodes sample_heap) →
              n_value <$> nodes h' !! m = n_value <$> nodes sample_heap !! m) ∧
        others_kept sample_heap 0 h'.
Proof.
  split; [exact sample_heap_wf0 |].
  apply (AppendValue_appends sample_heap 0 [0; 1] (Some 5%Z) sample_heap_wf0).
Defined.

(** X9: [PrependValue] on a well-formed container never fails: it
    allocates a node at the end of the arena, gives it the payload and
    links it as the new first node. The payloads of the old nodes and
    every other well-formed container are as before. *)
Theorem PrependValue_prepends {V} (h : heap V) (b : nat) (l : list nat) (v : option V) :
  wf_base h b l →
  ∃ h', PrependValue (Some b) v h = Return None h' ∧
        wf_base h' b (length (nodes h) :: l) ∧
        n_value <$> nodes h' !! length (nodes h) = Some v ∧
        (∀ m, m < length (nodes h) →
              n_value <$> nodes h' !! m = n_value <$> nodes h !! m) ∧
        others_kept h b h'.
Proof. apply PrependValue_of_wf. Qed.

Lemma PrependValue_prepends_witness :
  wf_base sample_heap 0 [0; 1] ∧
  ∃ h', PrependValue (Some 0) (Some 5%Z) sample_heap = Return None h' ∧
        wf_base h' 0 (length (nodes sample_heap) :: [0; 1]) ∧
        n_value <$> nodes h' !! length (nodes sample_heap) = Some (Some 5%Z) ∧
        (∀ m, m < length (nodes sample_heap) →
              n_value <$> nodes h' !! m = n_value <$> nodes sample_heap !! m) ∧
        others_kept sample_heap 0 h'.
Proof.
  split; [exact sample_heap_wf0 |].
  apply (PrependValue_prepends sample_heap 0 [0; 1] (Some 5%Z) sample_heap_wf0).
Defined.

(** ** Members and strangers *)

Section LocalMembership.
Context {V : Type}.
Implicit Types (h : heap V) (l : list nat).

Lemma wf_base_nil_first h b B : wf_base h b [] → bases h !! b = Some B → b_first B = None.
Proof.
  intros (B' & Hb & Hc & _) HB. rewrite HB in Hb. injection Hb as <-.
  by apply chain_nil in Hc.
Qed.

Lemma wf_base_ends h b B l :
  wf_base h b l → bases h !! b = Some B → l ≠ [] →
  b_first B ≠ None ∧ b_last B ≠ None.
Proof.
  intros (B' & Hb & Hc & Hl & _) HB Hne. rewrite HB in Hb. injection Hb as <-.
  split.
  - intros Hf. rewrite Hf in Hc. by apply chain_None in Hc.
  - rewrite Hl. intros Hnone. by apply last_None in Hnone.
Qed.

Lemma Found_of_wf h fuel b l n nd :
  wf_base h b l → nodes h !! n = Some nd → length l ≤ fuel →
  ∃ r E, Found fuel (Some b) (Some n) h = Return (r, E) h ∧
         (r = true ↔ n ∈ l) ∧
         (E = None ↔ l = [] ∨ n_base nd = Some b).
Proof.
  intros Hwf Hn Hfuel. pose proof Hwf as (B & Hb & Hc & Hl & Ho).
  destruct (decide (l = [])) as [-> | Hne].
  { exists false, None. repeat split; try done; try (by left).
    - unfold Found.
      rewrite (bind_Return _ _ _ _ _ (load_base_Return _ _ _ Hb)).
      by rewrite decide_True by (by apply chain_nil in Hc).
    - by intros ?%elem_of_nil. }
  destruct (wf_base_ends h b B l Hwf Hb Hne) as (Hf & Hla).
  destruct (decide (n_base nd = Some b)) as [Hown | Hown].
  - exists (bool_decide (n ∈ l)), None. repeat split; try done; try (by right).
    + by apply Found_wf with nd.
    + apply bool_decide_eq_true_1.
    + apply bool_decide_eq_true_2.
  - eexists false, _. split; [by apply Found_not_owner with B nd |].
    split; split; try done.
    + intros Hin. apply Ho in Hin. unfold owner in Hin. rewrite Hn in Hin.
      simpl in Hin. done.
    + by intros [? | ?].
Qed.

Lemma Remove_scan_misses l : ∀ h fuel x n,
  chain (nodes h) x l → n ∉ l → length l ≤ fuel →
  Remove_scan fuel x (Some n) h = Return None h.
Proof.
  induction l as [|a l IH]; intros h fuel x n Hc Hn Hfuel.
  - apply chain_nil in Hc as ->. by destruct fuel.
  - destruct Hc as (-> & nd & Hnd & Hc).
    apply not_elem_of_cons in Hn as (Hna & Hnl).
    destruct fuel as [|fuel]; [simpl in Hfuel; lia |]. simpl.
    rewrite (bind_Return _ _ _ _ _ (load_node_Return _ _ _ Hnd)).
    rewrite decide_False.
    + apply IH; [done | done | simpl in Hfuel; lia].
    + intros Hnext. rewrite Hnext in Hc. destruct l as [|a' l'].
      * by apply chain_nil in Hc.
      * destruct Hc as (Heq & _). injection Heq as ->.
        apply Hnl, list_elem_of_here.
Qed.

End LocalMembership.

(** ** Removal *)

(** X10: [Popfirst] on a well-formed container that is not empty hands
    back the first node and no error. The container then holds the rest
    of the chain; the node has neither successor nor owner and keeps its
    payload; nothing but the node and the container is written to. *)
Theorem Popfirst_takes_head {V} (h : heap V) (b a : nat) (l : list nat) :
  wf_base h b (a :: l) →
  ∃ h', Popfirst (Some b) h = Return (Some a, None) h' ∧
        wf_base h' b l ∧ detached h' a ∧
        only_changes h b [a] h' ∧ others_kept h b h'.
Proof. apply Popfirst_wf. Qed.

Lemma Popfirst_takes_head_witness :
  wf_base sample_heap 0 [0; 1] ∧
  ∃ h', Popfirst (Some 0) sample_heap = Return (Some 0, None) h' ∧
        wf_base h' 0 [1] ∧ detached h' 0 ∧
        only_changes sample_heap 0 [0] h' ∧ others_kept sample_heap 0 h'.
Proof.
  split; [exact sample_heap_wf0 |].
  apply (Popfirst_takes_head sample_heap 0 0 [1] sample_heap_wf0).
Defined.

(** X11: [Poplast] on a well-formed container that is not empty, with
    fuel for the scan to the node before the last, hands back the last
    node and no error. The container then holds the chain without it;
    the node has neither successor nor owner; payloads, other nodes,
    iterators and other well-formed containers are as before. *)
Theorem Poplast_takes_tail {V} (h : heap V) (fuel b : nat) (l : list nat) (t : nat) :
  wf_base h b (l ++ [t]) → length l ≤ fuel →
  ∃ h', Poplast fuel (Some b) h = Return (Some t, None) h' ∧
        wf_base h' b l ∧ detached h' t ∧
        only_changes h b (l ++ [t]) h' ∧ others_kept h b h'.
Proof. apply Poplast_wf. Qed.

Lemma Poplast_takes_tail_witness :
  wf_base sample_heap 0 ([0] ++ [1]) ∧ length [0] ≤ 1 ∧
  ∃ h', Poplast 1 (Some 0) sample_heap = Return (Some 1, None) h' ∧
        wf_base h' 0 [0] ∧ detached h' 1 ∧
        only_changes sample_heap 0 ([0] ++ [1]) h' ∧ others_kept sample_heap 0 h'.
Proof.
  split; [exact sample_heap_wf0 |]. split; [simpl; lia |].
  apply (Poplast_takes_tail sample_heap 1 0 [0] 1 sample_heap_wf0). simpl. lia.
Defined.

(** X12: [Remove] of a node of a well-formed container, with fuel for
    the scan to the node before it, hands back that node and no error.
    The container then holds the chain without the node, in the same
    order; the node has neither successor nor owner; payloads, other
    nodes, iterators and other well-formed containers are as before. *)
Theorem Remove_takes_member {V} (h : heap V) (fuel b : nat) (l1 : list nat) (n : nat)
    (l2 : list nat) :
  wf_base h b (l1 ++ n :: l2) → length l1 ≤ fuel →
  ∃ h', Remove fuel (Some b) (Some n) h = Return (Some n, None) h' ∧
        wf_base h' b (l1 ++ l2) ∧ detached h' n ∧
        only_changes h b (l1 ++ n :: l2) h' ∧ others_kept h b h'.
Proof. apply Remove_wf. Qed.

Lemma Remove_takes_member_witness :
  wf_base sample_heap 0 ([0] ++ 1 :: []) ∧ length [0] ≤ 1 ∧
  ∃ h', Remove 1 (Some 0) (Some 1) sample_heap = Return (Some 1, None) h' ∧
        wf_base h' 0 ([0] ++ []) ∧ detached h' 1 ∧
        only_changes sample_heap 0 ([0] ++ 1 :: []) h' ∧ others_kept sample_heap 0 h'.
Proof.
  split; [exact sample_heap_wf0 |]. split; [simpl; lia |].
  apply (Remove_takes_member sample_heap 1 0 [0] 1 [] sample_heap_wf0). simpl. lia.
Defined.

(** X13: on a well-formed container, with fuel for its length, [Found]
    leaves the heap as it was and answers true exactly for the nodes of
    the chain. It reports an error exactly when the container is not
    empty and the node's base-pointer is not this container. *)
Theorem Found_true_iff_member {V} (h : heap V) (fuel b : nat) (l : list nat) (n : nat)
    (nd : List_node V) :
  wf_base h b l → nodes h !! n = Some nd → length l ≤ fuel →
  ∃ r E, Found fuel (Some b) (Some n) h = Return (r, E) h ∧
         (r = true ↔ n ∈ l) ∧
         (E = None ↔ l = [] ∨ n_base nd = Some b).
Proof. apply Found_of_wf. Qed.

Lemma Found_true_iff_member_witness :
  wf_base sample_heap 0 [0; 1] ∧
  nodes sample_heap !! 1 = Some (mk_node None (Some 0) (Some 11%Z)) ∧
  length [0; 1] ≤ 2 ∧
  ∃ r E, Found 2 (Some 0) (Some 1) sample_heap = Return (r, E) sample_heap ∧
         (r = true ↔ 1 ∈ [0; 1]) ∧
         (E = None ↔ [0; 1] = [] ∨
                     n_base (mk_node None (Some 0) (Some 11%Z)) = Some 0).
Proof.
  split; [exact sample_heap_wf0 |]. split; [reflexivity |]. split; [simpl; lia |].
  apply (Found_true_iff_member sample_heap 2 0 [0; 1] 1
           (mk_node None (Some 0) (Some 11%Z)) sample_heap_wf0);
    [reflexivity | simpl; lia].
Defined.

(** X14: [Remove] of a node that is not in the chain of a well-formed
    container hands back nil and leaves the heap as it was, whatever the
    node's base-pointer says; it reports an error unless the container
    is empty. *)
Theorem Remove_non_member {V} (h : heap V) (fuel b : nat) (l : list nat) (n : nat)
    (nd : List_node V) :
  wf_base h b l → nodes h !! n = Some nd → n ∉ l → length l ≤ fuel →
  ∃ E, Remove fuel (Some b) (Some n) h = Return (None, E) h ∧
       (E = None ↔ l = []).
Proof.
  intros Hwf Hn Hnl Hfuel. pose proof Hwf as (B & Hb & Hc & Hl & Ho).
  destruct (decide (l = [])) as [-> | Hne].
  { exists None. split; [|done]. unfold Remove.
    rewrite (bind_Return _ _ _ _ _ (load_base_Return _ _ _ Hb)).
    by rewrite decide_True by (by apply chain_nil in Hc). }
  destruct (wf_base_ends h b B l Hwf Hb Hne) as (Hf & Hla).
  destruct (decide (n_base nd = Some b)) as [Hown | Hown].
  - eexists (Some _). split; [|done]. unfold Remove.
    rewrite (bind_Return _ _ _ _ _ (load_base_Return _ _ _ Hb)).
    rewrite decide_False, decide_False by done.
    rewrite (bind_Return _ _ _ _ _ (load_node_Return _ _ _ Hn)).
    rewrite decide_False by (intros Hx; by apply Hx).
    rewrite decide_False.
    2:{ intros Hfn. rewrite Hfn in Hc. destruct l as [|a l']; [done |].
        destruct Hc as (Heq & _). injection Heq as ->.
        apply Hnl, list_elem_of_here. }
    by rewrite (bind_Return _ _ _ _ _ (Remove_scan_misses l h fuel _ n Hc Hnl Hfuel)).
  - eexists (Some _). split; [|done]. by apply Remove_not_owner with B nd.
Qed.

Lemma Remove_non_member_witness :
  wf_base sample_heap 0 [0; 1] ∧
  nodes sample_heap !! 3 = Some (mk_node None (Some 1) (Some 13%Z)) ∧
  (3 ∉ [0; 1]) ∧ length [0; 1] ≤ 2 ∧
  ∃ E, Remove 2 (Some 0) (Some 3) sample_heap = Return (None, E) sample_heap ∧
       (E = None ↔ [0; 1] = []).
Proof.
  assert (3 ∉ [0; 1]) as Hnot.
  { intros Hin. apply elem_of_cons in Hin as [? | Hin]; [lia |].
    apply elem_of_cons in Hin as [? | Hin]; [lia |]. by apply elem_of_nil in Hin. }
  split; [exact sample_heap_wf0 |]. split; [reflexivity |].
  split; [exact Hnot |]. split; [simpl; lia |].
  apply (Remove_non_member sample_heap 2 0 [0; 1] 3
           (mk_node None (Some 1) (Some 13%Z)) sample_heap_wf0);
    [reflexivity | exact Hnot | simpl; lia].
Defined.

Section HalfSet.
Context {V : Type}.
Implicit Types (h : heap V).

Lemma first_nil_calls h fuel b B (q : node_ptr) :
  bases h !! b = Some B → b_first B = None →
  Empty (Some b) h = Return true h ∧
  Length fuel (Some b) h = Return 0%Z h ∧
  ValidLength fuel (Some b) h = Return (0, 0, 0)%Z h ∧
  Popfirst (Some b) h = Return (None, None) h ∧
  Poplast fuel (Some b) h = Return (None, None) h ∧
  Found fuel (Some b) q h = Return (false, None) h ∧
  Remove fuel (Some b) q h = Return (None, None) h ∧
  Clear fuel (Some b) h = Return None h.
Proof.
  intros Hb Hf.
  unfold Empty, Length, ValidLength, Popfirst, Poplast, Found, Remove, Clear.
  rewrite !(bind_Return _ _ _ _ _ (load_base_Return _ _ _ Hb)).
  rewrite !(decide_True (P := b_first B = None)) by done.
  rewrite (decide_False (P := b_first B ≠ None ∧ b_last B ≠ None)) by tauto.
  rewrite (decide_True (P := b_first B = None ∨ b_last B = None)) by tauto.
  repeat split; try done; destruct q; try done;
    by rewrite (bind_Return _ _ _ _ _ (load_base_Return _ _ _ Hb)), decide_True.
Qed.

End HalfSet.

(** ** Empty and half-set containers *)

(** X15: a container whose [first] is nil is treated as empty whatever
    its [last] says and whatever node is passed: [Popfirst], [Poplast],
    [Found], [Remove] and [Clear] report no error and leave the heap as
    it was, [Empty] answers true and both counts are zero. In
    particular [Found] and [Remove] do not look at the owner of the
    node. *)
Theorem first_nil_is_empty {V} (h : heap V) (fuel b : nat) (B : List_base)
    (q : node_ptr) :
  bases h !! b = Some B → b_first B = None →
  Empty (Some b) h = Return true h ∧
  Length fuel (Some b) h = Return 0%Z h ∧
  ValidLength fuel (Some b) h = Return (0, 0, 0)%Z h ∧
  Popfirst (Some b) h = Return (None, None) h ∧
  Poplast fuel (Some b) h = Return (None, None) h ∧
  Found fuel (Some b) q h = Return (false, None) h ∧
  Remove fuel (Some b) q h = Return (None, None) h ∧
  Clear fuel (Some b) h = Return None h.
Proof. apply first_nil_calls. Qed.

Lemma first_nil_is_empty_witness :
  bases last_only_heap !! 0 = Some (mk_base None (Some 0)) ∧
  Empty (Some 0) last_only_heap = Return true last_only_heap ∧
  Length 0 (Some 0) last_only_heap = Return 0%Z last_only_heap ∧
  ValidLength 0 (Some 0) last_only_heap = Return (0, 0, 0)%Z last_only_heap ∧
  Popfirst (Some 0) last_only_heap = Return (None, None) last_only_heap ∧
  Poplast 0 (Some 0) last_only_heap = Return (None, None) last_only_heap ∧
  Found 0 (Some 0) (Some 0) last_only_heap = Return (false, None) last_only_heap ∧
  Remove 0 (Some 0) (Some 0) last_only_heap = Return (None, None) last_only_heap ∧
  Clear 0 (Some 0) last_only_heap = Return None last_only_heap.
Proof.
  split; [reflexivity |].
  apply (first_nil_is_empty last_only_heap 0 0 (mk_base None (Some 0)) (Some 0));
    reflexivity.
Defined.

(** X16: a container whose [first] is set while its [last] is nil is
    reported by [Popfirst], [Poplast], [Clear] and, for a node that is
    not nil, by [Found] and [Remove]: each fails with CorruptState and
    leaves the heap as it was. [Empty] answers false, and [Length] and
    [ValidLength] hand back zero without walking the chain. *)
Theorem first_without_last {V} (h : heap V) (fuel b : nat) (B : List_base) (n : nat) :
  bases h !! b = Some B → b_first B ≠ None → b_last B = None →
  Empty (Some b) h = Return false h ∧
  Length fuel (Some b) h = Return 0%Z h ∧
  ValidLength fuel (Some b) h = Return (0, 0, 0)%Z h ∧
  (∃ e, Popfirst (Some b) h = Return (None, Some e) h ∧
        kind_of e = Some CorruptState) ∧
  (∃ e, Poplast fuel (Some b) h = Return (None, Some e) h ∧
        kind_of e = Some CorruptState) ∧
  (∃ e, Found fuel (Some b) (Some n) h = Return (false, Some e) h ∧
        kind_of e = Some CorruptState) ∧
  (∃ e, Remove fuel (Some b) (Some n) h = Return (None, Some e) h ∧
        kind_of e = Some CorruptState) ∧
  (∃ e, Clear fuel (Some b) h = Return (Some e) h ∧
        kind_of e = Some CorruptState).
Proof.
  intros Hb Hf Hl.
  unfold Empty, Length, ValidLength, Popfirst, Poplast, Found, Remove, Clear.
  rewrite !(bind_Return _ _ _ _ _ (load_base_Return _ _ _ Hb)).
  rewrite !(decide_False (P := b_first B = None)) by done.
  rewrite !(decide_True (P := b_last B = None)) by done.
  rewrite (decide_False (P := b_first B ≠ None ∧ b_last B ≠ None)) by tauto.
  rewrite (decide_True (P := b_first B = None ∨ b_last B = None)) by tauto.
  repeat split; try done; by eexists.
Qed.

Lemma first_without_last_witness :
  bases first_only_heap !! 0 = Some (mk_base (Some 0) None) ∧
  Empty (Some 0) first_only_heap = Return false first_only_heap ∧
  Length 1 (Some 0) first_only_heap = Return 0%Z first_only_heap ∧
  ValidLength 1 (Some 0) first_only_heap = Return (0, 0, 0)%Z first_only_heap ∧
  (∃ e, Popfirst (Some 0) first_only_heap = Return (None, Some e) first_only_heap ∧
        kind_of e = Some CorruptState) ∧
  (∃ e, Poplast 1 (Some 0) first_only_heap = Return (None, Some e) first_only_heap ∧
        kind_of e = Some CorruptState) ∧
  (∃ e, Found 1 (Some 0) (Some 0) first_only_heap
          = Return (false, Some e) first_only_heap ∧
        kind_of e = Some CorruptState) ∧
  (∃ e, Remove 1 (Some 0) (Some 0) first_only_heap
          = Return (None, Some e) first_only_heap ∧
        kind_of e = Some CorruptState) ∧
  (∃ e, Clear 1 (Some 0) first_only_heap = Return (Some e) first_only_heap ∧
        kind_of e = Some CorruptState).
Proof.
  split; [reflexivity |].
  apply (first_without_last first_only_heap 1 0 (mk_base (Some 0) None) 0);
    [reflexivity | discriminate | reflexivity].
Defined.

(** ** Calls on a consistent heap report no corruption *)

Section Sound.
Context {V : Type}.
Implicit Types (h : heap V) (l : list nat).

Lemma consistent_wf h b :
  consistent h → b < length (bases h) →
  ∃ l, wf_base h b l ∧ (∀ n, owner h n = Some b → n ∈ l) ∧
       length l ≤ length (nodes h).
Proof.
  intros [Hwf _] Hb. destruct (Hwf b Hb) as (l & Hl & Hall).
  exists l. repeat split; [done | done |].
  destruct Hl as (B & _ & Hc & _). by eapply chain_length.
Qed.

Lemma new_error_kind (msg : string) (k : err_kind) :
  kind_of (elist_New msg) = Some k → k ≠ CorruptState →
  ¬ fails_with CorruptState (Some (elist_New msg)).
Proof. intros Hk Hne (e & [= <-] & Hk'). congruence. Qed.

Lemma no_failure : ¬ fails_with CorruptState None.
Proof. by intros (e & ? & _). Qed.

(** On a consistent heap a call with valid pointers and fuel for every
    node returns, and what it reports is never an integrity error. *)
Lemma exec_sound fuel h c :
  consistent h → valid_call h c → length (nodes h) ≤ fuel →
  ∃ r h', exec fuel c h = Return r h' ∧ ¬ fails_with CorruptState (failure r).
Proof.
  intros Hcons [Hp Hq] Hfuel.
  assert (∀ {A} (m : M V A) (f : A → retval) a h',
            m h = Return a h' → ¬ fails_with CorruptState (failure (f a)) →
            ∃ r h'', (x ← m; mret (f x)) h = Return r h'' ∧
                     ¬ fails_with CorruptState (failure r)) as Hret.
  { intros A m f a h' Hm Hfail. rewrite (bind_Return _ _ _ _ _ Hm).
    by eexists _, _. }
  assert (∀ msg : string,
            kind_of (elist_New msg) = Some NilReceiver →
            ¬ fails_with CorruptState (Some (elist_New msg))) as Hnil.
  { intros msg Hk. by apply (new_error_kind msg NilReceiver). }
  destruct c; simpl in Hp, Hq; unfold exec;
    (destruct p as [b|];
     [|eapply Hret; [reflexivity |]; simpl;
       first [apply no_failure | by apply Hnil]]);
    destruct (consistent_wf h b Hcons Hp) as (l & Hwf & Hall & Hlen);
    pose proof Hwf as (B & Hb & Hc & Hl & Ho).
  - (* Empty *)
    assert (∃ a, Empty (Some b) h = Return a h) as (a & Ha).
    { unfold Empty. rewrite (bind_Return _ _ _ _ _ (load_base_Return _ _ _ Hb)).
      destruct (decide _); by eexists. }
    eapply Hret; [exact Ha | apply no_failure].
  - (* GetFirst *)
    eapply Hret; [|apply no_failure]. unfold GetFirst.
    by rewrite (bind_Return _ _ _ _ _ (load_base_Return _ _ _ Hb)).
  - (* Length *)
    destruct (Length_loop_chain l h fuel (b_first B) 0%Z Hc ltac:(lia)) as (r & Hr).
    assert (∃ a, Length fuel (Some b) h = Return a h) as (a & Ha).
    { unfold Length. rewrite (bind_Return _ _ _ _ _ (load_base_Return _ _ _ Hb)).
      destruct (decide _); by eexists. }
    eapply Hret; [exact Ha | apply no_failure].
  - (* ValidLength *)
    destruct (ValidLength_loop_chain l h fuel (Some b) (b_first B) (0, 0, 0)%Z Hc
                ltac:(lia)) as (r & Hr).
    assert (∃ a, ValidLength fuel (Some b) h = Return a h) as (a & Ha).
    { unfold ValidLength. rewrite (bind_Return _ _ _ _ _ (load_base_Return _ _ _ Hb)).
      destruct (decide _); by eexists. }
    eapply Hret; [exact Ha | apply no_failure].
  - (* Append *)
    destruct pnode as [n|]; [|eapply Hret; [reflexivity | apply no_failure]].
    apply lookup_lt_is_Some in Hq as (nd & Hn).
    destruct (decide (n_base nd = None)) as [Hfree | Howned].
    + destruct (Append_wf h b l n nd Hwf Hn Hfree) as (h' & Hrun & _).
      eapply Hret; [exact Hrun | apply no_failure].
    + eapply Hret.
      * unfold Append. rewrite (bind_Return _ _ _ _ _ (load_node_Return _ _ _ Hn)).
        by rewrite decide_True.
      * by apply (new_error_kind _ AlreadyOwned).
  - (* AppendValue *)
    destruct (AppendValue_of_wf h b l v Hwf) as (h' & Hrun & _).
    eapply Hret; [exact Hrun | apply no_failure].
  - (* Prepend *)
    destruct pnode as [n|]; [|eapply Hret; [reflexivity | apply no_failure]].
    apply lookup_lt_is_Some in Hq as (nd & Hn).
    destruct (decide (n_base nd = None)) as [Hfree | Howned].
    + destruct (Prepend_wf h b l n nd Hwf Hn Hfree) as (h' & Hrun & _).
      eapply Hret; [exact Hrun | apply no_failure].
    + eapply Hret.
      * unfold Prepend. rewrite (bind_Return _ _ _ _ _ (load_node_Return _ _ _ Hn)).
        by rewrite decide_True.
      * by apply (new_error_kind _ AlreadyOwned).
  - (* PrependValue *)
    destruct (PrependValue_of_wf h b l v Hwf) as (h' & Hrun & _).
    eapply Hret; [exact Hrun | apply no_failure].
  - (* Popfirst *)
    destruct l as [|a l].
    + destruct (first_nil_calls h fuel b B None Hb) as (_ & _ & _ & Hrun & _);
        [by apply chain_nil in Hc |].
      eapply Hret; [exact Hrun | apply no_failure].
    + destruct (Popfirst_wf h b a l Hwf) as (h' & Hrun & _).
      eapply Hret; [exact Hrun | apply no_failure].
  - (* Poplast *)
    destruct l as [|t l _] using rev_ind.
    + destruct (first_nil_calls h fuel b B None Hb) as (_ & _ & _ & _ & Hrun & _);
        [by apply chain_nil in Hc |].
      eapply Hret; [exact Hrun | apply no_failure].
    + destruct (Poplast_wf h fuel b l t Hwf) as (h' & Hrun & _).
      { rewrite length_app in Hlen. simpl in Hlen. lia. }
      eapply Hret; [exact Hrun | apply no_failure].
  - (* Found *)
    destruct (decide (l = [])) as [-> | Hne].
    { destruct (first_nil_calls h fuel b B q Hb) as (_ & _ & _ & _ & _ & Hrun & _);
        [by apply chain_nil in Hc |].
      eapply Hret; [exact Hrun | apply no_failure]. }
    destruct q as [n|]; [|eapply Hret; [reflexivity | apply no_failure]].
    apply lookup_lt_is_Some in Hq as (nd & Hn).
    destruct (wf_base_ends h b B l Hwf Hb Hne) as (Hf & Hla).
    destruct (decide (n_base nd = Some b)) as [Hown | Hown].
    + eapply Hret; [apply (Found_wf h fuel b l n nd); try done; lia |].
      apply no_failure.
    + eapply Hret; [by apply Found_not_owner with B nd |].
      by apply (new_error_kind _ NotOwner).
  - (* Remove *)
    destruct (decide (l = [])) as [-> | Hne].
    { destruct (first_nil_calls h fuel b B q Hb) as (_ & _ & _ & _ & _ & _ & Hrun & _);
        [by apply chain_nil in Hc |].
      eapply Hret; [exact Hrun | apply no_failure]. }
    destruct q as [n|]; [|eapply Hret; [reflexivity | apply no_failure]].
    apply lookup_lt_is_Some in Hq as (nd & Hn).
    destruct (wf_base_ends h b B l Hwf Hb Hne) as (Hf & Hla).
    destruct (decide (n_base nd = Some b)) as [Hown | Hown].
    + assert (n ∈ l) as Hin. { apply Hall, owner_Some. eauto. }
      apply list_elem_of_split in Hin as (l1 & l2 & ->).
      destruct (Remove_wf h fuel b l1 n l2 Hwf) as (h' & Hrun & _).
      { rewrite length_app in Hlen. lia. }
      eapply Hret; [exact Hrun | apply no_failure].
    + eapply Hret; [by apply Remove_not_owner with B nd |].
      by apply (new_error_kind _ NotOwner).
  - (* Clear *)
    destruct (decide (l = [])) as [-> | Hne].
    { destruct (first_nil_calls h fuel b B None Hb) as (_ & _ & _ & _ & _ & _ & _ & Hrun);
        [by apply chain_nil in Hc |].
      eapply Hret; [exact Hrun | apply no_failure]. }
    destruct (wf_base_ends h b B l Hwf Hb Hne) as (Hf & Hla).
    destruct (Clear_loop_chain l h fuel b B Hb Hc Hl) as [Hok _].
    destruct (Hok ltac:(lia)) as (h' & Hrun & _).
    eapply Hret; [|apply no_failure]. unfold Clear.
    rewrite (bind_Return _ _ _ _ _ (load_base_Return _ _ _ Hb)).
    rewrite decide_False, decide_False by done.
    by rewrite (bind_Return _ _ _ _ _ Hrun).
Qed.

Lemma two_lists_heap_reachable : reachable two_lists_heap.
Proof.
  unfold reachable.
  eapply rtc_l; [by eapply step_new_base |].
  eapply rtc_l; [by eapply step_new_base |].
  eapply rtc_l; [|apply rtc_refl].
  apply (step_call _ 0 (CAppendValue (Some 0) (Some 7%Z)) (RErr None)).
  - split; simpl; [lia | done].
  - reflexivity.
Qed.

End Sound.

(** ** Heaps a client can reach *)

(** X17: in every heap a client can reach from the empty heap through
    the exported methods, every container is well formed: the chain
    from [first] ends in nil and visits no node twice, [last] is its
    last node (so [first] and [last] are nil together), and the nodes of
    the chain are exactly the nodes whose base-pointer names the
    container. No base-pointer names a container that does not exist. *)
Theorem reachable_well_formed {V} (h : heap V) :
  reachable h →
  (∀ b B, bases h !! b = Some B →
     ∃ l, chain (nodes h) (b_first B) l ∧ NoDup l ∧ b_last B = last l ∧
          ∀ n, n ∈ l ↔ owner h n = Some b) ∧
  (∀ n b, owner h n = Some b → b < length (bases h)).
Proof.
  intros Hr. apply reachable_consistent in Hr. split.
  - intros b B Hb. destruct (consistent_base h b B Hr Hb) as (l & Hc & Hl & Ho).
    exists l. repeat split; try done; try apply Ho. by eapply chain_NoDup.
  - apply Hr.
Qed.

Lemma reachable_well_formed_witness :
  reachable two_lists_heap ∧
  (∀ b B, bases two_lists_heap !! b = Some B →
     ∃ l, chain (nodes two_lists_heap) (b_first B) l ∧ NoDup l ∧ b_last B = last l ∧
          ∀ n, n ∈ l ↔ owner two_lists_heap n = Some b) ∧
  (∀ n b, owner two_lists_heap n = Some b → b < length (bases two_lists_heap)).
Proof.
  split; [exact two_lists_heap_reachable |].
  apply (reachable_well_formed two_lists_heap two_lists_heap_reachable).
Defined.

(** X18: in every heap a client can reach, a call of any container
    method with pointers to existing objects and fuel for every node
    returns: it neither dereferences nil nor loops forever. What it
    reports is never CorruptState, and the heap it leaves can be reached
    as well. *)
Theorem reachable_calls_sound {V} (h : heap V) (fuel : nat) (c : call V) :
  reachable h → valid_call h c → length (nodes h) ≤ fuel →
  ∃ r h', exec fuel c h = Return r h' ∧
          ¬ fails_with CorruptState (failure r) ∧ reachable h'.
Proof.
  intros Hr Hc Hfuel.
  destruct (exec_sound fuel h c (reachable_consistent h Hr) Hc Hfuel)
    as (r & h' & Hrun & Hfail).
  exists r, h'. repeat split; [done | done |].
  eapply rtc_r; [exact Hr |]. by eapply step_call.
Qed.

Lemma reachable_calls_sound_witness :
  reachable two_lists_heap ∧
  valid_call two_lists_heap (CPoplast (Some 0)) ∧
  length (nodes two_lists_heap) ≤ 1 ∧
  ∃ r h', exec 1 (CPoplast (Some 0)) two_lists_heap = Return r h' ∧
          ¬ fails_with CorruptState (failure r) ∧ reachable h'.
Proof.
  assert (valid_call two_lists_heap (CPoplast (Some 0))) as Hc.
  { split; simpl; [lia | done]. }
  split; [exact two_lists_heap_reachable |]. split; [exact Hc |].
  split; [simpl; lia |].
  apply (reachable_calls_sound two_lists_heap 1 (CPoplast (Some 0))
           two_lists_heap_reachable Hc).
  simpl. lia.
Defined.

Section Walks.
Context {V : Type}.
Implicit Types (h : heap V) (l : list nat).

Lemma chain_head (ns : list (List_node V)) x l : chain ns x l → x = head l.
Proof. destruct l; [done | by intros (-> & _)]. Qed.

Lemma wf_base_same h h' b l :
  wf_base h b l → nodes h' = nodes h → bases h' = bases h → wf_base h' b l.
Proof.
  intros Hwf Hn Hb. apply (wf_base_frame h); [done | by rewrite Hb |].
  intros m _. by rewrite Hn.
Qed.

End Walks.

(** ** Walking a container by hand *)

(** X19: on a well-formed container [GetFirst] hands back the first
    node of the chain, and [GetNext] on a node of the chain hands back
    the node after it, nil for the last one, with no error; both leave
    the heap as it was. *)
Theorem GetNext_follows_chain {V} (h : heap V) (b : nat) (l : list nat) :
  wf_base h b l →
  GetFirst (Some b) h = Return (head l) h ∧
  ∀ l1 n l2, l = l1 ++ n :: l2 →
    GetNext (Some n) h = Return (head l2, None) h.
Proof.
  intros (B & Hb & Hc & _). split.
  - unfold GetFirst. rewrite (bind_Return _ _ _ _ _ (load_base_Return _ _ _ Hb)).
    by rewrite (chain_head _ _ _ Hc).
  - intros l1 n l2 ->. apply lseg_app in Hc as (y & _ & _ & nd & Hn & Hc).
    unfold GetNext. rewrite (bind_Return _ _ _ _ _ (load_node_Return _ _ _ Hn)).
    by rewrite (chain_head _ _ _ Hc).
Qed.

Lemma GetNext_follows_chain_witness :
  wf_base sample_heap 0 [0; 1] ∧
  GetFirst (Some 0) sample_heap = Return (head [0; 1]) sample_heap ∧
  ∀ l1 n l2, [0; 1] = l1 ++ n :: l2 →
    GetNext (Some n) sample_heap = Return (head l2, None) sample_heap.
Proof.
  split; [exact sample_heap_wf0 |].
  apply (GetNext_follows_chain sample_heap 0 [0; 1] sample_heap_wf0).
Defined.

(** X20: [SetValue] on an existing node reports no error, and a
    [GetValue] after it hands back the payload that was set. The node
    keeps its successor and its owner; other nodes, the containers and
    the iterators are as before. *)
Theorem SetValue_then_GetValue {V} (h : heap V) (n : nat) (nd : List_node V)
    (v : option V) :
  nodes h !! n = Some nd →
  ∃ h', SetValue (Some n) v h = Return None h' ∧
        GetValue (Some n) h' = Return (v, None) h' ∧
        nodes h' !! n = Some (mk_node (n_next nd) (n_base nd) v) ∧
        (∀ m, m ≠ n → nodes h' !! m = nodes h !! m) ∧
        bases h' = bases h ∧ iters h' = iters h.
Proof.
  intros Hn. exists (upd_node n (set_value v) h).
  assert (nodes (upd_node n (set_value v) h) !! n
            = Some (mk_node (n_next nd) (n_base nd) v)) as Hn'.
  { simpl. by rewrite list_lookup_alter_eq, Hn. }
  repeat split; try done.
  - unfold SetValue. by rewrite (bind_Return _ _ _ _ _ (store_node_Return _ _ _ _ Hn)).
  - by rewrite (GetValue_Return _ _ _ Hn').
  - intros m Hm. simpl. by rewrite list_lookup_alter_ne.
Qed.

Lemma SetValue_then_GetValue_witness :
  nodes sample_heap !! 0 = Some (mk_node (Some 1) (Some 0) (Some 10%Z)) ∧
  ∃ h', SetValue (Some 0) (Some 5%Z) sample_heap = Return None h' ∧
        GetValue (Some 0) h' = Return (Some 5%Z, None) h' ∧
        nodes h' !! 0 = Some (mk_node (Some 1) (Some 0) (Some 5%Z)) ∧
        (∀ m, m ≠ 0 → nodes h' !! m = nodes sample_heap !! m) ∧
        bases h' = bases sample_heap ∧ iters h' = iters sample_heap.
Proof.
  split; [reflexivity |].
  apply (SetValue_then_GetValue sample_heap 0 (mk_node (Some 1) (Some 0) (Some 10%Z))
           (Some 5%Z)).
  reflexivity.
Defined.

(** ** Iterators *)

(** X21: [Init] binds an iterator to a container whatever the iterator
    was bound to and wherever it stood. Calling [Next] after it until
    nil comes back delivers the nodes of a well-formed container in the
    order of its chain, each once, with no error, and writes to no node
    and no container. *)
Theorem Init_then_traverse {V} (h : heap V) (i : nat) (it : List_iter) (b : nat)
    (l : list nat) (fuel : nat) :
  wf_base h b l → iters h !! i = Some it → length l < fuel →
  ∃ h1 h2, Init (Some i) (Some b) h = Return None h1 ∧
           traverse fuel (Some i) h1 = Return (Some <$> l, None) h2 ∧
           nodes h2 = nodes h ∧ bases h2 = bases h.
Proof.
  intros Hwf Hi Hfuel. destruct (Init_binds h i it b Hi) as (Hinit & Hit).
  set (h1 := upd_iter i (set_current None) (upd_iter i (set_ibase (Some b)) h)) in *.
  assert (wf_base h1 b l) as Hwf1 by by apply (wf_base_same h).
  destruct (traverse_unstarted h1 i b l fuel Hwf1 Hit Hfuel)
    as (h2 & Hrun & Hn & Hb & _).
  exists h1, h2. repeat split; try done.
Qed.

Lemma Init_then_traverse_witness :
  wf_base sample_heap 1 [3] ∧
  iters sample_heap !! 2 = Some (mk_iter (Some 0) (Some 0)) ∧ length [3] < 2 ∧
  ∃ h1 h2, Init (Some 2) (Some 1) sample_heap = Return None h1 ∧
           traverse 2 (Some 2) h1 = Return (Some <$> [3], None) h2 ∧
           nodes h2 = nodes sample_heap ∧ bases h2 = bases sample_heap.
Proof.
  split; [exact sample_heap_wf1 |]. split; [reflexivity |]. split; [simpl; lia |].
  apply (Init_then_traverse sample_heap 2 (mk_iter (Some 0) (Some 0)) 1 [3] 2
           sample_heap_wf1); [reflexivity | simpl; lia].
Defined.

(** X22: an iterator that stands on a node of a well-formed container
    delivers, call by call of [Next], the nodes after that node and then
    nil. After [Restart] the same calls deliver the whole chain from the
    first node. No node and no container is written to. *)
Theorem traverse_resumes_and_restarts {V} (h : heap V) (i b : nat) (l1 : list nat)
    (c : nat) (l2 : list nat) (fuel : nat) :
  wf_base h b (l1 ++ c :: l2) → iter_at h i b (Some c) →
  length (l1 ++ c :: l2) < fuel →
  ∃ h1 h2 h3,
    traverse fuel (Some i) h = Return (Some <$> l2, None) h1 ∧
    Restart (Some i) h1 = Return None h2 ∧
    traverse fuel (Some i) h2 = Return (Some <$> (l1 ++ c :: l2), None) h3 ∧
    nodes h3 = nodes h ∧ bases h3 = bases h.
Proof.
  intros Hwf Hit Hfuel. pose proof Hwf as (B & Hb & Hc & Hl & Ho).
  apply lseg_app in Hc as (y & _ & Hc2). pose proof Hc2 as (-> & _).
  rewrite length_app in Hfuel. simpl in Hfuel.
  destruct (traverse_positioned l2 h i b c fuel Hit Hc2) as (h1 & Hrun1 & Hn1 & Hb1 & cur & Hcur).
  { intros m Hm. apply Ho, elem_of_app. by right. }
  { lia. }
  destruct (Restart_unstarts h1 i b cur Hcur) as (Hre & Hit2).
  set (h2 := upd_iter i (set_current None) h1) in *.
  assert (wf_base h2 b (l1 ++ c :: l2)) as Hwf2 by by apply (wf_base_same h).
  destruct (traverse_unstarted h2 i b _ fuel Hwf2 Hit2) as (h3 & Hrun3 & Hn3 & Hb3 & _).
  { rewrite length_app. simpl. lia. }
  exists h1, h2, h3. repeat split; try done.
  - by rewrite Hn3.
  - by rewrite Hb3.
Qed.

Lemma traverse_resumes_and_restarts_witness :
  wf_base sample_heap 0 ([] ++ 0 :: [1]) ∧ iter_at sample_heap 2 0 (Some 0) ∧
  length ([] ++ 0 :: [1]) < 3 ∧
  ∃ h1 h2 h3,
    traverse 3 (Some 2) sample_heap = Return (Some <$> [1], None) h1 ∧
    Restart (Some 2) h1 = Return None h2 ∧
    traverse 3 (Some 2) h2 = Return (Some <$> ([] ++ 0 :: [1]), None) h3 ∧
    nodes h3 = nodes sample_heap ∧ bases h3 = bases sample_heap.
Proof.
  assert (iter_at sample_heap 2 0 (Some 0)) as Hit.
  { exists (mk_iter (Some 0) (Some 0)). repeat split. }
  split; [exact sample_heap_wf0 |]. split; [exact Hit |]. split; [simpl; lia |].
  apply (traverse_resumes_and_restarts sample_heap 2 0 [] 0 [1] 3 sample_heap_wf0 Hit).
  simpl. lia.
Defined.

(** X23: when the node an iterator stands on is taken out of the
    container with [Remove], the next call of [Next] notices it: it
    hands back nil and fails with CorruptState, and leaves the heap,
    the cursor included, as it was. *)
Theorem Next_detects_removal {V} (h : heap V) (fuel i b : nat) (l1 : list nat)
    (c : nat) (l2 : list nat) :
  wf_base h b (l1 ++ c :: l2) → iter_at h i b (Some c) → length l1 ≤ fuel →
  ∃ h' e, Remove fuel (Some b) (Some c) h = Return (Some c, None) h' ∧
          Next (Some i) h' = Return (None, Some e) h' ∧
          kind_of e = Some CorruptState.
Proof.
  intros Hwf (it & Hi & Hib & Hic) Hfuel.
  destruct (Remove_wf h fuel b l1 c l2 Hwf Hfuel)
    as (h' & Hrun & _ & (nd & Hc & _ & Hfree) & (_ & _ & _ & Hiters) & _).
  rewrite <- Hiters in Hi.
  destruct (Next_positioned_bad_owner h' i it b c nd Hi Hib Hic Hc) as (e & Hnext & Hk).
  { by rewrite Hfree. }
  by exists h', e.
Qed.

Lemma Next_detects_removal_witness :
  wf_base sample_heap 0 ([] ++ 0 :: [1]) ∧ iter_at sample_heap 2 0 (Some 0) ∧
  length ([] : list nat) ≤ 0 ∧
  ∃ h' e, Remove 0 (Some 0) (Some 0) sample_heap = Return (Some 0, None) h' ∧
          Next (Some 2) h' = Return (None, Some e) h' ∧
          kind_of e = Some CorruptState.
Proof.
  assert (iter_at sample_heap 2 0 (Some 0)) as Hit.
  { exists (mk_iter (Some 0) (Some 0)). repeat split. }
  split; [exact sample_heap_wf0 |]. split; [exact Hit |]. split; [simpl; lia |].
  apply (Next_detects_removal sample_heap 0 2 0 [] 0 [1] sample_heap_wf0 Hit).
  simpl. lia.
Defined.

(** X24: for an iterator bound to a well-formed container, wherever it
    stands, [ItemCount] hands back the number of nodes of the container
    and [ItemCountValid] reports no anomaly and the same total; neither
    moves the cursor or changes anything else. *)
Theorem ItemCount_counts {V} (h : heap V) (fuel i b : nat) (cur : node_ptr)
    (l : list nat) :
  iter_at h i b cur → wf_base h b l → length l ≤ fuel →
  (Z.of_nat (length l) < 2 ^ 63)%Z →
  ItemCount fuel (Some i) h = Return (Z.of_nat (length l)) h ∧
  ItemCountValid fuel (Some i) h = Return (0, 0, Z.of_nat (length l))%Z h.
Proof.
  intros (it & Hi & Hib & _) Hwf Hfuel Hfit. unfold ItemCount, ItemCountValid.
  rewrite !(bind_Return _ _ _ _ _ (load_iter_Return _ _ _ Hi)).
  rewrite !decide_False by (by rewrite Hib). rewrite Hib.
  split; [by apply Length_of_wf | by apply ValidLength_of_wf].
Qed.

Lemma ItemCount_counts_witness :
  iter_at sample_heap 2 0 (Some 0) ∧ wf_base sample_heap 0 [0; 1] ∧
  ItemCount 2 (Some 2) sample_heap = Return 2%Z sample_heap ∧
  ItemCountValid 2 (Some 2) sample_heap = Return (0, 0, 2)%Z sample_heap.
Proof.
  assert (iter_at sample_heap 2 0 (Some 0)) as Hit.
  { exists (mk_iter (Some 0) (Some 0)). repeat split. }
  split; [exact Hit |]. split; [exact sample_heap_wf0 |].
  apply (ItemCount_counts sample_heap 2 2 0 (Some 0) [0; 1] Hit sample_heap_wf0);
    simpl; lia.
Defined.

(** ** Failing calls *)

Section Atomic.
Context {V : Type}.
Implicit Types (h : heap V).

(** Case analysis on everything a run inspects. *)
Ltac run_all H :=
  repeat match type of H with
         | context [match ?arena !! ?i with _ => _ end] =>
             destruct (arena !! i) eqn:?; simpl in H; try discriminate H
         | context [decide ?P] =>
             destruct (decide P); simpl in H; try discriminate H
         | context [match ?x with _ => _ end] =>
             is_var x; destruct x eqn:?; simpl in H; try discriminate H
         | context [match ?f ?x with _ => _ end] =>
             is_var x; destruct (f x) eqn:?; simpl in H; try discriminate H
         end.

Lemma Append_failed h p q e h' : Append p q h = Return (Some e) h' → h' = h.
Proof.
  destruct p as [b|]; [|by intros [= _ <-]].
  destruct q as [n|]; [|done].
  unfold Append, load_node, store_node, load_base, store_base, mbind, M_bind.
  intros H. run_all H; by injection H as _ <-.
Qed.

Lemma Prepend_failed h p q e h' : Prepend p q h = Return (Some e) h' → h' = h.
Proof.
  destruct p as [b|]; [|by intros [= _ <-]].
  destruct q as [n|]; [|done].
  unfold Prepend, load_node, store_node, load_base, store_base, mbind, M_bind.
  intros H. run_all H; by injection H as _ <-.
Qed.

(** Inserting a node without owner reports nothing. *)
Lemma Append_free h b n nd E h' :
  nodes h !! n = Some nd → n_base nd = None →
  Append (Some b) (Some n) h = Return E h' → E = None.
Proof.
  intros Hn Hfree. unfold Append.
  rewrite (bind_Return _ _ _ _ _ (load_node_Return _ _ _ Hn)).
  rewrite decide_False by (intros Hx; by apply Hx).
  unfold load_node, store_node, load_base, store_base, mbind, M_bind.
  intros H. run_all H; by injection H as <- _.
Qed.

Lemma Prepend_free h b n nd E h' :
  nodes h !! n = Some nd → n_base nd = None →
  Prepend (Some b) (Some n) h = Return E h' → E = None.
Proof.
  intros Hn Hfree. unfold Prepend.
  rewrite (bind_Return _ _ _ _ _ (load_node_Return _ _ _ Hn)).
  rewrite decide_False by (intros Hx; by apply Hx).
  unfold load_node, store_node, load_base, store_base, mbind, M_bind.
  intros H. run_all H; by injection H as <- _.
Qed.

Lemma AppendValue_failed h p v e h' :
  AppendValue p v h = Return (Some e) h' → h' = h.
Proof.
  destruct p as [b|]; [|by intros [= _ <-]].
  unfold AppendValue. rewrite fresh_node_run. unfold mbind, M_bind.
  destruct (Append _ _ _) as [E h1| |] eqn:Happ; [|done..].
  apply (Append_free _ _ _ _ _ _ (fresh_node_lookup h v) eq_refl) in Happ as ->.
  done.
Qed.

Lemma PrependValue_failed h p v e h' :
  PrependValue p v h = Return (Some e) h' → h' = h.
Proof.
  destruct p as [b|]; [|by intros [= _ <-]].
  unfold PrependValue. rewrite fresh_node_run. unfold mbind, M_bind.
  destruct (Prepend _ _ _) as [E h1| |] eqn:Happ; [|done..].
  apply (Prepend_free _ _ _ _ _ _ (fresh_node_lookup h v) eq_refl) in Happ as ->.
  done.
Qed.

Lemma Popfirst_failed h p x e h' : Popfirst p h = Return (x, Some e) h' → h' = h.
Proof.
  destruct p as [b|]; [|by intros [= _ _ <-]].
  unfold Popfirst, deref_node, unlink, load_node, store_node, load_base, store_base,
    panic, mbind, M_bind.
  intros H. run_all H; by injection H as _ _ <-.
Qed.

Lemma Poplast_scan_pure fuel : ∀ b q h r h',
  Poplast_scan fuel b q h = Return r h' → h' = h.
Proof.
  induction fuel as [|fuel IH]; intros b [a|] h r h'; simpl;
    try by intros [= _ <-].
  unfold load_node, load_base, mbind, M_bind. intros H.
  destruct (nodes h !! a); [|done]. destruct (bases h !! b); [|done].
  destruct (decide _); [by injection H as _ <- | by apply IH in H].
Qed.

Lemma Remove_scan_pure fuel : ∀ pnode q h r h',
  Remove_scan fuel pnode q h = Return r h' → h' = h.
Proof.
  induction fuel as [|fuel IH]; intros [a|] q h r h'; simpl;
    try by intros [= _ <-].
  unfold load_node, mbind, M_bind. intros H.
  destruct (nodes h !! a); [|done].
  destruct (decide _); [by injection H as _ <- | by apply IH in H].
Qed.

Lemma Poplast_failed fuel h p x e h' :
  Poplast fuel p h = Return (x, Some e) h' → h' = h.
Proof.
  destruct p as [b|]; [|by intros [= _ _ <-]].
  unfold Poplast, load_base, mbind, M_bind. intros H.
  destruct (bases h !! b) as [B|]; [|done].
  destruct (decide _); [done |].
  destruct (decide _); [by injection H as _ _ <- |].
  destruct (decide _).
  - unfold unlink, store_node, store_base, mbind, M_bind in H.
    run_all H.
  - destruct (Poplast_scan fuel b (b_first B) h) as [q h1| |] eqn:Hscan; [|done..].
    apply Poplast_scan_pure in Hscan as ->.
    destruct q as [a|]; [|by injection H as _ _ <-].
    unfold unlink, store_node, store_base, mbind, M_bind in H.
    run_all H.
Qed.

Lemma Remove_failed fuel h p q x e h' :
  Remove fuel p q h = Return (x, Some e) h' → h' = h.
Proof.
  destruct p as [b|]; [|by intros [= _ _ <-]].
  destruct q as [n|]; [|done].
  unfold Remove, load_base, load_node, mbind, M_bind. intros H.
  destruct (bases h !! b) as [B|]; [|done].
  destruct (decide _); [done |].
  destruct (decide _); [by injection H as _ _ <- |].
  destruct (nodes h !! n) as [nd|] eqn:Hn; [|done].
  destruct (decide _); [by injection H as _ _ <- |].
  destruct (decide _).
  - unfold unlink, store_node, store_base, mbind, M_bind in H.
    run_all H.
  - destruct (Remove_scan fuel (b_first B) (Some n) h) as [pn h1| |] eqn:Hscan;
      [|done..].
    apply Remove_scan_pure in Hscan as ->.
    destruct pn as [a|]; [|by injection H as _ _ <-].
    rewrite Hn in H.
    unfold unlink, store_node, store_base, mbind, M_bind in H.
    run_all H.
Qed.

Lemma Clear_failed fuel h p e h' : Clear fuel p h = Return (Some e) h' → h' = h.
Proof.
  destruct p as [b|]; [|by intros [= _ <-]].
  unfold Clear, load_base, mbind, M_bind. intros H.
  destruct (bases h !! b) as [B|]; [|done].
  destruct (decide _); [done |].
  destruct (decide _); [by injection H as _ <- |].
  by destruct (Clear_loop fuel b h).
Qed.

End Atomic.

(** ** What a call leaves alone *)

(** X25: in any heap, well formed or not, a container method that
    reports an error has changed nothing: the heap after the call is
    the heap before it. *)
Theorem failed_call_changes_nothing {V} (h : heap V) (fuel : nat) (c : call V)
    (r : retval) (h' : heap V) :
  exec fuel c h = Return r h' → failure r ≠ None → h' = h.
Proof.
  intros Hrun Hfail. destruct c; unfold exec, mbind, M_bind in Hrun.
  - destruct (Empty p h); [|done..]. by injection Hrun as <- _.
  - destruct (GetFirst p h); [|done..]. by injection Hrun as <- _.
  - destruct (Length fuel p h); [|done..]. by injection Hrun as <- _.
  - destruct (ValidLength fuel p h); [|done..]. by injection Hrun as <- _.
  - destruct (Append p pnode h) as [E h1| |] eqn:Hop; [|done..].
    injection Hrun as <- <-. destruct E; [by eapply Append_failed | done].
  - destruct (AppendValue p v h) as [E h1| |] eqn:Hop; [|done..].
    injection Hrun as <- <-. destruct E; [by eapply AppendValue_failed | done].
  - destruct (Prepend p pnode h) as [E h1| |] eqn:Hop; [|done..].
    injection Hrun as <- <-. destruct E; [by eapply Prepend_failed | done].
  - destruct (PrependValue p v h) as [E h1| |] eqn:Hop; [|done..].
    injection Hrun as <- <-. destruct E; [by eapply PrependValue_failed | done].
  - destruct (Popfirst p h) as [[x E] h1| |] eqn:Hop; [|done..].
    injection Hrun as <- <-. destruct E; [by eapply Popfirst_failed | done].
  - destruct (Poplast fuel p h) as [[x E] h1| |] eqn:Hop; [|done..].
    injection Hrun as <- <-. destruct E; [by eapply Poplast_failed | done].
  - destruct (Found fuel p q h) as [x h1| |] eqn:Hop; [|done..].
    injection Hrun as <- <-. by eapply Found_pure.
  - destruct (Remove fuel p q h) as [[x E] h1| |] eqn:Hop; [|done..].
    injection Hrun as <- <-. destruct E; [by eapply Remove_failed | done].
  - destruct (Clear fuel p h) as [E h1| |] eqn:Hop; [|done..].
    injection Hrun as <- <-. destruct E; [by eapply Clear_failed | done].
Qed.

Lemma failed_call_changes_nothing_witness :
  exec 0 (CAppend (Some 0) (Some 3)) sample_heap
    = Return (RErr (Some (elist_New "List_base::Append: pnode.base != nil"%string)))
             sample_heap ∧
  sample_heap = sample_heap.
Proof.
  split; [reflexivity |].
  apply (failed_call_changes_nothing sample_heap 0 (CAppend (Some 0) (Some 3))
           (RErr (Some (elist_New "List_base::Append: pnode.base != nil"%string)))
           sample_heap); [reflexivity | discriminate].
Defined.

(** X26: in any heap, well formed or not, [Empty], [GetFirst],
    [Length], [ValidLength] and [Found] change nothing, whatever they
    hand back. *)
Theorem queries_change_nothing {V} (h : heap V) (fuel : nat) (c : call V)
    (r : retval) (h' : heap V) :
  exec fuel c h = Return r h' → query c = true → h' = h.
Proof.
  intros Hrun Hq. destruct c; try done; unfold exec, mbind, M_bind in Hrun.
  - destruct (Empty p h) as [x h1| |] eqn:Hop; [|done..].
    injection Hrun as _ <-. by eapply Empty_pure.
  - destruct (GetFirst p h) as [x h1| |] eqn:Hop; [|done..].
    injection Hrun as _ <-. by eapply GetFirst_pure.
  - destruct (Length fuel p h) as [x h1| |] eqn:Hop; [|done..].
    injection Hrun as _ <-. by eapply Length_pure.
  - destruct (ValidLength fuel p h) as [x h1| |] eqn:Hop; [|done..].
    injection Hrun as _ <-. by eapply ValidLength_pure.
  - destruct (Found fuel p q h) as [x h1| |] eqn:Hop; [|done..].
    injection Hrun as _ <-. by eapply Found_pure.
Qed.

Lemma queries_change_nothing_witness :
  exec 3 (CValidLength (Some 0)) mixed_owner_heap
    = Return (RInt3 (1, 1, 3)%Z) mixed_owner_heap ∧
  mixed_owner_heap = mixed_owner_heap.
Proof.
  split; [reflexivity |].
  apply (queries_change_nothing mixed_owner_heap 3 (CValidLength (Some 0))
           (RInt3 (1, 1, 3)%Z) mixed_owner_heap); reflexivity.
Defined.

Section Compositions.
Context {V : Type}.
Implicit Types (h : heap V) (l : list nat).

Lemma detached_value h h' n v :
  detached h' n → n_value <$> nodes h' !! n = n_value <$> nodes h !! n →
  n_value <$> nodes h !! n = Some v →
  GetValue (Some n) h' = Return (v, None) h'.
Proof.
  intros (nd & Hn & _) Hsame Hv. rewrite (GetValue_Return _ _ _ Hn).
  rewrite Hv, Hn in Hsame. simpl in Hsame. by injection Hsame as ->.
Qed.

Lemma AppendValue_Poplast h fuel b l v :
  wf_base h b l → length l ≤ fuel →
  ∃ h1 h2 n, AppendValue (Some b) v h = Return None h1 ∧
             Poplast fuel (Some b) h1 = Return (Some n, None) h2 ∧
             GetValue (Some n) h2 = Return (v, None) h2 ∧
             wf_base h2 b l.
Proof.
  intros Hwf Hfuel.
  destruct (AppendValue_of_wf h b l v Hwf) as (h1 & Hrun1 & Hwf1 & Hn & _).
  destruct (Poplast_wf h1 fuel b l _ Hwf1 Hfuel)
    as (h2 & Hrun2 & Hwf2 & Hdet & (_ & Hval & _) & _).
  exists h1, h2, (length (nodes h)). repeat split; try done.
  apply (detached_value h1); [done | apply Hval | by rewrite Hn].
Qed.

Lemma PrependValue_Popfirst h b l v :
  wf_base h b l →
  ∃ h1 h2 n, PrependValue (Some b) v h = Return None h1 ∧
             Popfirst (Some b) h1 = Return (Some n, None) h2 ∧
             GetValue (Some n) h2 = Return (v, None) h2 ∧
             wf_base h2 b l.
Proof.
  intros Hwf.
  destruct (PrependValue_of_wf h b l v Hwf) as (h1 & Hrun1 & Hwf1 & Hn & _).
  destruct (Popfirst_wf h1 b _ l Hwf1)
    as (h2 & Hrun2 & Hwf2 & Hdet & (_ & Hval & _) & _).
  exists h1, h2, (length (nodes h)). repeat split; try done.
  by apply (detached_value h1); [done | apply Hval |].
Qed.

End Compositions.

(** ** Calls in a row *)

(** X27: a payload put at an end of a well-formed container comes back
    from the same end: after [AppendValue], [Poplast] hands back a node
    whose payload is the one appended, and after [PrependValue],
    [Popfirst] does; in both cases the container then holds the chain it
    held before. *)
Theorem push_then_pop {V} (h : heap V) (fuel b : nat) (l : list nat) (v : option V) :
  wf_base h b l → length l ≤ fuel →
  (∃ h1 h2 n, AppendValue (Some b) v h = Return None h1 ∧
              Poplast fuel (Some b) h1 = Return (Some n, None) h2 ∧
              GetValue (Some n) h2 = Return (v, None) h2 ∧
              wf_base h2 b l) ∧
  (∃ h1 h2 n, PrependValue (Some b) v h = Return None h1 ∧
              Popfirst (Some b) h1 = Return (Some n, None) h2 ∧
              GetValue (Some n) h2 = Return (v, None) h2 ∧
              wf_base h2 b l).
Proof.
  intros Hwf Hfuel. split; [by apply AppendValue_Poplast | by apply PrependValue_Popfirst].
Qed.

Lemma push_then_pop_witness :
  wf_base sample_heap 0 [0; 1] ∧ length [0; 1] ≤ 2 ∧
  (∃ h1 h2 n, AppendValue (Some 0) (Some 5%Z) sample_heap = Return None h1 ∧
              Poplast 2 (Some 0) h1 = Return (Some n, None) h2 ∧
              GetValue (Some n) h2 = Return (Some 5%Z, None) h2 ∧
              wf_base h2 0 [0; 1]) ∧
  (∃ h1 h2 n, PrependValue (Some 0) (Some 5%Z) sample_heap = Return None h1 ∧
              Popfirst (Some 0) h1 = Return (Some n, None) h2 ∧
              GetValue (Some n) h2 = Return (Some 5%Z, None) h2 ∧
              wf_base h2 0 [0; 1]).
Proof.
  split; [exact sample_heap_wf0 |]. split; [simpl; lia |].
  apply (push_then_pop sample_heap 2 0 [0; 1] (Some 5%Z) sample_heap_wf0).
  simpl. lia.
Defined.

(** X28: after [Remove] took a node out of a well-formed container,
    [Found] for that node answers false; it reports an error, the node
    having no owner any more, unless the container became empty. *)
Theorem Remove_then_Found {V} (h : heap V) (fuel b : nat) (l1 : list nat) (n : nat)
    (l2 : list nat) :
  wf_base h b (l1 ++ n :: l2) → length (l1 ++ n :: l2) ≤ fuel →
  ∃ h' E, Remove fuel (Some b) (Some n) h = Return (Some n, None) h' ∧
          Found fuel (Some b) (Some n) h' = Return (false, E) h' ∧
          (E = None ↔ l1 ++ l2 = []).
Proof.
  intros Hwf Hfuel. pose proof (wf_base_NoDup h b _ Hwf) as Hdup.
  rewrite !length_app in Hfuel. simpl in Hfuel.
  destruct (Remove_wf h fuel b l1 n l2 Hwf ltac:(lia))
    as (h' & Hrun & Hwf' & (nd & Hn & _ & Hfree) & _).
  destruct (Found_of_wf h' fuel b (l1 ++ l2) n nd Hwf' Hn) as (r & E & Hfound & Hr & HE).
  { rewrite length_app. lia. }
  assert (n ∉ l1 ++ l2) as Hnot.
  { apply NoDup_app in Hdup as (_ & Hdisj & Hdup2). apply NoDup_cons in Hdup2 as [Hn2 _].
    intros [Hin | Hin]%elem_of_app; [|done].
    apply (Hdisj n Hin), list_elem_of_here. }
  exists h', E. repeat split; try done.
  - destruct r; [|done]. exfalso. by apply Hnot, Hr.
  - intros HEn. apply HE in HEn as [? | Hown]; [done | congruence].
  - intros Hnil. apply HE. by left.
Qed.

Lemma Remove_then_Found_witness :
  wf_base sample_heap 0 ([0] ++ 1 :: []) ∧ length ([0] ++ 1 :: []) ≤ 2 ∧
  ∃ h' E, Remove 2 (Some 0) (Some 1) sample_heap = Return (Some 1, None) h' ∧
          Found 2 (Some 0) (Some 1) h' = Return (false, E) h' ∧
          (E = None ↔ [0] ++ [] = []).
Proof.
  split; [exact sample_heap_wf0 |]. split; [simpl; lia |].
  apply (Remove_then_Found sample_heap 2 0 [0] 1 [] sample_heap_wf0).
  simpl. lia.
Defined.

(** X29: a node moves from one well-formed container to another by
    [Remove] on the first and [Append] on the second: both calls report
    no error, the first container holds its chain without the node and
    the second its chain followed by the node. *)
Theorem Remove_then_Append_moves {V} (h : heap V) (fuel b b' : nat) (l1 : list nat)
    (n : nat) (l2 l' : list nat) :
  wf_base h b (l1 ++ n :: l2) → wf_base h b' l' → b ≠ b' → length l1 ≤ fuel →
  ∃ h1 h2, Remove fuel (Some b) (Some n) h = Return (Some n, None) h1 ∧
           Append (Some b') (Some n) h1 = Return None h2 ∧
           wf_base h2 b (l1 ++ l2) ∧ wf_base h2 b' (l' ++ [n]).
Proof.
  intros Hwf Hwf' Hne Hfuel.
  destruct (Remove_wf h fuel b l1 n l2 Hwf Hfuel)
    as (h1 & Hrun1 & Hwf1 & (nd & Hn & _ & Hfree) & _ & Hkept1).
  destruct (Append_wf h1 b' l' n nd (Hkept1 b' l' ltac:(done) Hwf') Hn Hfree)
    as (h2 & Hrun2 & Hwf2 & _ & Hkept2).
  exists h1, h2. repeat split; try done. by apply Hkept2.
Qed.

Lemma Remove_then_Append_moves_witness :
  wf_base sample_heap 0 ([0] ++ 1 :: []) ∧ wf_base sample_heap 1 [3] ∧
  0 ≠ 1 ∧ length [0] ≤ 1 ∧
  ∃ h1 h2, Remove 1 (Some 0) (Some 1) sample_heap = Return (Some 1, None) h1 ∧
           Append (Some 1) (Some 1) h1 = Return None h2 ∧
           wf_base h2 0 ([0] ++ []) ∧ wf_base h2 1 ([3] ++ [1]).
Proof.
  assert (0 ≠ 1) as Hne by lia.
  split; [exact sample_heap_wf0 |]. split; [exact sample_heap_wf1 |].
  split; [exact Hne |]. split; [simpl; lia |].
  apply (Remove_then_Append_moves sample_heap 1 0 1 [0] 1 [] [3]
           sample_heap_wf0 sample_heap_wf1 Hne).
  simpl. lia.
Defined.
